(** * CM256: Cauchy-matrix MDS erasure codes over GF(256)

    A shallow embedding of [cm256.cpp] (the encoder, the decoder set-up,
    the m=1 fast path and the general Gauss-Jordan decoder) together with
    the properties the specification states about them.

    Conventions.
    - A [uint8_t] is a [Z] in [0, 256); [static_cast<uint8_t>] is
      [to_uint8] (reduction modulo 256).
    - An [int] is a [Z] in [[INT_MIN, INT_MAX]] (32 bits, two's
      complement).  Two [int] results of the code can leave that range:
      the sum [OriginalCount + RecoveryCount] of the range check and the
      product [i * BlockBytes] of the copy loop for a single original.
      Both are written with their wrap-around, [to_int].  Every other
      [int] the code computes is, once the range check has passed, a
      count or an index below 2^17.
    - A block buffer is a [list Z] owned by its block; distinct blocks do
      not share storage (the caller's obligation in the API).
    - The GF(256) library (gf256.h / gf256.cpp) is a collaborator that is
      not part of cm256.cpp.  Its context object is the type class
      [gf256_ctx]; its bulk memory routines are modelled from the
      specification's description of them. *)

From Stdlib Require Import ZArith List Lia Bool Field Eqdep_dec.
From Stdlib Require Import Permutation FinFun Sorted.
Import ListNotations.
Local Open Scope Z_scope.

(* ================================================================= *)
(** ** Bytes *)

Definition is_byte (z : Z) : Prop := 0 <= z < 256.

Definition byteb (z : Z) : bool := (0 <=? z) && (z <? 256).

(** [static_cast<uint8_t>(z)] *)
Definition to_uint8 (z : Z) : Z := z mod 256.

(** The range of [int]. *)
Definition INT_MAX : Z := 2147483647.
Definition INT_MIN : Z := -2147483648.

Definition int_range (z : Z) : Prop := INT_MIN <= z <= INT_MAX.

(** What 32-bit two's-complement arithmetic leaves in an [int] when the
    mathematical result is [z]. *)
Definition to_int (z : Z) : Z :=
  (z + 2147483648) mod 4294967296 - 2147483648.

(** [gf256_add(x, y)] is [x ^ y] (gf256.h; spec section 6: "add - XOR"). *)
Definition gf256_add (x y : Z) : Z := Z.lxor x y.

Arguments gf256_add : simpl never.

(** The XOR of a list of bytes, and the GF(256) sum of [f j] over the
    indices [j] of a list. *)
Definition xor_list (l : list Z) : Z := fold_right gf256_add 0 l.

Definition gsum (f : nat -> Z) (l : list nat) : Z := xor_list (map f l).

(* ================================================================= *)
(** ** The GF(256) context

    cm256.cpp holds one [static gf256_ctx GF256Ctx] and hands it to
    [gf256_mul_mem], [gf256_div], [gf256_inv] and [gf256_muladd_mem].
    The tables it contains are built by gf256.cpp, which is outside this
    file; the class below states what the specification requires of them:
    the bytes with XOR as addition and the context's multiplication form a
    field, [gf256_inv] is the multiplicative inverse and [gf256_div] is
    multiplication by the inverse, both for a non-zero second operand. *)

Class gf256_ctx : Type := {
  gf256_mul : Z -> Z -> Z;
  gf256_div : Z -> Z -> Z;
  gf256_inv : Z -> Z;
  gf256_mul_byte : forall a b, is_byte a -> is_byte b -> is_byte (gf256_mul a b);
  gf256_inv_byte : forall a, is_byte a -> a <> 0 -> is_byte (gf256_inv a);
  gf256_mul_comm : forall a b, is_byte a -> is_byte b ->
    gf256_mul a b = gf256_mul b a;
  gf256_mul_assoc : forall a b c, is_byte a -> is_byte b -> is_byte c ->
    gf256_mul a (gf256_mul b c) = gf256_mul (gf256_mul a b) c;
  gf256_mul_1_l : forall a, is_byte a -> gf256_mul 1 a = a;
  gf256_mul_add_distr_r : forall a b c, is_byte a -> is_byte b -> is_byte c ->
    gf256_mul (gf256_add a b) c = gf256_add (gf256_mul a c) (gf256_mul b c);
  gf256_mul_inv_l : forall a, is_byte a -> a <> 0 ->
    gf256_mul (gf256_inv a) a = 1;
  gf256_div_spec : forall a b, is_byte a -> is_byte b -> b <> 0 ->
    gf256_div a b = gf256_mul a (gf256_inv b)
}.

(* ================================================================= *)
(** ** Memory *)

(** [l[n] = f(l[n])]; a store outside the array leaves the model
    unchanged (it is undefined behaviour in the source). *)
Fixpoint update_nth {A : Type} (n : nat) (f : A -> A) (l : list A) : list A :=
  match l, n with
  | [], _ => []
  | x :: l', O => f x :: l'
  | x :: l', S n' => x :: update_nth n' f l'
  end.

Definition set_nth {A : Type} (n : nat) (v : A) (l : list A) : list A :=
  update_nth n (fun _ => v) l.

(** Pointer arithmetic: run [f] on the memory that starts [off] bytes
    into [mem] (the pointer [mem + off]). *)
Definition at_offset (off : nat) (f : list Z -> list Z) (mem : list Z) : list Z :=
  firstn off mem ++ f (skipn off mem).

(** The pointer [mem + off] for an [int] offset.  A negative offset
    points before the array: what is stored through such a pointer is
    outside the array, and the array is left as it is. *)
Definition at_int_offset (off : Z) (f : list Z -> list Z) (mem : list Z)
  : list Z :=
  if off <? 0 then mem else at_offset (Z.to_nat off) f mem.

(** The shape shared by the bulk routines: for each of the first [bytes]
    positions, [dst[i] = f(dst[i], x[i], y[i])]. *)
Fixpoint mem_op (f : Z -> Z -> Z -> Z) (bytes : nat) (dst x y : list Z) : list Z :=
  match bytes, dst with
  | S n, d :: dst' => f d (hd 0 x) (hd 0 y) :: mem_op f n dst' (tl x) (tl y)
  | _, _ => dst
  end.

(** [memcpy(dst, src, bytes)] *)
Definition memcpy (dst src : list Z) (bytes : Z) : list Z :=
  mem_op (fun _ s _ => s) (Z.to_nat bytes) dst src src.

(** Modelled from the spec: [gf256_add_mem(dst, src, n)] of gf256.cpp,
    which is not part of cm256.cpp: "dst ^= src byte-wise". *)
Definition gf256_add_mem (dst src : list Z) (bytes : Z) : list Z :=
  mem_op (fun d s _ => gf256_add d s) (Z.to_nat bytes) dst src src.

(** Modelled from the spec: [gf256_add2_mem(dst, a, b, n)] of gf256.cpp:
    "dst ^= a ^ b byte-wise". *)
Definition gf256_add2_mem (dst a b : list Z) (bytes : Z) : list Z :=
  mem_op (fun d x y => gf256_add d (gf256_add x y)) (Z.to_nat bytes) dst a b.

(** Modelled from the spec: [gf256_addset_mem(dst, a, b, n)] of gf256.cpp:
    "dst := a ^ b byte-wise". *)
Definition gf256_addset_mem (dst a b : list Z) (bytes : Z) : list Z :=
  mem_op (fun _ x y => gf256_add x y) (Z.to_nat bytes) dst a b.

(** Modelled from the spec: [gf256_mul_mem(ctx, dst, src, c, n)] of
    gf256.cpp: "dst := c . src byte-wise". *)
Definition gf256_mul_mem {GF256Ctx : gf256_ctx} (dst src : list Z) (c : Z) (bytes : Z) : list Z :=
  mem_op (fun _ s _ => gf256_mul c s) (Z.to_nat bytes) dst src src.

(** Modelled from the spec: [gf256_muladd_mem(ctx, dst, c, src, n)] of
    gf256.cpp: "dst += c . src byte-wise". *)
Definition gf256_muladd_mem {GF256Ctx : gf256_ctx} (dst : list Z) (c : Z) (src : list Z) (bytes : Z)
  : list Z :=
  mem_op (fun d s _ => gf256_add d (gf256_mul c s)) (Z.to_nat bytes) dst src src.

(* ================================================================= *)
(** ** Matrix element (cm256.cpp, lines 106-111) *)

Definition GetMatrixElement {GF256Ctx : gf256_ctx} (x_i x_0 y_j : Z) : Z :=
  gf256_div (gf256_add y_j x_0) (gf256_add x_i y_j).

(* ================================================================= *)
(** ** Encoding (cm256.cpp, lines 117-192) *)

Record cm256_encoder_params : Type := {
  OriginalCount : Z;
  RecoveryCount : Z;
  BlockBytes : Z
}.

(** [originals[j]] *)
Definition original_at (originals : list (list Z)) (j : nat) : list Z :=
  nth j originals [].

(** The body of [for (int i = 1; i < params.RecoveryCount; ++i)].  The
    state is the output region and the offset of the moving pointer
    [recoveryBlock] into it. *)
Definition encode_row {GF256Ctx : gf256_ctx} (params : cm256_encoder_params)
    (originals : list (list Z)) (x_0 : Z)
    (st : list Z * nat) (i : nat) : list Z * nat :=
  let '(region, recoveryBlock) := st in
  let x_i := to_uint8 (x_0 + Z.of_nat i) in
  let recoveryBlock := (recoveryBlock + Z.to_nat (BlockBytes params))%nat in
  let region :=
    let y_0 := 0 in
    let matrixElement := GetMatrixElement x_i x_0 y_0 in
    at_offset recoveryBlock
      (fun dst => gf256_mul_mem dst (original_at originals 0) matrixElement
                    (BlockBytes params)) region in
  let region :=
    fold_left (fun region j =>
      let y_j := to_uint8 (Z.of_nat j) in
      let matrixElement := GetMatrixElement x_i x_0 y_j in
      at_offset recoveryBlock
        (fun dst => gf256_muladd_mem dst matrixElement (original_at originals j)
                      (BlockBytes params)) region)
      (seq 1 (Z.to_nat (OriginalCount params) - 1)) region in
  (region, recoveryBlock).

(** [cm256_encode].  [None] is a null pointer.  The result is the return
    value and the output region as the call leaves it. *)
Definition cm256_encode {GF256Ctx : gf256_ctx} (params : cm256_encoder_params)
    (originals : option (list (list Z))) (recoveryBlocks : option (list Z))
  : Z * option (list Z) :=
  if (OriginalCount params <=? 0) || (RecoveryCount params <=? 0)
     || (BlockBytes params <=? 0)
  then (-1, recoveryBlocks)
  else if to_int (OriginalCount params + RecoveryCount params) >? 256
  then (-2, recoveryBlocks)
  else
    match originals, recoveryBlocks with
    | Some originals, Some recoveryBlock =>
      if OriginalCount params =? 1 then
        (0, Some (fold_left (fun region i =>
                    at_int_offset (to_int (Z.of_nat i * BlockBytes params))
                      (fun dst => memcpy dst (original_at originals 0)
                                    (BlockBytes params)) region)
                  (seq 0 (Z.to_nat (RecoveryCount params))) recoveryBlock))
      else
        let region :=
          at_offset 0
            (fun dst => gf256_addset_mem dst (original_at originals 0)
                          (original_at originals 1) (BlockBytes params))
            recoveryBlock in
        let region :=
          fold_left (fun region j =>
            at_offset 0
              (fun dst => gf256_add_mem dst (original_at originals j)
                            (BlockBytes params)) region)
            (seq 2 (Z.to_nat (OriginalCount params) - 2)) region in
        let x_0 := to_uint8 (OriginalCount params) in
        (0, Some (fst (fold_left (encode_row params originals x_0)
                         (seq 1 (Z.to_nat (RecoveryCount params) - 1))
                         (region, 0%nat))))
    | _, _ => (-3, recoveryBlocks)
    end.

(** The arguments of the calls of [GetMatrixElement] that [cm256_encode]
    makes once the parameters and the pointers have passed the checks, in
    program order: none when [OriginalCount] is 1; otherwise, for each
    row [i], the unrolled column 0 and then the columns [1 .. k-1]. *)
Definition encode_calls (params : cm256_encoder_params) : list (Z * Z * Z) :=
  let x_0 := to_uint8 (OriginalCount params) in
  if OriginalCount params =? 1 then [] else
  flat_map (fun i =>
    let x_i := to_uint8 (x_0 + Z.of_nat i) in
    (x_i, x_0, 0) ::
    map (fun j => (x_i, x_0, to_uint8 (Z.of_nat j)))
        (seq 1 (Z.to_nat (OriginalCount params) - 1)))
    (seq 1 (Z.to_nat (RecoveryCount params) - 1)).

(* ================================================================= *)
(** ** Decoding (cm256.cpp, lines 198-479) *)

(** [cm256_block] of cm256.h: [void* Block; unsigned char Index]. *)
Record cm256_block : Type := {
  Block : list Z;
  Index : Z
}.

Definition null_block : cm256_block := {| Block := []; Index := 0 |}.

(** [blocks[p]], the target of a [cm256_block*] *)
Definition block_at (blocks : list cm256_block) (p : nat) : cm256_block :=
  nth p blocks null_block.

Definition store_Index (v : Z) (b : cm256_block) : cm256_block :=
  {| Block := Block b; Index := v |}.

Definition store_Block (f : list Z -> list Z) (b : cm256_block) : cm256_block :=
  {| Block := f (Block b); Index := Index b |}.

Module Decoder.

Local Abbreviation params_OriginalCount := OriginalCount.

(** [struct Decoder].  A [cm256_block*] is the position of the block in
    the caller's array.  [Recovery] and [Original] are the filled
    prefixes of the two pointer arrays, so that the counters
    [RecoveryCount] and [OriginalCount] are their lengths.
    [ErasuresIndices] is the whole array of 256 bytes. *)
Record t : Type := {
  Params : cm256_encoder_params;
  Recovery : list nat;
  Original : list nat;
  ErasuresIndices : list Z
}.

Definition RecoveryCount (d : t) : Z := Z.of_nat (length (Recovery d)).
Definition OriginalCount (d : t) : Z := Z.of_nat (length (Original d)).

(** The body of the loop "for each input block" of [Initialize]. *)
Definition Initialize_block (params : cm256_encoder_params)
    (blocks : list cm256_block) (d : t) (ii : nat) : t :=
  let block := ii in
  let row := Index (block_at blocks block) in
  if row <? params_OriginalCount params then
    {| Params := Params d;
       Recovery := Recovery d;
       Original := Original d ++ [block];
       ErasuresIndices := set_nth (Z.to_nat row) 1 (ErasuresIndices d) |}
  else
    {| Params := Params d;
       Recovery := Recovery d ++ [block];
       Original := Original d;
       ErasuresIndices := ErasuresIndices d |}.

(** The loop "identify erasures" of [Initialize]: [fuel] is the number of
    iterations left before [ii] reaches 256. *)
Fixpoint Initialize_erasures (fuel ii indexCount : nat) (RecoveryCount : Z)
    (ErasuresIndices : list Z) : list Z :=
  match fuel with
  | O => ErasuresIndices
  | S fuel' =>
    if nth ii ErasuresIndices 0 =? 0 then
      let ErasuresIndices :=
        set_nth indexCount (to_uint8 (Z.of_nat ii)) ErasuresIndices in
      let indexCount := S indexCount in
      if Z.of_nat indexCount >=? RecoveryCount then ErasuresIndices
      else Initialize_erasures fuel' (S ii) indexCount RecoveryCount
             ErasuresIndices
    else Initialize_erasures fuel' (S ii) indexCount RecoveryCount
           ErasuresIndices
  end.

(** [Decoder::Initialize].  [uninit] is the content of the array
    [ErasuresIndices] when the [Decoder] object is created on the stack:
    the source does not initialise it. *)
Definition Initialize (uninit : list Z) (params : cm256_encoder_params)
    (blocks : list cm256_block) : t :=
  let k := Z.to_nat (params_OriginalCount params) in
  let d := {| Params := params; Recovery := []; Original := [];
              ErasuresIndices :=
                fold_left (fun e ii => set_nth ii 0 e) (seq 0 k) uninit |} in
  let d := fold_left (Initialize_block params blocks) (seq 0 k) d in
  {| Params := Params d;
     Recovery := Recovery d;
     Original := Original d;
     ErasuresIndices :=
       Initialize_erasures 256 0 0 (RecoveryCount d) (ErasuresIndices d) |}.

(** [Recovery[i]] *)
Definition Recovery_at (d : t) (i : nat) : nat := nth i (Recovery d) 0%nat.

(** [Decoder::DecodeM1].  The loop state is the array of blocks and the
    pointer [inBlock] ([None] is [nullptr]). *)
Definition DecodeM1 (d : t) (blocks : list cm256_block) : list cm256_block :=
  let outBlock := Recovery_at d 0 in
  let '(blocks, inBlock) :=
    fold_left (fun (st : list cm256_block * option nat) (o : nat) =>
      let '(blocks, inBlock) := st in
      let inBlock2 := o in
      match inBlock with
      | None => (blocks, Some inBlock2)
      | Some inBlock =>
        (update_nth outBlock
           (store_Block (fun out =>
              gf256_add2_mem out (Block (block_at blocks inBlock))
                (Block (block_at blocks inBlock2))
                (BlockBytes (Params d)))) blocks,
         None)
      end) (Original d) (blocks, None) in
  let blocks :=
    match inBlock with
    | Some inBlock =>
      update_nth outBlock
        (store_Block (fun out =>
           gf256_add_mem out (Block (block_at blocks inBlock))
             (BlockBytes (Params d)))) blocks
    | None => blocks
    end in
  update_nth outBlock (store_Index (nth 0 (ErasuresIndices d) 0)) blocks.

Section Decode.
Context {GF256Ctx : gf256_ctx}.
Variable d : t.

(** "Eliminate original data from the recovery rows" *)
Definition Decode_eliminate_originals (x_0 : Z) (blocks : list cm256_block)
  : list cm256_block :=
  fold_left (fun blocks o =>
    let inRow := Index (block_at blocks o) in
    fold_left (fun blocks r =>
      let x_i := Index (block_at blocks r) in
      let y_j := inRow in
      let matrixElement := GetMatrixElement x_i x_0 y_j in
      update_nth r
        (store_Block (fun outBlock =>
           gf256_muladd_mem outBlock matrixElement
             (Block (block_at blocks o)) (BlockBytes (Params d)))) blocks)
      (Recovery d) blocks)
    (Original d) blocks.

(** The arguments of the calls of [GetMatrixElement] in "fill matrix",
    row by row. *)
Definition Decode_matrix_calls (x_0 : Z) (blocks : list cm256_block)
  : list (Z * Z * Z) :=
  flat_map (fun r =>
    let x_i := Index (block_at blocks r) in
    map (fun j => (x_i, x_0, nth j (ErasuresIndices d) 0))
        (seq 0 (length (Recovery d))))
    (Recovery d).

(** "Fill matrix": the elements are stored one after the other through
    [*elementPtr++]. *)
Definition Decode_fill_matrix (x_0 : Z) (blocks : list cm256_block) : list Z :=
  map (fun '(x_i, x_0, y_j) => GetMatrixElement x_i x_0 y_j)
      (Decode_matrix_calls x_0 blocks).

(** The state of the elimination: the caller's blocks, the matrix and
    the array [pivots]. *)
Record elim : Type := {
  el_blocks : list cm256_block;
  el_matrix : list Z;
  el_pivots : list Z
}.

(** The body of the pivot hunt once a non-zero element is found in row
    [i = pivots[remainingIndex]]: from "swap pivots" to the [break]. *)
Definition Decode_pivot (j remainingIndex i : nat) (matrixElement : Z)
    (st : elim) : elim :=
  let n := length (Recovery d) in
  let elementPtr := (i * n + j + 1)%nat in
  let rest := Z.of_nat n - Z.of_nat j - 1 in
  let pivots := set_nth remainingIndex (nth j (el_pivots st) 0) (el_pivots st) in
  let pivots := set_nth j (to_uint8 (Z.of_nat i)) pivots in
  let blocks :=
    update_nth (Recovery_at d i)
      (store_Index (nth j (ErasuresIndices d) 0)) (el_blocks st) in
  let block := Recovery_at d i in
  let '(matrix, blocks) :=
    if matrixElement =? 1 then (el_matrix st, blocks)
    else
      let invMatrixElement := gf256_inv matrixElement in
      (at_offset elementPtr
         (fun row => gf256_mul_mem row row invMatrixElement rest)
         (el_matrix st),
       update_nth block
         (store_Block (fun b =>
            gf256_mul_mem b b invMatrixElement (BlockBytes (Params d))))
         blocks) in
  fold_left (fun st k =>
    let otheri := Z.to_nat (nth k (el_pivots st) 0) in
    let otherElementPtr := (otheri * n + j)%nat in
    let otherMatrixElement := nth otherElementPtr (el_matrix st) 0 in
    {| el_blocks :=
         update_nth (Recovery_at d otheri)
           (store_Block (fun b =>
              gf256_muladd_mem b otherMatrixElement
                (Block (block_at (el_blocks st) block))
                (BlockBytes (Params d))))
           (el_blocks st);
       el_matrix :=
         at_offset (otherElementPtr + 1)
           (fun row => gf256_muladd_mem row otherMatrixElement
                         (skipn elementPtr (el_matrix st)) rest)
           (el_matrix st);
       el_pivots := el_pivots st |})
    (seq (j + 1) (n - j - 1))
    {| el_blocks := blocks; el_matrix := matrix; el_pivots := pivots |}.

(** "Hunt for pivot in column": [fuel] is the number of candidates left,
    [RecoveryCount - remainingIndex]. *)
Fixpoint Decode_hunt (fuel j remainingIndex : nat) (st : elim) : elim :=
  match fuel with
  | O => st
  | S fuel' =>
    let n := length (Recovery d) in
    let i := Z.to_nat (nth remainingIndex (el_pivots st) 0) in
    let matrixElement := nth (i * n + j) (el_matrix st) 0 in
    if matrixElement =? 0 then Decode_hunt fuel' j (S remainingIndex) st
    else Decode_pivot j remainingIndex i matrixElement st
  end.

(** "Gaussian elimination" *)
Definition Decode_gauss (st : elim) : elim :=
  let n := length (Recovery d) in
  fold_left (fun st j => Decode_hunt (n - j) j j st) (seq 0 n) st.

(** "Back-substitute" *)
Definition Decode_back_substitute (st : elim) : list cm256_block :=
  let n := length (Recovery d) in
  fold_left (fun blocks j =>
    let jIndex := Z.to_nat (nth j (el_pivots st) 0) in
    let block := Recovery_at d jIndex in
    let row := (jIndex * n)%nat in
    fold_left (fun blocks k =>
      let kIndex := Z.to_nat (nth k (el_pivots st) 0) in
      let matrixElement := nth (row + k) (el_matrix st) 0 in
      update_nth block
        (store_Block (fun b =>
           gf256_muladd_mem b matrixElement
             (Block (block_at blocks (Recovery_at d kIndex)))
             (BlockBytes (Params d)))) blocks)
      (rev (seq (j + 1) (n - 1 - j))) blocks)
    (rev (seq 0 (n - 1))) (el_blocks st).

(** [Decoder::Decode] *)
Definition Decode (blocks : list cm256_block) : list cm256_block :=
  let x_0 := to_uint8 (params_OriginalCount (Params d)) in
  let blocks := Decode_eliminate_originals x_0 blocks in
  let matrix := Decode_fill_matrix x_0 blocks in
  let pivots :=
    map (fun j => to_uint8 (Z.of_nat j))
        (seq 0 (Z.to_nat (params_OriginalCount (Params d)))) in
  let st := Decode_gauss {| el_blocks := blocks; el_matrix := matrix;
                            el_pivots := pivots |} in
  Decode_back_substitute st.

(** The arguments of every call of [GetMatrixElement] that [Decode]
    makes, in program order: the elimination of the originals, then the
    filling of the matrix. *)
Definition Decode_calls (blocks : list cm256_block) : list (Z * Z * Z) :=
  let x_0 := to_uint8 (params_OriginalCount (Params d)) in
  flat_map (fun o =>
    map (fun r => (Index (block_at blocks r), x_0, Index (block_at blocks o)))
        (Recovery d)) (Original d)
  ++ Decode_matrix_calls x_0 blocks.

End Decode.

End Decoder.

(** [cm256_decode].  The result is the return value and the caller's
    array of blocks as the call leaves it. *)
Definition cm256_decode {GF256Ctx : gf256_ctx} (uninit : list Z)
    (params : cm256_encoder_params) (blocks : list cm256_block)
  : Z * list cm256_block :=
  if (OriginalCount params <=? 0) || (RecoveryCount params <=? 0)
     || (BlockBytes params <=? 0)
  then (-1, blocks)
  else if to_int (OriginalCount params + RecoveryCount params) >? 256
  then (-2, blocks)
  else if OriginalCount params =? 1
  then (0, update_nth 0 (store_Index 0) blocks)
  else
    let state := Decoder.Initialize uninit params blocks in
    if Decoder.RecoveryCount state <=? 0 then (0, blocks)
    else if RecoveryCount params =? 1
    then (0, Decoder.DecodeM1 state blocks)
    else (0, Decoder.Decode state blocks).

(* ================================================================= *)
(** ** A GF(256) context

    Modelled from the spec: the tables of gf256.cpp, which is not part of
    cm256.cpp.  The specification fixes the field as "the finite field of
    256 elements; addition is XOR, multiplication is table-driven over an
    irreducible polynomial of degree 8".  The functions below compute
    what such tables hold for the polynomial x^8 + x^6 + x^3 + x^2 + 1
    (0x14D): [GF256_mul a b] is the product of the polynomials [a] and [b]
    modulo 0x14D, [GF256_inv a] is [a^254] and [GF256_div a b] is
    [a . b^254]. *)

(** Multiplication by x modulo 0x14D. *)
Definition GF256_xtime (a : Z) : Z :=
  Z.lxor (Z.land (Z.shiftl a 1) 255) (if Z.testbit a 7 then 77 else 0).

Fixpoint GF256_mul_bits (n : nat) (a b : Z) : Z :=
  match n with
  | O => 0
  | S n' =>
    Z.lxor (if Z.testbit b 0 then a else 0)
           (GF256_mul_bits n' (GF256_xtime a) (Z.shiftr b 1))
  end.

Definition GF256_mul (a b : Z) : Z := GF256_mul_bits 8 a b.

Definition GF256_sqr (a : Z) : Z := GF256_mul a a.

Definition GF256_inv (a : Z) : Z :=
  let a2 := GF256_sqr a in
  let a4 := GF256_sqr a2 in
  let a8 := GF256_sqr a4 in
  let a16 := GF256_sqr a8 in
  let a32 := GF256_sqr a16 in
  let a64 := GF256_sqr a32 in
  let a128 := GF256_sqr a64 in
  GF256_mul a2 (GF256_mul a4 (GF256_mul a8 (GF256_mul a16
    (GF256_mul a32 (GF256_mul a64 a128))))).

Definition GF256_div (a b : Z) : Z := GF256_mul a (GF256_inv b).

(* ================================================================= *)
(** ** Byte facts *)

Lemma byteb_true_iff z : byteb z = true <-> is_byte z.
Proof.
  unfold byteb, is_byte. rewrite andb_true_iff, Z.leb_le, Z.ltb_lt. tauto.
Qed.

(** Arithmetic that stays in the range of [int] is exact. *)
Lemma to_int_small z : int_range z -> to_int z = z.
Proof.
  unfold int_range, INT_MIN, INT_MAX, to_int. intro H.
  rewrite Z.mod_small by lia. lia.
Qed.

Lemma to_int_range z : int_range (to_int z).
Proof.
  unfold int_range, INT_MIN, INT_MAX, to_int.
  pose proof (Z.mod_pos_bound (z + 2147483648) 4294967296 ltac:(lia)). lia.
Qed.

Lemma is_byte_testbit z :
  is_byte z <-> (0 <= z /\ forall i, 8 <= i -> Z.testbit z i = false).
Proof.
  unfold is_byte. split.
  - intros [H0 H1]. split; [exact H0|]. intros i Hi.
    destruct (Z.eq_dec z 0) as [->|Hz]; [apply Z.bits_0|].
    apply Z.bits_above_log2; [exact H0|].
    assert (Z.log2 z < 8) by (apply Z.log2_lt_pow2; lia). lia.
  - intros [H0 Hb]. split; [exact H0|].
    destruct (Z.eq_dec z 0) as [->|Hz]; [lia|].
    assert (Hl : Z.log2 z < 8).
    { destruct (Z_lt_le_dec (Z.log2 z) 8) as [Hlt|Hge]; [exact Hlt|].
      exfalso. specialize (Hb (Z.log2 z) Hge).
      rewrite Z.bit_log2 in Hb by lia. discriminate. }
    apply Z.log2_lt_pow2 in Hl; lia.
Qed.

Lemma gf256_add_byte a b : is_byte a -> is_byte b -> is_byte (gf256_add a b).
Proof.
  rewrite !is_byte_testbit. intros [Ha0 Ha] [Hb0 Hb]. split.
  - unfold gf256_add. apply Z.lxor_nonneg. tauto.
  - intros i Hi. unfold gf256_add. rewrite Z.lxor_spec, Ha, Hb by exact Hi.
    reflexivity.
Qed.

Lemma is_byte_0 : is_byte 0.
Proof. unfold is_byte; lia. Qed.

Lemma is_byte_1 : is_byte 1.
Proof. unfold is_byte; lia. Qed.

Lemma to_uint8_byte z : is_byte (to_uint8 z).
Proof. unfold is_byte, to_uint8. apply Z.mod_pos_bound. lia. Qed.

Lemma to_uint8_small z : is_byte z -> to_uint8 z = z.
Proof. unfold is_byte, to_uint8. intros. apply Z.mod_small. lia. Qed.

Lemma gf256_add_comm a b : gf256_add a b = gf256_add b a.
Proof. apply Z.lxor_comm. Qed.

Lemma gf256_add_assoc a b c :
  gf256_add a (gf256_add b c) = gf256_add (gf256_add a b) c.
Proof. unfold gf256_add. symmetry. apply Z.lxor_assoc. Qed.

Lemma gf256_add_0_l a : gf256_add 0 a = a.
Proof. apply Z.lxor_0_l. Qed.

Lemma gf256_add_0_r a : gf256_add a 0 = a.
Proof. apply Z.lxor_0_r. Qed.

Lemma gf256_add_nilpotent a : gf256_add a a = 0.
Proof. apply Z.lxor_nilpotent. Qed.

Lemma gf256_add_eq_0 a b : gf256_add a b = 0 <-> a = b.
Proof. apply Z.lxor_eq_0_iff. Qed.

Create HintDb bytes.

#[global] Hint Resolve is_byte_0 is_byte_1 gf256_add_byte to_uint8_byte
  gf256_mul_byte gf256_inv_byte : bytes.

(* ================================================================= *)
(** ** The field of bytes, packaged for the [field] tactic *)

Section FieldOfBytes.
Context {GF256Ctx : gf256_ctx}.

Record gf : Type := mkgf { gf_val : Z; gf_ok : byteb gf_val = true }.

Lemma gf_val_byte (x : gf) : is_byte (gf_val x).
Proof. apply byteb_true_iff, gf_ok. Qed.

Lemma gf_eq (x y : gf) : gf_val x = gf_val y -> x = y.
Proof.
  destruct x as [x px], y as [y py]; simpl. intros ->.
  f_equal. apply UIP_dec. apply bool_dec.
Qed.

Definition gf_of (z : Z) (H : is_byte z) : gf :=
  mkgf z (proj2 (byteb_true_iff z) H).

Definition gf0 : gf := gf_of 0 is_byte_0.
Definition gf1 : gf := gf_of 1 is_byte_1.

Definition gfadd (x y : gf) : gf :=
  gf_of (gf256_add (gf_val x) (gf_val y))
        (gf256_add_byte _ _ (gf_val_byte x) (gf_val_byte y)).

Definition gfmul (x y : gf) : gf :=
  gf_of (gf256_mul (gf_val x) (gf_val y))
        (gf256_mul_byte _ _ (gf_val_byte x) (gf_val_byte y)).

Definition gfinv (x : gf) : gf :=
  match Z.eq_dec (gf_val x) 0 with
  | left _ => gf0
  | right H => gf_of (gf256_inv (gf_val x)) (gf256_inv_byte _ (gf_val_byte x) H)
  end.

Definition gfdiv (x y : gf) : gf := gfmul x (gfinv y).

Lemma gf256_1_neq_0 : gf1 <> gf0.
Proof. intro H. apply (f_equal gf_val) in H. discriminate H. Qed.

Lemma gf256_mul_0_l a : is_byte a -> gf256_mul 0 a = 0.
Proof.
  intro Ha.
  pose proof (gf256_mul_add_distr_r 0 0 a is_byte_0 is_byte_0 Ha) as H.
  rewrite gf256_add_0_l, gf256_add_nilpotent in H. exact H.
Qed.

Lemma gf_field_theory :
  field_theory gf0 gf1 gfadd gfmul gfadd (fun x => x) gfdiv gfinv eq.
Proof.
  constructor.
  - constructor; intros; apply gf_eq; simpl.
    + apply gf256_add_0_l.
    + apply gf256_add_comm.
    + apply gf256_add_assoc.
    + apply gf256_mul_1_l, gf_val_byte.
    + apply gf256_mul_comm; apply gf_val_byte.
    + apply gf256_mul_assoc; apply gf_val_byte.
    + apply gf256_mul_add_distr_r; apply gf_val_byte.
    + reflexivity.
    + apply gf256_add_nilpotent.
  - exact gf256_1_neq_0.
  - reflexivity.
  - intros p Hp. apply gf_eq. unfold gfinv.
    destruct (Z.eq_dec (gf_val p) 0) as [e|n].
    + exfalso. apply Hp. apply gf_eq. exact e.
    + simpl. apply gf256_mul_inv_l; [apply gf_val_byte|exact n].
Qed.

Add Field gf_field : gf_field_theory.

End FieldOfBytes.

(* ================================================================= *)
(** ** Arrays and bulk memory operations *)

Section Memory.
Context {A : Type}.

Lemma update_nth_length (n : nat) (f : A -> A) (l : list A) :
  length (update_nth n f l) = length l.
Proof.
  revert n; induction l as [|x l IH]; intros [|n]; simpl; auto.
Qed.

Lemma nth_update_nth_eq (n : nat) (f : A -> A) (l : list A) (d : A) :
  (n < length l)%nat -> nth n (update_nth n f l) d = f (nth n l d).
Proof.
  revert n; induction l as [|x l IH]; intros [|n] H; simpl in *;
    try lia; auto.
  apply IH; lia.
Qed.

Lemma nth_update_nth_neq (n p : nat) (f : A -> A) (l : list A) (d : A) :
  p <> n -> nth p (update_nth n f l) d = nth p l d.
Proof.
  revert n p; induction l as [|x l IH]; intros [|n] [|p] H; simpl;
    try reflexivity; try congruence.
  apply IH; congruence.
Qed.

Lemma update_nth_out (n : nat) (f : A -> A) (l : list A) :
  (length l <= n)%nat -> update_nth n f l = l.
Proof.
  revert n; induction l as [|x l IH]; intros [|n] H; simpl in *;
    try reflexivity; try lia.
  f_equal; apply IH; lia.
Qed.

Lemma update_nth_id (n : nat) (f : A -> A) (l : list A) (d : A) :
  f (nth n l d) = nth n l d -> update_nth n f l = l.
Proof.
  revert n; induction l as [|x l IH]; intros [|n] H; simpl in *;
    try reflexivity.
  - f_equal; exact H.
  - f_equal; apply IH; exact H.
Qed.

Lemma set_nth_length (n : nat) (v : A) (l : list A) :
  length (set_nth n v l) = length l.
Proof. apply update_nth_length. Qed.

Lemma nth_set_nth_eq (n : nat) (v : A) (l : list A) (d : A) :
  (n < length l)%nat -> nth n (set_nth n v l) d = v.
Proof. intro H. unfold set_nth. rewrite nth_update_nth_eq by exact H. reflexivity. Qed.

Lemma nth_set_nth_neq (n p : nat) (v : A) (l : list A) (d : A) :
  p <> n -> nth p (set_nth n v l) d = nth p l d.
Proof. apply nth_update_nth_neq. Qed.

Lemma list_eq_nth (l1 l2 : list A) (d : A) :
  length l1 = length l2 ->
  (forall p, (p < length l1)%nat -> nth p l1 d = nth p l2 d) ->
  l1 = l2.
Proof.
  revert l2; induction l1 as [|x l1 IH]; intros [|y l2] Hlen Hnth;
    simpl in *; try discriminate; try reflexivity.
  f_equal.
  - apply (Hnth 0%nat); lia.
  - apply IH; [lia|]. intros p Hp. apply (Hnth (S p)); lia.
Qed.

End Memory.

Lemma mem_op_length f n dst x y : length (mem_op f n dst x y) = length dst.
Proof.
  revert dst x y; induction n as [|n IH]; intros [|d dst] x y; simpl; auto.
Qed.

Lemma hd_nth_0 (l : list Z) : hd 0 l = nth 0 l 0.
Proof. destruct l; reflexivity. Qed.

Lemma nth_tl (l : list Z) p : nth p (tl l) 0 = nth (S p) l 0.
Proof. destruct l; simpl; [destruct p|]; reflexivity. Qed.

Lemma mem_op_nth_in f n dst x y p :
  (p < n)%nat -> (p < length dst)%nat ->
  nth p (mem_op f n dst x y) 0 = f (nth p dst 0) (nth p x 0) (nth p y 0).
Proof.
  revert dst x y p; induction n as [|n IH]; intros [|d dst] x y [|p] Hn Hl;
    simpl in *; try lia.
  - rewrite !hd_nth_0; reflexivity.
  - rewrite IH by lia. rewrite !nth_tl. reflexivity.
Qed.

Lemma mem_op_nth_out f n dst x y p :
  (n <= p)%nat -> nth p (mem_op f n dst x y) 0 = nth p dst 0.
Proof.
  revert dst x y p; induction n as [|n IH]; intros [|d dst] x y [|p] Hn;
    simpl in *; try lia; try reflexivity.
  apply IH; lia.
Qed.

Lemma at_offset_length off f mem :
  (forall l, length (f l) = length l) ->
  length (at_offset off f mem) = length mem.
Proof.
  intro Hf. unfold at_offset.
  rewrite length_app, Hf, <- length_app, firstn_skipn. reflexivity.
Qed.

Lemma at_offset_nth_lt off f mem q :
  (q < off)%nat -> (off <= length mem)%nat ->
  nth q (at_offset off f mem) 0 = nth q mem 0.
Proof.
  intros Hq Hoff. unfold at_offset.
  rewrite app_nth1 by (rewrite length_firstn; lia).
  rewrite <- (firstn_skipn off mem) at 2.
  rewrite app_nth1 by (rewrite length_firstn; lia). reflexivity.
Qed.

Lemma at_offset_nth_ge off f mem q :
  (off <= q)%nat -> (off <= length mem)%nat ->
  nth q (at_offset off f mem) 0 = nth (q - off) (f (skipn off mem)) 0.
Proof.
  intros Hq Hoff. unfold at_offset.
  rewrite app_nth2 by (rewrite length_firstn; lia).
  rewrite length_firstn. f_equal. lia.
Qed.

Lemma nth_skipn_Z off (mem : list Z) q :
  nth q (skipn off mem) 0 = nth (off + q) mem 0.
Proof.
  revert mem; induction off as [|off IH]; intros [|m mem]; simpl;
    try reflexivity.
  - destruct q; reflexivity.
  - apply IH.
Qed.

(** A bulk operation applied [off] bytes into an array: inside the
    window the bytes are combined, outside they are untouched. *)
Lemma at_offset_mem_op_in off f n mem x y q :
  (off <= q)%nat -> (q < off + n)%nat -> (q < length mem)%nat ->
  nth q (at_offset off (fun dst => mem_op f n dst x y) mem) 0 =
  f (nth q mem 0) (nth (q - off) x 0) (nth (q - off) y 0).
Proof.
  intros H1 H2 H3.
  rewrite at_offset_nth_ge by lia.
  rewrite mem_op_nth_in by (try rewrite length_skipn; lia).
  rewrite nth_skipn_Z. do 2 f_equal. lia.
Qed.

Lemma at_offset_mem_op_out off f n mem x y q :
  (q < off \/ off + n <= q)%nat -> (off <= length mem)%nat ->
  nth q (at_offset off (fun dst => mem_op f n dst x y) mem) 0 = nth q mem 0.
Proof.
  intros H Hoff.
  destruct (Nat.lt_ge_cases q off) as [Hlt|Hge].
  - apply at_offset_nth_lt; lia.
  - rewrite at_offset_nth_ge by lia.
    rewrite mem_op_nth_out by lia.
    rewrite nth_skipn_Z. f_equal. lia.
Qed.

Lemma at_offset_mem_op_length off f n mem x y :
  length (at_offset off (fun dst => mem_op f n dst x y) mem) = length mem.
Proof. apply at_offset_length. intro l. apply mem_op_length. Qed.

(** Bulk operations keep bytes bytes. *)
Lemma mem_op_bytes f n dst x y :
  (forall a b c, is_byte a -> is_byte b -> is_byte c -> is_byte (f a b c)) ->
  (n <= length x)%nat -> (n <= length y)%nat ->
  Forall is_byte dst -> Forall is_byte x -> Forall is_byte y ->
  Forall is_byte (mem_op f n dst x y).
Proof.
  intros Hf. revert dst x y.
  induction n as [|n IH]; intros [|d dst] x y Hx Hy Hd Fx Fy; simpl; auto.
  destruct x as [|x0 x]; [simpl in Hx; lia|].
  destruct y as [|y0 y]; [simpl in Hy; lia|].
  inversion Hd; inversion Fx; inversion Fy; subst. simpl.
  constructor; [auto|]. apply IH; simpl in *; auto; lia.
Qed.

(* ================================================================= *)
(** ** The context [GF256_*] is a field *)

Ltac xor_bits :=
  apply Z.bits_inj'; intros ?n ?Hn;
  rewrite ?Z.lxor_spec, ?Z.land_spec, ?Z.lxor_spec, ?Z.bits_0;
  repeat match goal with
         | |- context [Z.testbit ?x ?n] => destruct (Z.testbit x n)
         end;
  reflexivity.

Definition all_bytes : list Z := map Z.of_nat (seq 0 256).

Lemma forall_bytes (P : Z -> bool) :
  forallb P all_bytes = true -> forall a, is_byte a -> P a = true.
Proof.
  intros H a Ha. rewrite forallb_forall in H. apply H.
  unfold all_bytes. apply in_map_iff. exists (Z.to_nat a). split.
  - unfold is_byte in Ha. lia.
  - apply in_seq. unfold is_byte in Ha. lia.
Qed.

Lemma is_byte_land_255 z : is_byte (Z.land z 255).
Proof.
  change 255 with (Z.ones 8). rewrite Z.land_ones by lia.
  apply to_uint8_byte.
Qed.

Lemma GF256_xtime_byte a : is_byte (GF256_xtime a).
Proof.
  unfold GF256_xtime. apply gf256_add_byte.
  - apply is_byte_land_255.
  - destruct (Z.testbit a 7); unfold is_byte; lia.
Qed.

Lemma GF256_xtime_lxor a b :
  GF256_xtime (Z.lxor a b) = Z.lxor (GF256_xtime a) (GF256_xtime b).
Proof.
  unfold GF256_xtime.
  rewrite Z.shiftl_lxor, Z.lxor_spec.
  destruct (Z.testbit a 7), (Z.testbit b 7); simpl xorb; cbv iota; xor_bits.
Qed.

Lemma GF256_mul_bits_byte n a b : is_byte a -> is_byte (GF256_mul_bits n a b).
Proof.
  revert a b; induction n as [|n IH]; intros a b Ha; cbn [GF256_mul_bits].
  - apply is_byte_0.
  - apply gf256_add_byte.
    + destruct (Z.testbit b 0); [exact Ha|apply is_byte_0].
    + apply IH, GF256_xtime_byte.
Qed.

Lemma GF256_mul_bits_lxor_l n a a' b :
  GF256_mul_bits n (Z.lxor a a') b =
  Z.lxor (GF256_mul_bits n a b) (GF256_mul_bits n a' b).
Proof.
  revert a a' b; induction n as [|n IH]; intros a a' b; cbn [GF256_mul_bits].
  - reflexivity.
  - rewrite GF256_xtime_lxor, IH.
    destruct (Z.testbit b 0); xor_bits.
Qed.

Lemma GF256_mul_bits_lxor_r n a b b' :
  GF256_mul_bits n a (Z.lxor b b') =
  Z.lxor (GF256_mul_bits n a b) (GF256_mul_bits n a b').
Proof.
  revert a b b'; induction n as [|n IH]; intros a b b'; cbn [GF256_mul_bits].
  - reflexivity.
  - rewrite Z.shiftr_lxor, IH, Z.lxor_spec.
    destruct (Z.testbit b 0), (Z.testbit b' 0); simpl xorb; cbv iota;
      xor_bits.
Qed.

Lemma GF256_mul_is_byte a b : is_byte a -> is_byte (GF256_mul a b).
Proof. apply GF256_mul_bits_byte. Qed.

Lemma GF256_mul_lxor_l a a' b :
  GF256_mul (Z.lxor a a') b = Z.lxor (GF256_mul a b) (GF256_mul a' b).
Proof. apply GF256_mul_bits_lxor_l. Qed.

Lemma GF256_mul_lxor_r a b b' :
  GF256_mul a (Z.lxor b b') = Z.lxor (GF256_mul a b) (GF256_mul a b').
Proof. apply GF256_mul_bits_lxor_r. Qed.

(** Every byte is the XOR of its bits, so that two functions that are
    linear over XOR agree on all bytes once they agree on the eight powers
    of two. *)
Definition bit_basis : list Z := [1; 2; 4; 8; 16; 32; 64; 128].

Definition linear (f : Z -> Z) : Prop :=
  forall a b, f (Z.lxor a b) = Z.lxor (f a) (f b).

Lemma linear_0 f : linear f -> f 0 = 0.
Proof.
  intro H. pose proof (H 0 0) as H0. rewrite Z.lxor_0_l in H0.
  rewrite Z.lxor_nilpotent in H0. exact H0.
Qed.

Lemma linear_xor_list f l :
  linear f -> f (xor_list l) = xor_list (map f l).
Proof.
  intro H. induction l as [|x l IH]; simpl.
  - apply linear_0, H.
  - rewrite H, IH. reflexivity.
Qed.

Lemma byte_bits a : is_byte a -> a = xor_list (map (Z.land a) bit_basis).
Proof.
  intro Ha. apply Z.eqb_eq.
  apply (forall_bytes (fun a => a =? xor_list (map (Z.land a) bit_basis)));
    [vm_compute; reflexivity|exact Ha].
Qed.

Lemma byte_bit_cases a e :
  is_byte a -> In e bit_basis -> Z.land a e = 0 \/ Z.land a e = e.
Proof.
  intros Ha He.
  assert (H : forallb (fun e => (Z.land a e =? 0) || (Z.land a e =? e))
                bit_basis = true).
  { apply (forall_bytes (fun a =>
      forallb (fun e => (Z.land a e =? 0) || (Z.land a e =? e)) bit_basis));
      [vm_compute; reflexivity|exact Ha]. }
  rewrite forallb_forall in H. specialize (H e He).
  apply orb_true_iff in H. rewrite !Z.eqb_eq in H. exact H.
Qed.

Lemma linear_ext f g :
  linear f -> linear g ->
  (forall e, In e bit_basis -> f e = g e) ->
  forall a, is_byte a -> f a = g a.
Proof.
  intros Hf Hg Hb a Ha.
  rewrite (byte_bits a Ha), !linear_xor_list, !map_map by assumption.
  f_equal. apply map_ext_in. intros e He.
  destruct (byte_bit_cases a e Ha He) as [-> | ->].
  - rewrite !linear_0 by assumption. reflexivity.
  - apply Hb, He.
Qed.

Lemma basis_check (P : Z -> bool) :
  forallb P bit_basis = true -> forall e, In e bit_basis -> P e = true.
Proof. intro H. apply forallb_forall, H. Qed.

Lemma GF256_mul_comm a b :
  is_byte a -> is_byte b -> GF256_mul a b = GF256_mul b a.
Proof.
  intros Ha Hb. revert a Ha.
  apply linear_ext.
  - intros x y. apply GF256_mul_lxor_l.
  - intros x y. apply GF256_mul_lxor_r.
  - intros e He. revert b Hb. apply linear_ext.
    + intros x y. apply GF256_mul_lxor_r.
    + intros x y. apply GF256_mul_lxor_l.
    + intros e' He'. apply Z.eqb_eq. revert e' He'.
      apply basis_check. revert e He. apply basis_check.
      vm_compute. reflexivity.
Qed.

Lemma GF256_mul_assoc a b c :
  is_byte a -> is_byte b -> is_byte c ->
  GF256_mul a (GF256_mul b c) = GF256_mul (GF256_mul a b) c.
Proof.
  intros Ha Hb Hc. revert a Ha.
  apply linear_ext.
  - intros x y. apply GF256_mul_lxor_l.
  - intros x y. rewrite !GF256_mul_lxor_l. reflexivity.
  - intros e1 He1. revert b Hb. apply linear_ext.
    + intros x y. rewrite GF256_mul_lxor_l, GF256_mul_lxor_r. reflexivity.
    + intros x y. rewrite GF256_mul_lxor_r, GF256_mul_lxor_l. reflexivity.
    + intros e2 He2. revert c Hc. apply linear_ext.
      * intros x y. rewrite !GF256_mul_lxor_r. reflexivity.
      * intros x y. apply GF256_mul_lxor_r.
      * intros e3 He3. apply Z.eqb_eq. revert e3 He3.
        apply basis_check. revert e2 He2. apply basis_check.
        revert e1 He1. apply basis_check.
        vm_compute. reflexivity.
Qed.

Lemma GF256_mul_1_l a : is_byte a -> GF256_mul 1 a = a.
Proof.
  revert a. apply (linear_ext (GF256_mul 1) (fun a => a)).
  - intros x y. apply GF256_mul_lxor_r.
  - intros x y. reflexivity.
  - intros e He. apply Z.eqb_eq. revert e He. apply basis_check.
    vm_compute. reflexivity.
Qed.

Lemma GF256_inv_is_byte a : is_byte a -> is_byte (GF256_inv a).
Proof.
  intro Ha. unfold GF256_inv, GF256_sqr.
  repeat apply GF256_mul_is_byte. exact Ha.
Qed.

Lemma GF256_mul_inv_l a :
  is_byte a -> a <> 0 -> GF256_mul (GF256_inv a) a = 1.
Proof.
  intros Ha Hn.
  pose proof (forall_bytes
    (fun a => (a =? 0) || (GF256_mul (GF256_inv a) a =? 1))) as H.
  specialize (H ltac:(vm_compute; reflexivity) a Ha).
  apply orb_true_iff in H. destruct H as [H|H]; apply Z.eqb_eq in H;
    [contradiction|exact H].
Qed.

Lemma GF256_mul_lxor_distr a b c :
  is_byte a -> is_byte b -> is_byte c ->
  GF256_mul (gf256_add a b) c = gf256_add (GF256_mul a c) (GF256_mul b c).
Proof. intros _ _ _. apply GF256_mul_lxor_l. Qed.

Lemma GF256_div_mul_inv a b :
  is_byte a -> is_byte b -> b <> 0 ->
  GF256_div a b = GF256_mul a (GF256_inv b).
Proof. reflexivity. Qed.

(** GF(256) with the polynomial 0x14D is a field of bytes. *)
#[export] Instance GF256Ctx : gf256_ctx :=
  Build_gf256_ctx GF256_mul GF256_div GF256_inv
    (fun a b Ha _ => GF256_mul_is_byte a b Ha)
    (fun a Ha _ => GF256_inv_is_byte a Ha)
    GF256_mul_comm GF256_mul_assoc GF256_mul_1_l GF256_mul_lxor_distr
    GF256_mul_inv_l GF256_div_mul_inv.

(* ================================================================= *)
(** ** Field arithmetic on bytes *)

Section FieldLemmas.
Context {ctx : gf256_ctx}.

Lemma gf256_mul_1_r a : is_byte a -> gf256_mul a 1 = a.
Proof.
  intro Ha. rewrite gf256_mul_comm by auto with bytes.
  apply gf256_mul_1_l, Ha.
Qed.

Lemma gf256_mul_0_r a : is_byte a -> gf256_mul a 0 = 0.
Proof.
  intro Ha. rewrite gf256_mul_comm by auto with bytes.
  apply gf256_mul_0_l, Ha.
Qed.

Lemma gf256_mul_add_distr_l a b c :
  is_byte a -> is_byte b -> is_byte c ->
  gf256_mul a (gf256_add b c) = gf256_add (gf256_mul a b) (gf256_mul a c).
Proof.
  intros Ha Hb Hc.
  rewrite gf256_mul_comm, gf256_mul_add_distr_r by auto with bytes.
  f_equal; apply gf256_mul_comm; assumption.
Qed.

Lemma gf256_mul_inv_r a : is_byte a -> a <> 0 -> gf256_mul a (gf256_inv a) = 1.
Proof.
  intros Ha Hn. rewrite gf256_mul_comm by auto with bytes.
  apply gf256_mul_inv_l; assumption.
Qed.

Lemma gf256_mul_eq_0 a b :
  is_byte a -> is_byte b -> gf256_mul a b = 0 -> a = 0 \/ b = 0.
Proof.
  intros Ha Hb H. destruct (Z.eq_dec a 0) as [Ha0|Ha0]; [left; exact Ha0|].
  right.
  assert (E : gf256_mul (gf256_inv a) (gf256_mul a b) = b).
  { rewrite gf256_mul_assoc, gf256_mul_inv_l, gf256_mul_1_l;
      auto with bytes. }
  rewrite H, gf256_mul_0_r in E by auto with bytes. symmetry; exact E.
Qed.

Lemma gf256_mul_neq_0 a b :
  is_byte a -> is_byte b -> a <> 0 -> b <> 0 -> gf256_mul a b <> 0.
Proof.
  intros Ha Hb Ha0 Hb0 H.
  destruct (gf256_mul_eq_0 a b Ha Hb H); contradiction.
Qed.

Lemma gf256_inv_neq_0 a : is_byte a -> a <> 0 -> gf256_inv a <> 0.
Proof.
  intros Ha Hn H.
  pose proof (gf256_mul_inv_l a Ha Hn) as E.
  rewrite H, gf256_mul_0_l in E by exact Ha. discriminate E.
Qed.

Lemma gf256_inv_1 : gf256_inv 1 = 1.
Proof.
  pose proof (gf256_mul_inv_l 1 is_byte_1 ltac:(discriminate)) as E.
  rewrite gf256_mul_1_r in E; [exact E|].
  apply gf256_inv_byte; [exact is_byte_1|discriminate].
Qed.

Lemma gf256_div_byte a b :
  is_byte a -> is_byte b -> b <> 0 -> is_byte (gf256_div a b).
Proof.
  intros Ha Hb Hn. rewrite gf256_div_spec by assumption.
  auto with bytes.
Qed.

Lemma gf256_div_self a : is_byte a -> a <> 0 -> gf256_div a a = 1.
Proof.
  intros Ha Hn. rewrite gf256_div_spec by assumption.
  apply gf256_mul_inv_r; assumption.
Qed.

Lemma gf256_div_mul a b :
  is_byte a -> is_byte b -> b <> 0 -> gf256_mul (gf256_div a b) b = a.
Proof.
  intros Ha Hb Hn. rewrite gf256_div_spec by assumption.
  rewrite <- gf256_mul_assoc, gf256_mul_inv_l, gf256_mul_1_r;
    auto with bytes.
Qed.

Lemma gf256_add_neq_0 a b : a <> b -> gf256_add a b <> 0.
Proof. intros H E. apply H. apply gf256_add_eq_0. exact E. Qed.

(** *** Sums *)

Lemma xor_list_app l1 l2 :
  xor_list (l1 ++ l2) = gf256_add (xor_list l1) (xor_list l2).
Proof.
  induction l1 as [|x l1 IH]; simpl.
  - rewrite gf256_add_0_l. reflexivity.
  - rewrite IH. apply gf256_add_assoc.
Qed.

Lemma xor_list_byte l : Forall is_byte l -> is_byte (xor_list l).
Proof.
  induction 1; simpl; auto with bytes.
Qed.

Lemma gsum_nil f : gsum f [] = 0.
Proof. reflexivity. Qed.

Lemma gsum_cons f j l : gsum f (j :: l) = gf256_add (f j) (gsum f l).
Proof. reflexivity. Qed.

Lemma gsum_app f l1 l2 :
  gsum f (l1 ++ l2) = gf256_add (gsum f l1) (gsum f l2).
Proof. unfold gsum. rewrite map_app. apply xor_list_app. Qed.

Lemma gsum_snoc f l j : gsum f (l ++ [j]) = gf256_add (gsum f l) (f j).
Proof. rewrite gsum_app, gsum_cons, gsum_nil, gf256_add_0_r. reflexivity. Qed.

Lemma gsum_ext f g l :
  (forall j, In j l -> f j = g j) -> gsum f l = gsum g l.
Proof. intro H. unfold gsum. f_equal. apply map_ext_in, H. Qed.

Lemma gsum_byte f l : (forall j, In j l -> is_byte (f j)) -> is_byte (gsum f l).
Proof.
  intro H. apply xor_list_byte. apply Forall_forall.
  intros x Hx. apply in_map_iff in Hx. destruct Hx as [j [<- Hj]]. auto.
Qed.

Lemma gsum_add f g l :
  gsum (fun j => gf256_add (f j) (g j)) l = gf256_add (gsum f l) (gsum g l).
Proof.
  induction l as [|j l IH].
  - reflexivity.
  - rewrite !gsum_cons, IH. unfold gf256_add. xor_bits.
Qed.

Lemma gsum_scale a f l :
  is_byte a -> (forall j, In j l -> is_byte (f j)) ->
  gsum (fun j => gf256_mul a (f j)) l = gf256_mul a (gsum f l).
Proof.
  intros Ha. induction l as [|j l IH]; intro Hf.
  - rewrite !gsum_nil, gf256_mul_0_r by exact Ha. reflexivity.
  - rewrite !gsum_cons, gf256_mul_add_distr_l, IH.
    + reflexivity.
    + intros j' Hj'. apply Hf. right; exact Hj'.
    + exact Ha.
    + apply Hf. left; reflexivity.
    + apply gsum_byte. intros j' Hj'. apply Hf. right; exact Hj'.
Qed.

Lemma gsum_perm f l1 l2 : Permutation l1 l2 -> gsum f l1 = gsum f l2.
Proof.
  induction 1.
  - reflexivity.
  - rewrite !gsum_cons. f_equal. assumption.
  - rewrite !gsum_cons. unfold gf256_add. xor_bits.
  - congruence.
Qed.

Lemma gsum_zero f l : (forall j, In j l -> f j = 0) -> gsum f l = 0.
Proof.
  induction l as [|j l IH]; intro H.
  - reflexivity.
  - rewrite gsum_cons, H, IH, gf256_add_0_l; auto.
    + intros j' Hj'. apply H. right; exact Hj'.
    + left; reflexivity.
Qed.

End FieldLemmas.

(* ================================================================= *)
(** ** The encoder *)

Definition valid_params (params : cm256_encoder_params) : Prop :=
  1 <= OriginalCount params /\ 1 <= RecoveryCount params /\
  OriginalCount params + RecoveryCount params <= 256 /\
  1 <= BlockBytes params.

(** Row [i] of the output region: [blockBytes] bytes at offset
    [i * blockBytes]. *)
Definition region_row (B : nat) (region : list Z) (i : nat) : list Z :=
  firstn B (skipn (i * B) region).

(** The element [a_{i,j}] of the specification: [(y_j + x_0) / (x_i + y_j)]
    with [x_0 = k], [x_i = k + i], [y_j = j]. *)
Definition cauchy_element {ctx : gf256_ctx} (k : Z) (i j : nat) : Z :=
  gf256_div (gf256_add (Z.of_nat j) k)
            (gf256_add (k + Z.of_nat i) (Z.of_nat j)).

(** The linear combination [sum_j a_{i,j} . original_j], byte by byte. *)
Definition recovery_block {ctx : gf256_ctx} (params : cm256_encoder_params)
    (originals : list (list Z)) (i : nat) : list Z :=
  map (fun p =>
         gsum (fun j => gf256_mul (cauchy_element (OriginalCount params) i j)
                          (nth p (original_at originals j) 0))
              (seq 0 (Z.to_nat (OriginalCount params))))
      (seq 0 (Z.to_nat (BlockBytes params))).

(** The XOR of a list of buffers, byte by byte. *)
Definition xor_blocks (B : nat) (bufs : list (list Z)) : list Z :=
  map (fun p => xor_list (map (fun b => nth p b 0) bufs)) (seq 0 B).

Lemma region_row_length B region i :
  (i * B + B <= length region)%nat -> length (region_row B region i) = B.
Proof.
  intro H. unfold region_row. rewrite length_firstn, length_skipn. lia.
Qed.

Lemma region_row_nth B region i p :
  (p < B)%nat -> nth p (region_row B region i) 0 = nth (i * B + p) region 0.
Proof.
  intro Hp. unfold region_row. rewrite nth_firstn.
  apply Nat.ltb_lt in Hp. rewrite Hp. apply nth_skipn.
Qed.

(** A loop that accumulates into the window [off, off + B) of a region. *)
Lemma fold_window_accumulate (F : list Z -> nat -> list Z) (off B : nat)
    (term : nat -> nat -> Z) :
  (forall region j, (off + B <= length region)%nat ->
     length (F region j) = length region /\
     (forall p, (p < B)%nat ->
        nth (off + p) (F region j) 0 =
        gf256_add (nth (off + p) region 0) (term j p)) /\
     (forall q, (q < off \/ off + B <= q)%nat ->
        nth q (F region j) 0 = nth q region 0)) ->
  forall l region, (off + B <= length region)%nat ->
    length (fold_left F l region) = length region /\
    (forall p, (p < B)%nat ->
       nth (off + p) (fold_left F l region) 0 =
       gf256_add (nth (off + p) region 0) (gsum (fun j => term j p) l)) /\
    (forall q, (q < off \/ off + B <= q)%nat ->
       nth q (fold_left F l region) 0 = nth q region 0).
Proof.
  intros HF l. induction l as [|j l IH]; intros region Hlen; simpl.
  - split; [reflexivity|]. split; [|reflexivity].
    intros p Hp. rewrite gsum_nil, gf256_add_0_r. reflexivity.
  - destruct (HF region j Hlen) as [L1 [W1 O1]].
    destruct (IH (F region j) ltac:(lia)) as [L2 [W2 O2]].
    split; [congruence|]. split.
    + intros p Hp. rewrite W2, W1, gsum_cons by exact Hp.
      symmetry. apply gf256_add_assoc.
    + intros q Hq. rewrite O2, O1 by exact Hq. reflexivity.
Qed.

Section Encoder.
Context {ctx : gf256_ctx}.
Variable params : cm256_encoder_params.
Variable originals : list (list Z).

Let k := Z.to_nat (OriginalCount params).
Let m := Z.to_nat (RecoveryCount params).
Let B := Z.to_nat (BlockBytes params).

(** The first row: an XOR of all originals into the window at offset 0. *)
Lemma encode_first_row region :
  (2 <= k)%nat -> (B <= length region)%nat ->
  let region1 :=
    fold_left (fun region j =>
        at_offset 0
          (fun dst => gf256_add_mem dst (original_at originals j)
                        (BlockBytes params)) region)
      (seq 2 (k - 2))
      (at_offset 0
         (fun dst => gf256_addset_mem dst (original_at originals 0)
                       (original_at originals 1) (BlockBytes params))
         region) in
  length region1 = length region /\
  (forall p, (p < B)%nat ->
     nth p region1 0 =
     gsum (fun j => nth p (original_at originals j) 0) (seq 0 k)) /\
  (forall q, (B <= q)%nat -> nth q region1 0 = nth q region 0).
Proof.
  intros Hk Hlen.
  set (region0 := at_offset 0 _ region).
  assert (L0 : length region0 = length region).
  { apply at_offset_mem_op_length. }
  pose proof (fold_window_accumulate
    (fun region j =>
       at_offset 0
         (fun dst => gf256_add_mem dst (original_at originals j)
                       (BlockBytes params)) region)
    0 B (fun j p => nth p (original_at originals j) 0)) as HW.
  cbv zeta.
  destruct (HW ltac:(
    intros r j Hr; unfold gf256_add_mem; fold B;
    split; [apply at_offset_mem_op_length|]; split;
    [ intros p Hp; rewrite at_offset_mem_op_in by lia;
      rewrite Nat.sub_0_r; reflexivity
    | intros q Hq; apply at_offset_mem_op_out; lia ])
    (seq 2 (k - 2)) region0 ltac:(simpl; lia)) as [L [W O]].
  split; [congruence|]. split.
  - intros p Hp. specialize (W p Hp). simpl in W. rewrite W.
    unfold region0, gf256_addset_mem. fold B.
    rewrite at_offset_mem_op_in by lia. rewrite Nat.sub_0_r.
    replace (seq 0 k) with (0 :: 1 :: seq 2 (k - 2))%nat.
    + rewrite !gsum_cons. rewrite gf256_add_assoc. reflexivity.
    + replace k with (S (S (k - 2))) at 2 by lia. reflexivity.
  - intros q Hq. rewrite O by lia. unfold region0, gf256_addset_mem. fold B.
    apply at_offset_mem_op_out; lia.
Qed.

(** One later row: [encode_row] fills the window at the next offset with
    the linear combination for [x_i = x_0 + i]. *)
Lemma encode_row_spec x_0 region off i :
  (1 <= k)%nat -> (off + B + B <= length region)%nat ->
  let st := encode_row params originals x_0 (region, off) i in
  snd st = (off + B)%nat /\
  length (fst st) = length region /\
  (forall p, (p < B)%nat ->
     nth (off + B + p) (fst st) 0 =
     gsum (fun j =>
             gf256_mul
               (GetMatrixElement (to_uint8 (x_0 + Z.of_nat i)) x_0
                  (to_uint8 (Z.of_nat j)))
               (nth p (original_at originals j) 0))
          (seq 0 k)) /\
  (forall q, (q < off + B \/ off + B + B <= q)%nat ->
     nth q (fst st) 0 = nth q region 0).
Proof.
  intros Hk Hlen. unfold encode_row. fold B. fold k. cbv zeta.
  set (x_i := to_uint8 (x_0 + Z.of_nat i)).
  set (region0 := at_offset (off + B) _ region).
  assert (L0 : length region0 = length region).
  { apply at_offset_mem_op_length. }
  pose proof (fold_window_accumulate
    (fun region j =>
       at_offset (off + B)
         (fun dst =>
            gf256_muladd_mem dst
              (GetMatrixElement x_i x_0 (to_uint8 (Z.of_nat j)))
              (original_at originals j) (BlockBytes params)) region)
    (off + B) B
    (fun j p => gf256_mul (GetMatrixElement x_i x_0 (to_uint8 (Z.of_nat j)))
                  (nth p (original_at originals j) 0))) as HW.
  destruct (HW ltac:(
    intros r j Hr; unfold gf256_muladd_mem; fold B;
    split; [apply at_offset_mem_op_length|]; split;
    [ intros p Hp; rewrite at_offset_mem_op_in by lia;
      replace (off + B + p - (off + B))%nat with p by lia; reflexivity
    | intros q Hq; apply at_offset_mem_op_out; lia ])
    (seq 1 (k - 1)) region0 ltac:(lia)) as [L [W O]].
  simpl fst; simpl snd.
  split; [reflexivity|]. split; [congruence|]. split.
  - intros p Hp. rewrite (W p Hp).
    unfold region0, gf256_mul_mem. fold B.
    rewrite at_offset_mem_op_in by lia.
    replace (off + B + p - (off + B))%nat with p by lia.
    replace (seq 0 k) with (0 :: seq 1 (k - 1))%nat.
    + rewrite gsum_cons. reflexivity.
    + replace k with (S (k - 1)) at 2 by lia. reflexivity.
  - intros q Hq. rewrite (O q Hq). unfold region0, gf256_mul_mem. fold B.
    apply at_offset_mem_op_out; lia.
Qed.

End Encoder.

Lemma map_nth_seq {A C : Type} (f : A -> C) (l : list A) (d : A) :
  map f l = map (fun j => f (nth j l d)) (seq 0 (length l)).
Proof.
  induction l as [|x l IH]; simpl.
  - reflexivity.
  - f_equal. rewrite IH, <- seq_shift, map_map. reflexivity.
Qed.

Lemma nth_map_seq (f : nat -> Z) (n p : nat) :
  (p < n)%nat -> nth p (map f (seq 0 n)) 0 = f p.
Proof.
  intro Hp. rewrite (nth_indep _ 0 (f 0%nat))
    by (rewrite length_map, length_seq; exact Hp).
  rewrite map_nth, seq_nth by exact Hp. reflexivity.
Qed.

Section EncoderRows.
Context {ctx : gf256_ctx}.
Variable params : cm256_encoder_params.
Variable originals : list (list Z).

Let k := Z.to_nat (OriginalCount params).
Let m := Z.to_nat (RecoveryCount params).
Let B := Z.to_nat (BlockBytes params).

Lemma encode_rows_spec x_0 region t :
  (1 <= k)%nat -> ((t + 1) * B <= length region)%nat ->
  let st := fold_left (encode_row params originals x_0) (seq 1 t)
              (region, 0%nat) in
  snd st = (t * B)%nat /\
  length (fst st) = length region /\
  (forall i p, (1 <= i <= t)%nat -> (p < B)%nat ->
     nth (i * B + p) (fst st) 0 =
     gsum (fun j =>
             gf256_mul
               (GetMatrixElement (to_uint8 (x_0 + Z.of_nat i)) x_0
                  (to_uint8 (Z.of_nat j)))
               (nth p (original_at originals j) 0))
          (seq 0 k)) /\
  (forall q, (q < B \/ (t + 1) * B <= q)%nat ->
     nth q (fst st) 0 = nth q region 0).
Proof.
  intros Hk. induction t as [|t IH]; intro Hlen; cbv zeta.
  - simpl. repeat split; try reflexivity. intros i p Hi; lia.
  - rewrite seq_S, fold_left_app. cbn [fold_left].
    change (1 + t)%nat with (S t).
    destruct IH as [S1 [L1 [W1 O1]]]; [lia|].
    destruct (fold_left (encode_row params originals x_0) (seq 1 t)
                (region, 0%nat)) as [r1 off1] eqn:E.
    simpl in S1, L1, W1, O1. subst off1.
    destruct (encode_row_spec params originals x_0 r1 (t * B) (S t) Hk)
      as [S2 [L2 [W2 O2]]]; [fold B; lia|].
    fold B in S2, W2, O2. fold k in W2.
    split; [rewrite S2; lia|]. split; [congruence|]. split.
    + intros i p Hi Hp.
      destruct (Nat.eq_dec i (S t)) as [->|Hne].
      * replace (S t * B + p)%nat with (t * B + B + p)%nat by lia.
        rewrite W2 by exact Hp. reflexivity.
      * rewrite O2 by nia. apply W1; [lia|exact Hp].
    + intros q Hq. rewrite O2 by nia. apply O1. nia.
Qed.

End EncoderRows.

(** [GetMatrixElement] at the encoder's field points is the
    specification's [a_{i,j}]. *)
Lemma encode_element_cauchy {ctx : gf256_ctx} (k : Z) (i j : nat) :
  0 <= k -> k + Z.of_nat i <= 255 -> Z.of_nat j <= 255 ->
  GetMatrixElement (to_uint8 (to_uint8 k + Z.of_nat i)) (to_uint8 k)
    (to_uint8 (Z.of_nat j)) = cauchy_element k i j.
Proof.
  intros Hk Hi Hj. unfold GetMatrixElement, cauchy_element.
  rewrite (to_uint8_small k) by (unfold is_byte; lia).
  rewrite !to_uint8_small by (unfold is_byte; lia). reflexivity.
Qed.

Lemma cauchy_element_row_0 {ctx : gf256_ctx} (k : Z) (j : nat) :
  is_byte k -> Z.of_nat j < k -> cauchy_element k 0 j = 1.
Proof.
  intros Hk Hj. unfold cauchy_element.
  rewrite Z.add_0_r, (gf256_add_comm k).
  assert (Hb : is_byte (Z.of_nat j)) by (unfold is_byte in *; lia).
  apply gf256_div_self; [auto with bytes|].
  apply gf256_add_neq_0. lia.
Qed.

(** The general path of the encoder, row by row. *)
Lemma encode_general {ctx : gf256_ctx}
    (params : cm256_encoder_params) (originals : list (list Z))
    (region : list Z) :
  valid_params params ->
  2 <= OriginalCount params ->
  length originals = Z.to_nat (OriginalCount params) ->
  Forall (fun o => length o = Z.to_nat (BlockBytes params) /\
                   Forall is_byte o) originals ->
  (Z.to_nat (RecoveryCount params) * Z.to_nat (BlockBytes params)
   <= length region)%nat ->
  exists out,
    cm256_encode params (Some originals) (Some region) = (0, Some out) /\
    length out = length region /\
    (forall i, (i < Z.to_nat (RecoveryCount params))%nat ->
       region_row (Z.to_nat (BlockBytes params)) out i =
       recovery_block params originals i) /\
    region_row (Z.to_nat (BlockBytes params)) out 0 =
    xor_blocks (Z.to_nat (BlockBytes params)) originals.
Proof.
  intros [Hk1 [Hm1 [Hkm HB1]]] Hk2 Hlen Horig Hreg.
  unfold cm256_encode.
  replace (OriginalCount params <=? 0) with false by (symmetry; apply Z.leb_gt; lia).
  replace (RecoveryCount params <=? 0) with false by (symmetry; apply Z.leb_gt; lia).
  replace (BlockBytes params <=? 0) with false by (symmetry; apply Z.leb_gt; lia).
  replace (to_int (OriginalCount params + RecoveryCount params) >? 256)
    with false
    by (symmetry; rewrite to_int_small
          by (unfold int_range, INT_MIN, INT_MAX; lia);
        rewrite Z.gtb_ltb; apply Z.ltb_ge; lia).
  replace (OriginalCount params =? 1) with false
    by (symmetry; apply Z.eqb_neq; lia).
  cbv [orb].
  set (k := Z.to_nat (OriginalCount params)) in *.
  set (m := Z.to_nat (RecoveryCount params)) in *.
  set (B := Z.to_nat (BlockBytes params)) in *.
  assert (HmB : (B <= length region)%nat) by nia.
  destruct (encode_first_row params originals region ltac:(fold k; lia)
              ltac:(fold B; lia)) as [L1 [W1 O1]].
  fold k B in L1, W1, O1. cbv zeta in L1, W1, O1.
  set (region1 := fold_left _ (seq 2 (k - 2)) _) in *.
  destruct (encode_rows_spec params originals
              (to_uint8 (OriginalCount params)) region1 (m - 1)
              ltac:(fold k; lia)) as [S2 [L2 [W2 O2]]].
  { fold B. rewrite L1. replace (m - 1 + 1)%nat with m by lia. exact Hreg. }
  fold k B m in S2, L2, W2, O2. cbv zeta in S2, L2, W2, O2.
  set (st := fold_left _ (seq 1 (m - 1)) _) in *.
  assert (Hrow0 : forall p, (p < B)%nat ->
            nth p (fst st) 0 =
            gsum (fun j => nth p (original_at originals j) 0) (seq 0 k)).
  { intros p Hp. rewrite O2 by lia. apply W1, Hp. }
  assert (Hbyte : forall j p, (j < k)%nat ->
            is_byte (nth p (original_at originals j) 0)).
  { intros j p Hj. unfold original_at.
    rewrite Forall_forall in Horig.
    destruct (Horig (nth j originals [])) as [_ Hb].
    - apply nth_In. lia.
    - destruct (Nat.lt_ge_cases p (length (nth j originals []))).
      + rewrite Forall_forall in Hb. apply Hb, nth_In. assumption.
      + rewrite nth_overflow by assumption. apply is_byte_0. }
  exists (fst st). split; [reflexivity|].
  split; [congruence|]. split.
  - intros i Hi. apply (list_eq_nth _ _ 0).
    + rewrite region_row_length by (rewrite L2, L1; nia).
      unfold recovery_block. rewrite length_map, length_seq. reflexivity.
    + intros p Hp.
      rewrite region_row_length in Hp by (rewrite L2, L1; nia).
      rewrite region_row_nth by exact Hp.
      unfold recovery_block. fold k B.
      rewrite nth_map_seq by exact Hp.
      destruct (Nat.eq_dec i 0) as [->|Hi0].
      * simpl (0 * B + p)%nat. rewrite Hrow0 by exact Hp.
        apply gsum_ext. intros j Hj. apply in_seq in Hj.
        rewrite cauchy_element_row_0, gf256_mul_1_l;
          [reflexivity|apply Hbyte; lia|unfold is_byte; lia|lia].
      * rewrite W2 by lia.
        apply gsum_ext. intros j Hj. apply in_seq in Hj.
        rewrite encode_element_cauchy by lia. reflexivity.
  - apply (list_eq_nth _ _ 0).
    + rewrite region_row_length by (rewrite L2, L1; nia).
      unfold xor_blocks. rewrite length_map, length_seq. reflexivity.
    + intros p Hp.
      rewrite region_row_length in Hp by (rewrite L2, L1; nia).
      rewrite region_row_nth by exact Hp. simpl (0 * B + p)%nat.
      rewrite Hrow0 by exact Hp.
      unfold xor_blocks.
      rewrite nth_map_seq by exact Hp.
      unfold gsum, original_at. f_equal.
      rewrite (map_nth_seq _ originals []), Hlen. reflexivity.
Qed.

(** C2 — encoder postcondition.  For valid parameters with [k >= 2], the
    call succeeds and row [i] of the output region is the GF(256) linear
    combination [sum_j a_{i,j} . original_j], byte by byte, with
    [a_{i,j} = (y_j + x_0) / (x_i + y_j)], [x_0 = k], [x_i = k + i],
    [y_j = j]; the first row is the XOR of all [k] originals. *)
Theorem encode_postcondition {ctx : gf256_ctx}
    (params : cm256_encoder_params) (originals : list (list Z))
    (region : list Z) :
  valid_params params ->
  2 <= OriginalCount params ->
  length originals = Z.to_nat (OriginalCount params) ->
  Forall (fun o => length o = Z.to_nat (BlockBytes params) /\
                   Forall is_byte o) originals ->
  (Z.to_nat (RecoveryCount params) * Z.to_nat (BlockBytes params)
   <= length region)%nat ->
  exists out,
    cm256_encode params (Some originals) (Some region) = (0, Some out) /\
    length out = length region /\
    (forall i, (i < Z.to_nat (RecoveryCount params))%nat ->
       region_row (Z.to_nat (BlockBytes params)) out i =
       recovery_block params originals i) /\
    region_row (Z.to_nat (BlockBytes params)) out 0 =
    xor_blocks (Z.to_nat (BlockBytes params)) originals.
Proof. apply encode_general. Qed.

(* ================================================================= *)
(** ** Decoder set-up *)

(** The caller's obligation on the input of [cm256_decode]: exactly [k]
    blocks, with distinct indices in [0, k + m). *)
Definition valid_blocks (params : cm256_encoder_params)
    (blocks : list cm256_block) : Prop :=
  length blocks = Z.to_nat (OriginalCount params) /\
  NoDup (map Index blocks) /\
  Forall (fun b => 0 <= Index b < OriginalCount params + RecoveryCount params)
         blocks.

(** The positions of the input blocks that carry an original row, and
    of those that carry a recovery row, in input order. *)
Definition original_positions (params : cm256_encoder_params)
    (blocks : list cm256_block) : list nat :=
  filter (fun p => Index (block_at blocks p) <? OriginalCount params)
         (seq 0 (Z.to_nat (OriginalCount params))).

Definition recovery_positions (params : cm256_encoder_params)
    (blocks : list cm256_block) : list nat :=
  filter (fun p => negb (Index (block_at blocks p) <? OriginalCount params))
         (seq 0 (Z.to_nat (OriginalCount params))).

(** The original rows that no input block carries, ascending. *)
Definition erased_rows (params : cm256_encoder_params)
    (blocks : list cm256_block) : list nat :=
  filter (fun j => negb (existsb (fun b => Index b =? Z.of_nat j) blocks))
         (seq 0 (Z.to_nat (OriginalCount params))).

Section InitializeLoops.
Variable params : cm256_encoder_params.
Variable blocks : list cm256_block.

(** Does one of the blocks at the positions [l] carry original row [j]? *)
Definition marks (l : list nat) (j : nat) : bool :=
  existsb (fun p => (Index (block_at blocks p) <? OriginalCount params)
                    && (Z.to_nat (Index (block_at blocks p)) =? j)%nat) l.

Lemma Initialize_zero_loop (n : nat) (e : list Z) :
  (n <= length e)%nat ->
  let e' := fold_left (fun e ii => set_nth ii 0 e) (seq 0 n) e in
  length e' = length e /\
  forall j, nth j e' 0 = if (j <? n)%nat then 0 else nth j e 0.
Proof.
  induction n as [|n IH]; intro Hn; cbv zeta.
  - simpl. split; reflexivity.
  - rewrite seq_S, fold_left_app. cbn [fold_left]. simpl (0 + n)%nat.
    destruct IH as [L N]; [lia|]. split.
    + rewrite set_nth_length. exact L.
    + intro j.
      destruct (Nat.eq_dec j n) as [->|Hne].
      * rewrite nth_set_nth_eq by (rewrite L; lia).
        replace (n <? S n)%nat with true by (symmetry; apply Nat.ltb_lt; lia).
        reflexivity.
      * rewrite nth_set_nth_neq by exact Hne. rewrite N.
        destruct (Nat.ltb_spec j n), (Nat.ltb_spec j (S n)); try lia;
          reflexivity.
Qed.

Lemma Initialize_block_loop (l : list nat) (d : Decoder.t) :
  let d' := fold_left (Decoder.Initialize_block params blocks) l d in
  Decoder.Params d' = Decoder.Params d /\
  Decoder.Original d' =
    Decoder.Original d ++
    filter (fun p => Index (block_at blocks p) <? OriginalCount params) l /\
  Decoder.Recovery d' =
    Decoder.Recovery d ++
    filter (fun p => negb (Index (block_at blocks p) <? OriginalCount params))
           l /\
  length (Decoder.ErasuresIndices d') = length (Decoder.ErasuresIndices d) /\
  forall j, (j < length (Decoder.ErasuresIndices d))%nat ->
    nth j (Decoder.ErasuresIndices d') 0 =
    if marks l j then 1 else nth j (Decoder.ErasuresIndices d) 0.
Proof.
  revert d. induction l as [|p l IH]; intro d; cbv zeta.
  - simpl. rewrite !app_nil_r. repeat split; reflexivity.
  - cbn [fold_left filter marks existsb].
    assert (Hstep : Decoder.Initialize_block params blocks d p =
      if Index (block_at blocks p) <? OriginalCount params then
        {| Decoder.Params := Decoder.Params d;
           Decoder.Recovery := Decoder.Recovery d;
           Decoder.Original := Decoder.Original d ++ [p];
           Decoder.ErasuresIndices :=
             set_nth (Z.to_nat (Index (block_at blocks p))) 1
               (Decoder.ErasuresIndices d) |}
      else
        {| Decoder.Params := Decoder.Params d;
           Decoder.Recovery := Decoder.Recovery d ++ [p];
           Decoder.Original := Decoder.Original d;
           Decoder.ErasuresIndices := Decoder.ErasuresIndices d |})
      by reflexivity.
    rewrite Hstep; clear Hstep.
    destruct (Index (block_at blocks p) <? OriginalCount params) eqn:E;
      match goal with
      | |- context [fold_left _ l ?d0] =>
        destruct (IH d0) as [P [O [R [L N]]]]
      end;
      cbn [Decoder.Params Decoder.Original Decoder.Recovery
           Decoder.ErasuresIndices negb andb] in *.
    + split; [exact P|]. split; [rewrite O, <- app_assoc; reflexivity|].
      split; [exact R|].
      rewrite set_nth_length in L, N.
      split; [exact L|]. intros j Hj. rewrite (N j Hj).
      fold (marks l j).
      destruct (marks l j); [rewrite orb_true_r; reflexivity|].
      rewrite orb_false_r.
      destruct (Nat.eqb_spec (Z.to_nat (Index (block_at blocks p))) j)
        as [->|Hne].
      * rewrite nth_set_nth_eq by exact Hj. reflexivity.
      * rewrite nth_set_nth_neq by congruence. reflexivity.
    + split; [exact P|]. split; [exact O|].
      split; [rewrite R, <- app_assoc; reflexivity|].
      split; [exact L|]. intros j Hj. rewrite (N j Hj). reflexivity.
Qed.

(** The scan for erasures writes the positions of the zero flags, in
    ascending order, from slot [indexCount] on.  The first zero found is
    always stored; each later one is stored while the count is below
    [RecoveryCount]. *)
Lemma Initialize_erasures_scan (fuel : nat) :
  forall (ii c : nat) (n : Z) (E : list Z),
  (c <= ii)%nat -> (ii + fuel <= length E)%nat ->
  let R := Decoder.Initialize_erasures fuel ii c n E in
  let Zs := filter (fun t => nth t E 0 =? 0) (seq ii fuel) in
  length R = length E /\
  (forall t, (t < c)%nat -> nth t R 0 = nth t E 0) /\
  (forall t, (t < length Zs)%nat -> (t = 0%nat \/ Z.of_nat (c + t) < n) ->
     nth (c + t) R 0 = to_uint8 (Z.of_nat (nth t Zs 0%nat))).
Proof.
  induction fuel as [|fuel IH]; intros ii c n E Hc Hlen; cbv zeta.
  - simpl. split; [reflexivity|]. split; [reflexivity|].
    intros t Ht. lia.
  - cbn [Decoder.Initialize_erasures seq filter].
    destruct (nth ii E 0 =? 0) eqn:Ez.
    + set (E' := set_nth c (to_uint8 (Z.of_nat ii)) E).
      assert (LE' : length E' = length E)
        by (unfold E'; apply set_nth_length).
      assert (Hsame : filter (fun t => nth t E' 0 =? 0) (seq (S ii) fuel) =
                      filter (fun t => nth t E 0 =? 0) (seq (S ii) fuel)).
      { apply filter_ext_in. intros t Ht. apply in_seq in Ht.
        unfold E'. rewrite nth_set_nth_neq by lia. reflexivity. }
      destruct (Z.of_nat (S c) >=? n) eqn:Eb.
      * split; [exact LE'|]. split.
        -- intros t Ht. unfold E'.
           apply nth_set_nth_neq. lia.
        -- intros t Ht Hc'. apply Z.geb_le in Eb.
           assert (t = 0%nat) by lia. subst t.
           rewrite Nat.add_0_r. unfold E'.
           rewrite nth_set_nth_eq by lia. reflexivity.
      * destruct (IH (S ii) (S c) n E' ltac:(lia) ltac:(lia)) as [L [P W]].
        rewrite Hsame in W.
        split; [congruence|]. split.
        -- intros t Ht. rewrite P by lia. unfold E'.
           apply nth_set_nth_neq. lia.
        -- intros t Ht Hc'. destruct t as [|t].
           ++ rewrite Nat.add_0_r, P by lia. unfold E'.
              rewrite nth_set_nth_eq by lia. reflexivity.
           ++ replace (c + S t)%nat with (S c + t)%nat by lia.
              cbn [length] in Ht. cbn [nth].
              apply W; [lia|]. right. lia.
    + apply (IH (S ii) c n E); lia.
Qed.

End InitializeLoops.

Section InitializeSpec.
Variable uninit : list Z.
Variable params : cm256_encoder_params.
Variable blocks : list cm256_block.

Let k := Z.to_nat (OriginalCount params).

Lemma Initialize_partition :
  let d := Decoder.Initialize uninit params blocks in
  Decoder.Params d = params /\
  Decoder.Original d = original_positions params blocks /\
  Decoder.Recovery d = recovery_positions params blocks.
Proof.
  unfold Decoder.Initialize. cbv zeta.
  cbn [Decoder.Params Decoder.Original Decoder.Recovery].
  match goal with
  | |- context [fold_left (Decoder.Initialize_block _ _) ?l ?d0] =>
    destruct (Initialize_block_loop params blocks l d0) as [P [O [R _]]]
  end.
  rewrite P, O, R. repeat split; reflexivity.
Qed.

Lemma positions_length :
  (length (original_positions params blocks) +
   length (recovery_positions params blocks) = k)%nat.
Proof.
  unfold original_positions, recovery_positions.
  rewrite filter_length, length_seq. reflexivity.
Qed.

Hypothesis Hparams : valid_params params.
Hypothesis Hblocks : valid_blocks params blocks.

Lemma block_at_In p : (p < k)%nat -> In (block_at blocks p) blocks.
Proof.
  intro Hp. destruct Hblocks as [Hlen _]. apply nth_In. fold k in Hlen. lia.
Qed.

Lemma block_index_range p :
  (p < k)%nat ->
  0 <= Index (block_at blocks p)
    < OriginalCount params + RecoveryCount params.
Proof.
  intro Hp. destruct Hblocks as [_ [_ Hall]].
  rewrite Forall_forall in Hall. apply Hall, block_at_In, Hp.
Qed.

Lemma block_index_inj p q :
  (p < k)%nat -> (q < k)%nat ->
  Index (block_at blocks p) = Index (block_at blocks q) -> p = q.
Proof.
  intros Hp Hq E. destruct Hblocks as [Hlen [Hnd _]]. fold k in Hlen.
  rewrite (NoDup_nth _ 0) in Hnd. apply Hnd.
  - rewrite length_map; lia.
  - rewrite length_map; lia.
  - unfold block_at in E.
    change (nth p (map Index blocks) (Index null_block) =
            nth q (map Index blocks) (Index null_block)).
    rewrite !map_nth. exact E.
Qed.

(** The flag of an original row is raised exactly when a block carries
    the row. *)
Lemma marks_present j :
  (j < k)%nat ->
  marks params blocks (seq 0 k) j =
  existsb (fun b => Index b =? Z.of_nat j) blocks.
Proof.
  intro Hj. apply eq_true_iff_eq. unfold marks.
  rewrite !existsb_exists. split.
  - intros [p [Hp Hm]]. apply in_seq in Hp.
    apply andb_true_iff in Hm. destruct Hm as [Hlt He].
    apply Nat.eqb_eq in He.
    exists (block_at blocks p). split; [apply block_at_In; lia|].
    apply Z.eqb_eq. pose proof (block_index_range p ltac:(lia)). lia.
  - intros [b [Hb He]]. apply Z.eqb_eq in He.
    destruct (In_nth _ _ null_block Hb) as [p [Hp Ep]].
    destruct Hblocks as [Hlen _]. fold k in Hlen.
    exists p. split; [apply in_seq; lia|].
    unfold block_at. rewrite Ep, He.
    apply andb_true_iff. split.
    + apply Z.ltb_lt. lia.
    + apply Nat.eqb_eq. lia.
Qed.

Lemma erased_rows_count :
  length (erased_rows params blocks) =
  length (recovery_positions params blocks).
Proof.
  pose proof positions_length as Hpos.
  pose proof (filter_length
    (fun j => existsb (fun b => Index b =? Z.of_nat j) blocks) (seq 0 k))
    as Hfl.
  rewrite length_seq in Hfl.
  fold k in Hfl. unfold erased_rows. fold k.
  enough (Hperm : Permutation
            (map (fun p => Z.to_nat (Index (block_at blocks p)))
                 (original_positions params blocks))
            (filter (fun j => existsb (fun b => Index b =? Z.of_nat j) blocks)
                    (seq 0 k))).
  { apply Permutation_length in Hperm. rewrite length_map in Hperm. lia. }
  apply NoDup_Permutation.
  - apply Injective_map_NoDup_in.
    + intros p q Hp Hq E.
      apply filter_In in Hp, Hq. destruct Hp as [Hp _], Hq as [Hq _].
      apply in_seq in Hp, Hq. fold k in Hp, Hq.
      apply block_index_inj; try lia.
      pose proof (block_index_range p ltac:(lia)).
      pose proof (block_index_range q ltac:(lia)). lia.
    + apply NoDup_filter, seq_NoDup.
  - apply NoDup_filter, seq_NoDup.
  - intro j. rewrite in_map_iff, filter_In, in_seq, existsb_exists. split.
    + intros [p [E Hp]]. apply filter_In in Hp. destruct Hp as [Hp Hlt].
      apply in_seq in Hp. fold k in Hp. apply Z.ltb_lt in Hlt.
      pose proof (block_index_range p ltac:(lia)).
      split; [unfold k; lia|].
      exists (block_at blocks p). split; [apply block_at_In; lia|].
      apply Z.eqb_eq. lia.
    + intros [Hj [b [Hb He]]]. apply Z.eqb_eq in He.
      destruct (In_nth _ _ null_block Hb) as [p [Hp Ep]].
      destruct Hblocks as [Hlen _]. fold k in Hlen.
      exists p. split; [unfold block_at; rewrite Ep, He; lia|].
      apply filter_In. split; [apply in_seq; fold k; lia|].
      unfold block_at. rewrite Ep, He. apply Z.ltb_lt. unfold k in Hj. lia.
Qed.

Hypothesis Huninit : length uninit = 256%nat.

(** After [Initialize], slot [t] of [ErasuresIndices], for [t] below
    [RecoveryCount], is the [t]-th erased row. *)
Lemma Initialize_erasures_spec t :
  (t < length (recovery_positions params blocks))%nat ->
  nth t (Decoder.ErasuresIndices (Decoder.Initialize uninit params blocks)) 0 =
  Z.of_nat (nth t (erased_rows params blocks) 0%nat).
Proof.
  intro Ht.
  destruct Hparams as [Hk1 [Hm1 [Hkm HB1]]].
  assert (Hk : (k <= 255)%nat) by (unfold k; lia).
  unfold Decoder.Initialize. cbv zeta. cbn [Decoder.ErasuresIndices].
  fold k.
  destruct (Initialize_zero_loop k uninit ltac:(lia)) as [L0 N0].
  cbv zeta in L0, N0.
  set (E0 := fold_left (fun e ii => set_nth ii 0 e) (seq 0 k) uninit) in *.
  match goal with
  | |- context [fold_left (Decoder.Initialize_block _ _) ?l ?d0] =>
    destruct (Initialize_block_loop params blocks l d0) as [_ [_ [R [L1 N1]]]];
    set (d1 := fold_left (Decoder.Initialize_block params blocks) l d0) in *
  end.
  cbn [Decoder.Recovery Decoder.ErasuresIndices app] in R, L1, N1.
  unfold Decoder.RecoveryCount. rewrite R.
  fold (recovery_positions params blocks).
  set (n := length (recovery_positions params blocks)) in *.
  set (E1 := Decoder.ErasuresIndices d1) in *.
  destruct (Initialize_erasures_scan 256 0 0 (Z.of_nat n) E1 ltac:(lia)
              ltac:(rewrite L1, L0, Huninit; lia)) as [_ [_ W]].
  cbv zeta in W.
  assert (Hz : filter (fun t => nth t E1 0 =? 0) (seq 0 256) =
               erased_rows params blocks ++
               filter (fun t => nth t E1 0 =? 0) (seq k (256 - k))).
  { replace 256%nat with (k + (256 - k))%nat at 1 by lia.
    rewrite seq_app, filter_app. f_equal.
    unfold erased_rows. fold k. apply filter_ext_in.
    intros j Hj. apply in_seq in Hj.
    rewrite N1 by (rewrite L0, Huninit; lia).
    rewrite marks_present by lia.
    destruct (existsb _ blocks); [reflexivity|].
    rewrite N0. replace (j <? k)%nat with true
      by (symmetry; apply Nat.ltb_lt; lia).
    reflexivity. }
  rewrite Hz in W.
  pose proof erased_rows_count as Hcount. fold n in Hcount.
  specialize (W t ltac:(rewrite length_app; lia) ltac:(right; lia)).
  simpl (0 + t)%nat in W.
  change (nth t (Decoder.Initialize_erasures 256 0 0 (Z.of_nat n) E1) 0 =
          Z.of_nat (nth t (erased_rows params blocks) 0%nat)).
  rewrite W.
  rewrite app_nth1 by lia.
  apply to_uint8_small.
  assert (Hin : In (nth t (erased_rows params blocks) 0%nat)
                   (erased_rows params blocks)) by (apply nth_In; lia).
  unfold erased_rows in Hin at 2. apply filter_In in Hin.
  destruct Hin as [Hin _]. apply in_seq in Hin. fold k in Hin.
  unfold is_byte. lia.
Qed.

End InitializeSpec.

Lemma Initialize_erasures_length uninit params blocks :
  valid_params params -> length uninit = 256%nat ->
  length (Decoder.ErasuresIndices (Decoder.Initialize uninit params blocks)) =
  256%nat.
Proof.
  intros [Hk1 [Hm1 [Hkm HB1]]] Hu.
  unfold Decoder.Initialize. cbv zeta. cbn [Decoder.ErasuresIndices].
  destruct (Initialize_zero_loop (Z.to_nat (OriginalCount params)) uninit
              ltac:(lia)) as [L0 _].
  cbv zeta in L0.
  match goal with
  | |- context [fold_left (Decoder.Initialize_block _ _) ?l ?d0] =>
    destruct (Initialize_block_loop params blocks l d0) as [_ [_ [_ [L1 _]]]];
    set (d1 := fold_left (Decoder.Initialize_block params blocks) l d0) in *
  end.
  cbn [Decoder.ErasuresIndices] in L1.
  destruct (Initialize_erasures_scan 256 0 0 (Decoder.RecoveryCount d1)
              (Decoder.ErasuresIndices d1) ltac:(lia)
              ltac:(rewrite L1, L0, Hu; lia)) as [L _].
  cbv zeta in L. rewrite L, L1, L0. exact Hu.
Qed.

Lemma filter_seq_sorted (f : nat -> bool) (a n : nat) :
  StronglySorted lt (filter f (seq a n)).
Proof.
  revert a; induction n as [|n IH]; intro a; simpl.
  - constructor.
  - destruct (f a).
    + constructor; [apply IH|].
      apply Forall_forall. intros x Hx. apply filter_In in Hx.
      destruct Hx as [Hx _]. apply in_seq in Hx. lia.
    + apply IH.
Qed.

Lemma sorted_map_of_nat (l : list nat) :
  StronglySorted lt l -> StronglySorted Z.lt (map Z.of_nat l).
Proof.
  induction 1 as [|a l Hs IH Ha]; simpl; constructor.
  - exact IH.
  - apply Forall_forall. intros z Hz. apply in_map_iff in Hz.
    destruct Hz as [x [<- Hx]]. rewrite Forall_forall in Ha.
    specialize (Ha x Hx). lia.
Qed.

Lemma erased_rows_In params blocks j :
  In j (erased_rows params blocks) <->
  (j < Z.to_nat (OriginalCount params))%nat /\
  ~ In (Z.of_nat j) (map Index blocks).
Proof.
  unfold erased_rows. rewrite filter_In, in_seq, negb_true_iff.
  rewrite <- not_true_iff_false, existsb_exists, in_map_iff.
  split; intros [H1 H2]; (split; [lia|]); intros [b Hb]; apply H2;
    exists b.
  - destruct Hb as [E Hb]. split; [exact Hb|]. apply Z.eqb_eq, E.
  - destruct Hb as [Hb E]. split; [apply Z.eqb_eq, E|exact Hb].
Qed.

(** The list that [Initialize] leaves in the first [RecoveryCount] slots
    of [ErasuresIndices]. *)
Lemma Initialize_erasures_firstn uninit params blocks :
  valid_params params -> valid_blocks params blocks ->
  length uninit = 256%nat ->
  let d := Decoder.Initialize uninit params blocks in
  firstn (length (Decoder.Recovery d)) (Decoder.ErasuresIndices d) =
  map Z.of_nat (erased_rows params blocks).
Proof.
  intros Hp Hb Hu d.
  destruct (Initialize_partition uninit params blocks) as [_ [_ R]].
  fold d in R.
  pose proof (Initialize_erasures_length uninit params blocks Hp Hu) as L.
  fold d in L.
  pose proof (erased_rows_count params blocks Hb) as Hc.
  pose proof (positions_length params blocks) as Hpos.
  assert (Hn : (length (Decoder.Recovery d) <= 256)%nat).
  { rewrite R. destruct Hp as [? [? [? ?]]]. lia. }
  apply (list_eq_nth _ _ 0).
  - rewrite length_firstn, length_map, L, Hc. rewrite R in Hn |- *. lia.
  - intros t Ht. rewrite length_firstn, L in Ht.
    rewrite nth_firstn.
    replace (t <? length (Decoder.Recovery d))%nat with true
      by (symmetry; apply Nat.ltb_lt; lia).
    unfold d. rewrite Initialize_erasures_spec; try assumption.
    + change 0 with (Z.of_nat 0). rewrite map_nth. reflexivity.
    + rewrite <- R. fold d. lia.
Qed.

(** C9 — decoder set-up.  For [k] blocks with distinct indices in
    [0, k + m), [Decoder::Initialize] splits the block positions into the
    originals (index < k) and the recoveries (index >= k), each in input
    order, their counts add up to [k], and the first [RecoveryCount]
    slots of [ErasuresIndices] list exactly the original rows that no
    input block carries, in strictly ascending order. *)
Theorem Initialize_postconditions (uninit : list Z)
    (params : cm256_encoder_params) (blocks : list cm256_block) :
  valid_params params ->
  valid_blocks params blocks ->
  length uninit = 256%nat ->
  let d := Decoder.Initialize uninit params blocks in
  let k := Z.to_nat (OriginalCount params) in
  let erasures :=
    firstn (length (Decoder.Recovery d)) (Decoder.ErasuresIndices d) in
  Decoder.Original d =
    filter (fun p => Index (block_at blocks p) <? OriginalCount params)
           (seq 0 k) /\
  Decoder.Recovery d =
    filter (fun p => negb (Index (block_at blocks p) <? OriginalCount params))
           (seq 0 k) /\
  Decoder.OriginalCount d + Decoder.RecoveryCount d = OriginalCount params /\
  length erasures = length (Decoder.Recovery d) /\
  StronglySorted Z.lt erasures /\
  (forall z, In z erasures <->
     0 <= z < OriginalCount params /\ ~ In z (map Index blocks)).
Proof.
  intros Hp Hb Hu d k erasures.
  destruct (Initialize_partition uninit params blocks) as [_ [O R]].
  fold d in O, R.
  pose proof (Initialize_erasures_firstn uninit params blocks Hp Hb Hu) as HE.
  cbv zeta in HE. fold d in HE. fold erasures in HE.
  pose proof (erased_rows_count params blocks Hb) as Hc.
  pose proof (positions_length params blocks) as Hpos.
  split; [exact O|]. split; [exact R|]. split.
  { unfold Decoder.OriginalCount, Decoder.RecoveryCount. rewrite O, R.
    destruct Hp as [? _]. lia. }
  split; [rewrite HE, length_map, Hc, R; reflexivity|].
  split.
  { rewrite HE. apply sorted_map_of_nat.
    unfold erased_rows. apply filter_seq_sorted. }
  intro z. rewrite HE, in_map_iff. split.
  - intros [j [<- Hj]]. apply erased_rows_In in Hj.
    destruct Hj as [Hj1 Hj2]. split; [lia|exact Hj2].
  - intros [Hz Hn]. exists (Z.to_nat z).
    split; [lia|]. apply erased_rows_In.
    rewrite Z2Nat.id by lia. split; [lia|exact Hn].
Qed.

(* ================================================================= *)
(** ** Entry points under valid parameters *)

Lemma valid_params_guards params :
  valid_params params ->
  ((OriginalCount params <=? 0) || (RecoveryCount params <=? 0)
   || (BlockBytes params <=? 0)) = false /\
  (to_int (OriginalCount params + RecoveryCount params) >? 256) = false.
Proof.
  intros [Hk [Hm [Hkm HB]]]. split.
  - rewrite !orb_false_iff. repeat split; apply Z.leb_gt; lia.
  - rewrite to_int_small by (unfold int_range, INT_MIN, INT_MAX; lia).
    rewrite Z.gtb_ltb. apply Z.ltb_ge. lia.
Qed.

Lemma cm256_decode_valid {ctx : gf256_ctx} uninit params blocks :
  valid_params params ->
  cm256_decode uninit params blocks =
  if OriginalCount params =? 1
  then (0, update_nth 0 (store_Index 0) blocks)
  else
    let state := Decoder.Initialize uninit params blocks in
    if Decoder.RecoveryCount state <=? 0 then (0, blocks)
    else if RecoveryCount params =? 1
    then (0, Decoder.DecodeM1 state blocks)
    else (0, Decoder.Decode state blocks).
Proof.
  intro H. destruct (valid_params_guards params H) as [G1 G2].
  unfold cm256_decode. rewrite G1, G2. reflexivity.
Qed.

(* ================================================================= *)
(** ** C6: the matrix element *)

Lemma GetMatrixElement_byte {ctx : gf256_ctx} (x_i x_0 y_j : Z) :
  is_byte x_i -> is_byte x_0 -> is_byte y_j -> x_i <> y_j ->
  is_byte (GetMatrixElement x_i x_0 y_j).
Proof.
  intros Hi H0 Hj Hn. unfold GetMatrixElement.
  apply gf256_div_byte; auto with bytes. apply gf256_add_neq_0, Hn.
Qed.

Lemma GetMatrixElement_first_row {ctx : gf256_ctx} (x_0 y_j : Z) :
  is_byte x_0 -> is_byte y_j -> x_0 <> y_j ->
  GetMatrixElement x_0 x_0 y_j = 1.
Proof.
  intros H0 Hj Hn. unfold GetMatrixElement.
  rewrite (gf256_add_comm y_j x_0).
  apply gf256_div_self; auto with bytes. apply gf256_add_neq_0, Hn.
Qed.

(** C6 — matrix element.  For bytes with [x_i + y_j <> 0],
    [GetMatrixElement x_i x_0 y_j] is [div (add y_j x_0) (add x_i y_j)],
    that is the byte [q] with [q . (x_i + y_j) = y_j + x_0]; for
    [x_i = x_0] it is 1.  (The function is a Rocq function: it has no
    effect besides its result.) *)
Theorem GetMatrixElement_spec {ctx : gf256_ctx} (x_i x_0 y_j : Z) :
  is_byte x_i -> is_byte x_0 -> is_byte y_j ->
  gf256_add x_i y_j <> 0 ->
  GetMatrixElement x_i x_0 y_j =
    gf256_div (gf256_add y_j x_0) (gf256_add x_i y_j) /\
  is_byte (GetMatrixElement x_i x_0 y_j) /\
  gf256_mul (GetMatrixElement x_i x_0 y_j) (gf256_add x_i y_j) =
    gf256_add y_j x_0 /\
  (x_i = x_0 -> GetMatrixElement x_i x_0 y_j = 1).
Proof.
  intros Hi H0 Hj Hn. unfold GetMatrixElement.
  split; [reflexivity|]. split; [|split].
  - apply gf256_div_byte; auto with bytes.
  - apply gf256_div_mul; auto with bytes.
  - intros ->. rewrite (gf256_add_comm y_j x_0).
    apply gf256_div_self; auto with bytes.
Qed.

(* ================================================================= *)
(** ** C4: parameter rejection *)

(** C4, as stated, fails: with [k = 0] and [m = 257] the sum exceeds 256,
    yet both entry points answer -1, not -2, because the sign test comes
    first; and with a null pointer and [k = 0] the encoder answers -1,
    not -3. *)
Lemma parameter_rejection_counterexample :
  ~ (forall (ctx : gf256_ctx) params originals region uninit blocks,
       (OriginalCount params <= 0 \/ RecoveryCount params <= 0 \/
        BlockBytes params <= 0 ->
        fst (cm256_encode params originals region) = -1 /\
        fst (cm256_decode uninit params blocks) = -1) /\
       (OriginalCount params + RecoveryCount params > 256 ->
        fst (cm256_encode params originals region) = -2 /\
        fst (cm256_decode uninit params blocks) = -2) /\
       (originals = None \/ region = None ->
        fst (cm256_encode params originals region) = -3)).
Proof.
  intro H.
  destruct (H GF256Ctx
              {| OriginalCount := 0; RecoveryCount := 257; BlockBytes := 1 |}
              None None [] []) as [_ [H2 _]].
  destruct H2 as [E _]; [simpl; lia|].
  discriminate E.
Qed.

(** C4 (amended) — parameter rejection.  Both entry points return -1 when
    one of [k], [m], [blockBytes] is not positive; otherwise they return
    -2 when [k + m > 256] and the sum fits an [int]; otherwise
    [cm256_encode] returns -3 when the originals or the output region is
    null.  Whenever the return value is not 0 the output region and the
    blocks are as they were.  (A sum [k + m] beyond [INT_MAX] overflows
    the [int] addition of the range check; nothing is stated for it.) *)
Theorem parameter_rejection {ctx : gf256_ctx}
    (params : cm256_encoder_params) (originals : option (list (list Z)))
    (region : option (list Z)) (uninit : list Z)
    (blocks : list cm256_block) :
  (OriginalCount params <= 0 \/ RecoveryCount params <= 0 \/
   BlockBytes params <= 0 ->
   cm256_encode params originals region = (-1, region) /\
   cm256_decode uninit params blocks = (-1, blocks)) /\
  (0 < OriginalCount params -> 0 < RecoveryCount params ->
   0 < BlockBytes params ->
   256 < OriginalCount params + RecoveryCount params <= INT_MAX ->
   cm256_encode params originals region = (-2, region) /\
   cm256_decode uninit params blocks = (-2, blocks)) /\
  (0 < OriginalCount params -> 0 < RecoveryCount params ->
   0 < BlockBytes params ->
   OriginalCount params + RecoveryCount params <= 256 ->
   originals = None \/ region = None ->
   cm256_encode params originals region = (-3, region)) /\
  (fst (cm256_encode params originals region) <> 0 ->
   snd (cm256_encode params originals region) = region) /\
  (fst (cm256_decode uninit params blocks) <> 0 ->
   snd (cm256_decode uninit params blocks) = blocks).
Proof.
  unfold cm256_encode, cm256_decode.
  destruct (Z.leb_spec (OriginalCount params) 0) as [Hk|Hk];
  destruct (Z.leb_spec (RecoveryCount params) 0) as [Hm|Hm];
  destruct (Z.leb_spec (BlockBytes params) 0) as [HB|HB];
  cbn [orb];
  try (repeat split; intros; try reflexivity; lia).
  assert (Hsum : OriginalCount params + RecoveryCount params <= INT_MAX ->
            to_int (OriginalCount params + RecoveryCount params) =
            OriginalCount params + RecoveryCount params).
  { intro Hle. apply to_int_small.
    unfold int_range, INT_MIN, INT_MAX in *. lia. }
  rewrite Z.gtb_ltb.
  destruct (Z.ltb_spec 256
              (to_int (OriginalCount params + RecoveryCount params)))
    as [Hkm|Hkm].
  - split; [intros; lia|]. split; [intros; split; reflexivity|].
    split; [|split; intros; reflexivity].
    intros _ _ _ Hle. rewrite Hsum in Hkm by (unfold INT_MAX; lia). lia.
  - split; [intros; lia|]. split.
    { intros _ _ _ [Hgt Hle]. rewrite Hsum in Hkm by exact Hle. lia. }
    split.
    + intros _ _ _ _ [-> | ->]; [reflexivity|].
      destruct originals; reflexivity.
    + split.
      * destruct originals as [o|], region as [r|]; try reflexivity.
        destruct (OriginalCount params =? 1); cbn [fst];
          intro H; exfalso; apply H; reflexivity.
      * destruct (OriginalCount params =? 1); cbn [fst];
          [intro H; exfalso; apply H; reflexivity|].
        cbv zeta.
        destruct (Decoder.RecoveryCount _ <=? 0); [reflexivity|].
        destruct (RecoveryCount params =? 1); cbn [fst];
          intro H; exfalso; apply H; reflexivity.
Qed.

(* ================================================================= *)
(** ** C7 and C8: the degenerate cases *)

Lemma fold_left_ext_in {A C : Type} (f g : A -> C -> A) (l : list C) (a : A) :
  (forall a x, In x l -> f a x = g a x) ->
  fold_left f l a = fold_left g l a.
Proof.
  revert a. induction l as [|x l IH]; intros a H; simpl; [reflexivity|].
  rewrite H by (left; reflexivity).
  apply IH. intros a' x' Hx. apply H. right. exact Hx.
Qed.

(** While the products [i * BlockBytes] of the copy loop fit an [int],
    slot [i] starts [i * BlockBytes] bytes into the output region. *)
Lemma encode_copy_offsets (src : list Z) (bytes : Z) (t : nat)
    (region : list Z) :
  0 <= bytes -> (Z.of_nat t - 1) * bytes <= INT_MAX ->
  fold_left (fun region i =>
               at_int_offset (to_int (Z.of_nat i * bytes))
                 (fun dst => memcpy dst src bytes) region)
            (seq 0 t) region =
  fold_left (fun region i =>
               at_offset (i * Z.to_nat bytes)
                 (fun dst => memcpy dst src bytes) region)
            (seq 0 t) region.
Proof.
  intros Hb Hmax. apply fold_left_ext_in. intros r i Hi. apply in_seq in Hi.
  assert (Hle : 0 <= Z.of_nat i * bytes <= INT_MAX).
  { split; [lia|].
    apply Z.le_trans with ((Z.of_nat t - 1) * bytes); [|exact Hmax].
    apply Z.mul_le_mono_nonneg_r; lia. }
  rewrite to_int_small by (unfold int_range, INT_MIN, INT_MAX in *; lia).
  unfold at_int_offset.
  replace (Z.of_nat i * bytes <? 0) with false
    by (symmetry; apply Z.ltb_ge; lia).
  rewrite Z2Nat.inj_mul, Nat2Z.id by lia. reflexivity.
Qed.

Lemma encode_copies (src : list Z) (bytes : Z) (B : nat) (t : nat)
    (region : list Z) :
  B = Z.to_nat bytes ->
  (t * B <= length region)%nat ->
  let out := fold_left (fun region i =>
                 at_offset (i * B) (fun dst => memcpy dst src bytes) region)
               (seq 0 t) region in
  length out = length region /\
  (forall i p, (i < t)%nat -> (p < B)%nat ->
     nth (i * B + p) out 0 = nth p src 0) /\
  (forall q, (t * B <= q)%nat -> nth q out 0 = nth q region 0).
Proof.
  intros HB. induction t as [|t IH]; intro Hlen; cbv zeta.
  - simpl. split; [reflexivity|]. split; [|reflexivity]. intros; lia.
  - rewrite seq_S, fold_left_app. cbn [fold_left]. simpl (0 + t)%nat.
    destruct IH as [L [W O]]; [lia|].
    set (r := fold_left _ (seq 0 t) region) in *.
    unfold memcpy. rewrite <- HB.
    split; [rewrite at_offset_mem_op_length; exact L|]. split.
    + intros i p Hi Hp. destruct (Nat.eq_dec i t) as [->|Hne].
      * rewrite at_offset_mem_op_in by (rewrite ?L; nia).
        f_equal. lia.
      * rewrite at_offset_mem_op_out by (rewrite ?L; nia).
        apply W; lia.
    + intros q Hq. rewrite at_offset_mem_op_out by (rewrite ?L; nia).
      apply O. nia.
Qed.

(** The degenerate path of the encoder. *)
Lemma encode_single {ctx : gf256_ctx} (params : cm256_encoder_params)
    (originals : list (list Z)) (region : list Z) :
  valid_params params ->
  OriginalCount params = 1 ->
  (RecoveryCount params - 1) * BlockBytes params <= INT_MAX ->
  length (original_at originals 0) = Z.to_nat (BlockBytes params) ->
  (Z.to_nat (RecoveryCount params) * Z.to_nat (BlockBytes params)
   <= length region)%nat ->
  exists out,
    cm256_encode params (Some originals) (Some region) = (0, Some out) /\
    length out = length region /\
    forall i, (i < Z.to_nat (RecoveryCount params))%nat ->
      region_row (Z.to_nat (BlockBytes params)) out i =
      original_at originals 0.
Proof.
  intros Hv Hk Hmax HO Hreg.
  destruct (valid_params_guards params Hv) as [G1 G2].
  unfold cm256_encode. rewrite G1, G2, Hk. cbn [Z.eqb Pos.eqb].
  rewrite encode_copy_offsets
    by (destruct Hv as [? [? [? ?]]]; rewrite ?Z2Nat.id by lia; lia).
  eexists. split; [reflexivity|].
  destruct (encode_copies (original_at originals 0) (BlockBytes params)
              (Z.to_nat (BlockBytes params))
              (Z.to_nat (RecoveryCount params)) region eq_refl Hreg)
    as [L [W _]].
  split; [exact L|].
  intros i Hi. apply (list_eq_nth _ _ 0).
  - rewrite region_row_length; [symmetry; exact HO|].
    cbv zeta in L. rewrite L. nia.
  - intros p Hp. rewrite region_row_length in Hp
      by (cbv zeta in L; rewrite L; nia).
    rewrite region_row_nth by exact Hp. apply W; assumption.
Qed.

Lemma decode_single {ctx : gf256_ctx} (uninit : list Z)
    (params : cm256_encoder_params) (b : cm256_block) :
  valid_params params ->
  OriginalCount params = 1 ->
  cm256_decode uninit params [b] =
    (0, [{| Block := Block b; Index := 0 |}]).
Proof.
  intros Hv Hk. rewrite cm256_decode_valid by exact Hv.
  rewrite Hk. reflexivity.
Qed.


Lemma store_Index_same b : store_Index (Index b) b = b.
Proof. destruct b; reflexivity. Qed.

(** C8 — no erasures.  For valid parameters, when the [k] input blocks
    all carry original rows, [cm256_decode] returns 0 and leaves every
    buffer and every index as it was. *)
Theorem decode_no_erasures {ctx : gf256_ctx} (uninit : list Z)
    (params : cm256_encoder_params) (blocks : list cm256_block) :
  valid_params params ->
  valid_blocks params blocks ->
  Forall (fun b => Index b < OriginalCount params) blocks ->
  cm256_decode uninit params blocks = (0, blocks).
Proof.
  intros Hv Hb Horig. rewrite cm256_decode_valid by exact Hv.
  destruct (Z.eqb_spec (OriginalCount params) 1) as [Hk|Hk].
  - f_equal. destruct Hb as [Hlen [_ Hall]]. rewrite Hk in Hlen.
    destruct blocks as [|b [|b' bs]]; try discriminate Hlen.
    inversion Hall as [|? ? Hb0 _]; subst.
    inversion Horig as [|? ? Hb1 _]; subst.
    assert (E : Index b = 0) by lia.
    simpl. rewrite <- E at 1. rewrite store_Index_same. reflexivity.
  - cbv zeta.
    destruct (Initialize_partition uninit params blocks) as [_ [_ R]].
    unfold Decoder.RecoveryCount. rewrite R.
    assert (E : recovery_positions params blocks = []).
    { unfold recovery_positions.
      rewrite <- (filter_ext_in (fun _ => false)).
      - clear. induction (seq _ _); simpl; auto.
      - intros p Hp. apply in_seq in Hp. symmetry.
        apply negb_false_iff, Z.ltb_lt.
        rewrite Forall_forall in Horig. apply Horig.
        destruct Hb as [Hlen _]. apply nth_In. lia. }
    rewrite E. reflexivity.
Qed.

(* ================================================================= *)
(** ** C5: the m = 1 fast path *)

Lemma update_nth_twice {A : Type} (n : nat) (f g : A -> A) (l : list A) :
  update_nth n f (update_nth n g l) = update_nth n (fun x => f (g x)) l.
Proof.
  revert n; induction l as [|x l IH]; intros [|n]; simpl; try reflexivity.
  f_equal. apply IH.
Qed.

Lemma update_nth_ext {A : Type} (n : nat) (f g : A -> A) (l : list A) (d : A) :
  f (nth n l d) = g (nth n l d) -> update_nth n f l = update_nth n g l.
Proof.
  revert n; induction l as [|x l IH]; intros [|n] H; simpl in *;
    try reflexivity.
  - f_equal; exact H.
  - f_equal; apply IH; exact H.
Qed.

Lemma filter_false {A : Type} (f : A -> bool) (l : list A) :
  (forall x, In x l -> f x = false) -> filter f l = [].
Proof.
  induction l as [|x l IH]; intro H; simpl.
  - reflexivity.
  - rewrite H by (left; reflexivity). apply IH.
    intros y Hy. apply H. right; exact Hy.
Qed.

Lemma filter_seq_unique (f : nat -> bool) (n r : nat) :
  (r < n)%nat -> f r = true ->
  (forall p, (p < n)%nat -> p <> r -> f p = false) ->
  filter f (seq 0 n) = [r].
Proof.
  intros Hr Hf Hother.
  replace n with (r + (1 + (n - r - 1)))%nat by lia.
  rewrite !seq_app, !filter_app. cbn [seq filter]. simpl (0 + r)%nat.
  rewrite Hf.
  rewrite (filter_false f (seq 0 r)), (filter_false f (seq (r + 1) _)).
  - reflexivity.
  - intros p Hp. apply in_seq in Hp. apply Hother; lia.
  - intros p Hp. apply in_seq in Hp. apply Hother; lia.
Qed.

Lemma filter_split_perm {A : Type} (f : A -> bool) (l : list A) :
  Permutation (filter (fun x => negb (f x)) l ++ filter f l) l.
Proof.
  induction l as [|x l IH]; simpl.
  - constructor.
  - destruct (f x); simpl.
    + apply Permutation_sym, Permutation_cons_app, Permutation_sym, IH.
    + constructor. exact IH.
Qed.

Lemma positions_perm params blocks :
  Permutation (recovery_positions params blocks ++
               original_positions params blocks)
              (seq 0 (Z.to_nat (OriginalCount params))).
Proof. apply filter_split_perm. Qed.

Section DecodeM1.
Variable d : Decoder.t.
Variable blocks : list cm256_block.
Variable r : nat.

Let B := Z.to_nat (BlockBytes (Decoder.Params d)).

Hypothesis Hr : (r < length blocks)%nat.

(** The byte at position [p] of the pending buffer [inBlock], 0 when the
    pointer is null. *)
Definition pending (inBlock : option nat) (p : nat) : Z :=
  match inBlock with
  | Some i => nth p (Block (block_at blocks i)) 0
  | None => 0
  end.

Definition DecodeM1_step (st : list cm256_block * option nat) (o : nat)
  : list cm256_block * option nat :=
  let '(blocks, inBlock) := st in
  match inBlock with
  | None => (blocks, Some o)
  | Some inBlock =>
    (update_nth r
       (store_Block (fun out =>
          gf256_add2_mem out (Block (block_at blocks inBlock))
            (Block (block_at blocks o)) (BlockBytes (Decoder.Params d))))
       blocks, None)
  end.

Lemma block_at_update_other (f : cm256_block -> cm256_block) bs p q :
  p <> q -> block_at (update_nth q f bs) p = block_at bs p.
Proof. intro H. unfold block_at. apply nth_update_nth_neq. exact H. Qed.

Lemma block_at_update_same (f : cm256_block -> cm256_block) bs q :
  (q < length bs)%nat -> block_at (update_nth q f bs) q = f (block_at bs q).
Proof. intro H. unfold block_at. apply nth_update_nth_eq. exact H. Qed.

Lemma DecodeM1_loop (l : list nat) :
  forall (buf : list Z) (inBlock : option nat),
  ~ In r l -> inBlock <> Some r ->
  exists buf' inBlock',
    fold_left DecodeM1_step l
      (update_nth r (store_Block (fun _ => buf)) blocks, inBlock) =
    (update_nth r (store_Block (fun _ => buf')) blocks, inBlock') /\
    inBlock' <> Some r /\
    length buf' = length buf /\
    ((B <= length buf)%nat ->
     forall p, (p < B)%nat ->
       gf256_add (nth p buf' 0) (pending inBlock' p) =
       gf256_add (gf256_add (nth p buf 0) (pending inBlock p))
         (gsum (fun o => nth p (Block (block_at blocks o)) 0) l)).
Proof.
  induction l as [|o l IH]; intros buf inBlock Hl Hi.
  - exists buf, inBlock. simpl. repeat split; auto.
    intros _ p Hp. rewrite gsum_nil, gf256_add_0_r. reflexivity.
  - assert (Hor : o <> r) by (intro; subst; apply Hl; left; reflexivity).
    assert (Hl' : ~ In r l) by (intro; apply Hl; right; assumption).
    cbn [fold_left]. destruct inBlock as [i|]; cbn [DecodeM1_step].
    + assert (Hir : i <> r) by congruence.
      rewrite !block_at_update_other by assumption.
      rewrite update_nth_twice.
      set (buf1 := gf256_add2_mem buf (Block (block_at blocks i))
                     (Block (block_at blocks o))
                     (BlockBytes (Decoder.Params d))).
      rewrite (update_nth_ext r _ (store_Block (fun _ => buf1)) blocks
                 null_block) by reflexivity.
      assert (L1 : length buf1 = length buf)
        by (unfold buf1, gf256_add2_mem; apply mem_op_length).
      destruct (IH buf1 None Hl' ltac:(discriminate))
        as [buf' [ib' [E [Hn [L W]]]]].
      exists buf', ib'.
      split; [exact E|].
      split; [exact Hn|].
      split; [congruence|].
      intros Hlen p Hp. rewrite (W ltac:(lia) p Hp), gsum_cons.
      unfold buf1, gf256_add2_mem. fold B.
      rewrite mem_op_nth_in by lia.
      cbn [pending]. unfold gf256_add. xor_bits.
    + destruct (IH buf (Some o) Hl' ltac:(congruence))
        as [buf' [ib' [E [Hn [L W]]]]].
      exists buf', ib'. split; [exact E|]. split; [exact Hn|].
      split; [exact L|].
      intros Hlen p Hp. rewrite (W Hlen p Hp), gsum_cons.
      cbn [pending]. unfold gf256_add. xor_bits.
Qed.

Lemma DecodeM1_spec :
  Decoder.Recovery d = [r] ->
  ~ In r (Decoder.Original d) ->
  exists buf,
    Decoder.DecodeM1 d blocks =
    update_nth r
      (fun _ => {| Block := buf;
                   Index := nth 0 (Decoder.ErasuresIndices d) 0 |}) blocks /\
    length buf = length (Block (block_at blocks r)) /\
    ((B <= length (Block (block_at blocks r)))%nat ->
     forall p, (p < B)%nat ->
       nth p buf 0 =
       gsum (fun o => nth p (Block (block_at blocks o)) 0)
            (r :: Decoder.Original d)).
Proof.
  intros HR HO.
  unfold Decoder.DecodeM1, Decoder.Recovery_at. rewrite HR. cbn [nth].
  change (fold_left _ (Decoder.Original d) (blocks, None))
    with (fold_left DecodeM1_step (Decoder.Original d) (blocks, None)).
  assert (E0 : blocks =
               update_nth r (store_Block (fun _ => Block (block_at blocks r)))
                 blocks).
  { symmetry. apply (update_nth_id _ _ _ null_block).
    unfold block_at. destruct (nth r blocks null_block); reflexivity. }
  destruct (DecodeM1_loop (Decoder.Original d) (Block (block_at blocks r))
              None HO ltac:(discriminate))
    as [buf' [ib' [E [Hn [L W]]]]].
  rewrite <- E0 in E. rewrite E. clear E.
  destruct ib' as [i|].
  - assert (Hir : i <> r) by congruence.
    rewrite block_at_update_other by assumption.
    rewrite !update_nth_twice.
    exists (gf256_add_mem buf' (Block (block_at blocks i))
              (BlockBytes (Decoder.Params d))).
    split; [apply (update_nth_ext _ _ _ _ null_block); reflexivity|]. split.
    + unfold gf256_add_mem. rewrite mem_op_length. congruence.
    + intros HL p Hp. unfold gf256_add_mem. fold B.
      rewrite mem_op_nth_in by lia.
      specialize (W HL p Hp). cbn [pending] in W. rewrite W.
      rewrite gsum_cons, gf256_add_0_r. reflexivity.
  - rewrite !update_nth_twice.
    exists buf'.
    split; [apply (update_nth_ext _ _ _ _ null_block); reflexivity|].
    split; [congruence|].
    intros HL p Hp. specialize (W HL p Hp). cbn [pending] in W.
    rewrite !gf256_add_0_r in W. rewrite W, gsum_cons. reflexivity.
Qed.

End DecodeM1.

Lemma xor_blocks_positions (B : nat) (blocks : list cm256_block) (p : nat) :
  (p < B)%nat ->
  nth p (xor_blocks B (map Block blocks)) 0 =
  gsum (fun o => nth p (Block (block_at blocks o)) 0)
       (seq 0 (length blocks)).
Proof.
  intro Hp. unfold xor_blocks. rewrite nth_map_seq by exact Hp.
  unfold gsum. f_equal. rewrite map_map.
  apply (map_nth_seq (fun b => nth p (Block b) 0) blocks null_block).
Qed.

(** C5 — the m = 1 fast path.  For valid parameters with
    [recoveryCount = 1] and [k >= 2], and an input of [k - 1] originals
    plus the recovery block (at position [r] of the array),
    [cm256_decode] returns 0 and changes only that block: its buffer
    becomes the byte-wise XOR of the [k - 1] original buffers and the
    recovery buffer (all [k] input buffers), and its index becomes the
    one original row that was missing. *)
Theorem decode_m1_reconstruction {ctx : gf256_ctx} (uninit : list Z)
    (params : cm256_encoder_params) (blocks : list cm256_block) (r : nat) :
  valid_params params ->
  RecoveryCount params = 1 ->
  2 <= OriginalCount params ->
  valid_blocks params blocks ->
  length uninit = 256%nat ->
  (r < length blocks)%nat ->
  Index (block_at blocks r) = OriginalCount params ->
  Forall (fun b => length (Block b) = Z.to_nat (BlockBytes params)) blocks ->
  exists missing,
    0 <= missing < OriginalCount params /\
    ~ In missing (map Index blocks) /\
    (forall z, 0 <= z < OriginalCount params ->
               ~ In z (map Index blocks) -> z = missing) /\
    cm256_decode uninit params blocks =
    (0, update_nth r
          (fun _ => {| Block := xor_blocks (Z.to_nat (BlockBytes params))
                                  (map Block blocks);
                       Index := missing |}) blocks).
Proof.
  intros Hv Hm Hk2 Hb Hu Hr Hidx Hlen.
  pose proof Hb as [Hbl [Hnd Hall]].
  set (k := Z.to_nat (OriginalCount params)) in *.
  assert (HR : recovery_positions params blocks = [r]).
  { unfold recovery_positions. fold k. apply filter_seq_unique.
    - lia.
    - rewrite Hidx, Z.ltb_irrefl. reflexivity.
    - intros p Hp Hne. apply negb_false_iff, Z.ltb_lt.
      pose proof (block_index_range params blocks Hb p Hp) as Hrg.
      assert (Index (block_at blocks p) <> OriginalCount params).
      { intro E. apply Hne.
        apply (block_index_inj params blocks Hb); fold k; lia. }
      lia. }
  pose proof (erased_rows_count params blocks Hb) as Hcount.
  rewrite HR in Hcount. cbn [length] in Hcount.
  destruct (erased_rows params blocks) as [|j0 [|j1 er]] eqn:Eer;
    try discriminate Hcount.
  assert (Hj0 : In j0 (erased_rows params blocks))
    by (rewrite Eer; left; reflexivity).
  apply erased_rows_In in Hj0. destruct Hj0 as [Hj0k Hj0n]. fold k in Hj0k.
  exists (Z.of_nat j0).
  split; [lia|]. split; [exact Hj0n|]. split.
  { intros z Hz Hzn.
    assert (Hin : In (Z.to_nat z) (erased_rows params blocks)).
    { apply erased_rows_In. rewrite Z2Nat.id by lia. split; [lia|exact Hzn]. }
    rewrite Eer in Hin. destruct Hin as [E|[]]. lia. }
  rewrite cm256_decode_valid by exact Hv.
  replace (OriginalCount params =? 1) with false
    by (symmetry; apply Z.eqb_neq; lia).
  cbv zeta.
  destruct (Initialize_partition uninit params blocks) as [HP [HO HRd]].
  cbv zeta in HP, HO, HRd.
  set (d := Decoder.Initialize uninit params blocks) in *.
  unfold Decoder.RecoveryCount. rewrite HRd, HR. cbn [length Z.of_nat].
  cbn [Z.leb Z.compare Pos.of_succ_nat]. rewrite Hm. cbn [Z.eqb Pos.eqb].
  f_equal.
  assert (HLr : length (Block (block_at blocks r)) =
                Z.to_nat (BlockBytes params)).
  { rewrite Forall_forall in Hlen. apply Hlen. apply nth_In. exact Hr. }
  destruct (DecodeM1_spec d blocks r Hr) as [buf [E [L W]]].
  - rewrite HRd. exact HR.
  - rewrite HO. unfold original_positions. rewrite filter_In.
    intros [_ Hlt]. rewrite Hidx, Z.ltb_irrefl in Hlt. discriminate.
  - rewrite E. rewrite HP in W. rewrite HLr in L, W.
    specialize (W (Nat.le_refl _)).
    assert (E0 : nth 0 (Decoder.ErasuresIndices d) 0 = Z.of_nat j0).
    { unfold d. rewrite Initialize_erasures_spec; try assumption.
      - rewrite Eer. reflexivity.
      - rewrite HR. cbn [length]. lia. }
    rewrite E0.
    assert (Ebuf : buf = xor_blocks (Z.to_nat (BlockBytes params))
                           (map Block blocks)).
    { apply (list_eq_nth _ _ 0).
      - rewrite L. unfold xor_blocks. rewrite length_map, length_seq.
        reflexivity.
      - intros p Hp. rewrite L in Hp.
        rewrite (W p Hp), xor_blocks_positions by exact Hp.
        apply gsum_perm. rewrite Hbl. fold k.
        rewrite HO. change (r :: original_positions params blocks)
          with ([r] ++ original_positions params blocks).
        rewrite <- HR. apply positions_perm. }
    rewrite Ebuf. reflexivity.
Qed.

(* ================================================================= *)
(** ** The general decoder: elimination of the surviving originals *)

Section DecodeSetup.
Context {ctx : gf256_ctx}.
Variable d : Decoder.t.

Let n := length (Decoder.Recovery d).
Let Bz := BlockBytes (Decoder.Params d).
Let B := Z.to_nat Bz.

Definition eliminate_step (x_0 y : Z) (o : nat)
    (blocks : list cm256_block) (r : nat) : list cm256_block :=
  update_nth r
    (store_Block (fun outBlock =>
       gf256_muladd_mem outBlock
         (GetMatrixElement (Index (block_at blocks r)) x_0 y)
         (Block (block_at blocks o)) Bz)) blocks.

Lemma eliminate_inner (x_0 y : Z) (o : nat) (l : list nat) :
  forall blocks,
  NoDup l -> ~ In o l -> (forall r, In r l -> (r < length blocks)%nat) ->
  let blocks' := fold_left (eliminate_step x_0 y o) l blocks in
  length blocks' = length blocks /\
  (forall pos, ~ In pos l -> block_at blocks' pos = block_at blocks pos) /\
  (forall r, In r l ->
     block_at blocks' r =
     store_Block (fun outBlock =>
       gf256_muladd_mem outBlock
         (GetMatrixElement (Index (block_at blocks r)) x_0 y)
         (Block (block_at blocks o)) Bz) (block_at blocks r)).
Proof.
  induction l as [|r l IH]; intros blocks Hnd Ho Hrange; cbv zeta.
  - simpl. split; [reflexivity|]. split; [reflexivity|]. intros r [].
  - cbn [fold_left]. inversion Hnd as [|? ? Hr Hnd']; subst.
    assert (Hor : o <> r) by (intro; subst; apply Ho; left; reflexivity).
    destruct (IH (eliminate_step x_0 y o blocks r) Hnd')
      as [L [F W]].
    { intro; apply Ho; right; assumption. }
    { intros r' Hr'. unfold eliminate_step. rewrite update_nth_length.
      apply Hrange. right; exact Hr'. }
    cbv zeta in L, F, W.
    split.
    { rewrite L. unfold eliminate_step. apply update_nth_length. }
    split.
    + intros pos Hpos. rewrite F by (intro; apply Hpos; right; assumption).
      unfold eliminate_step. apply block_at_update_other.
      intro; subst; apply Hpos; left; reflexivity.
    + intros r' [->|Hr'].
      * rewrite F by exact Hr. unfold eliminate_step.
        apply block_at_update_same. apply Hrange. left; reflexivity.
      * rewrite (W r' Hr').
        assert (Hne : r' <> r) by (intro; subst; contradiction).
        unfold eliminate_step at 1 2 3.
        rewrite !block_at_update_other by assumption. reflexivity.
Qed.

Lemma eliminate_originals_spec (x_0 : Z) (os : list nat) :
  forall blocks,
  NoDup (Decoder.Recovery d) ->
  (forall o, In o os -> ~ In o (Decoder.Recovery d)) ->
  (forall r, In r (Decoder.Recovery d) -> (r < length blocks)%nat) ->
  let blocks' :=
    fold_left (fun blocks o =>
      fold_left (eliminate_step x_0 (Index (block_at blocks o)) o)
        (Decoder.Recovery d) blocks) os blocks in
  length blocks' = length blocks /\
  (forall pos, ~ In pos (Decoder.Recovery d) ->
     block_at blocks' pos = block_at blocks pos) /\
  (forall r, In r (Decoder.Recovery d) ->
     Index (block_at blocks' r) = Index (block_at blocks r) /\
     length (Block (block_at blocks' r)) = length (Block (block_at blocks r)) /\
     forall p, (p < B)%nat -> (p < length (Block (block_at blocks r)))%nat ->
       nth p (Block (block_at blocks' r)) 0 =
       gf256_add (nth p (Block (block_at blocks r)) 0)
         (gsum (fun o =>
                  gf256_mul
                    (GetMatrixElement (Index (block_at blocks r)) x_0
                       (Index (block_at blocks o)))
                    (nth p (Block (block_at blocks o)) 0)) os)).
Proof.
  induction os as [|o os IH]; intros blocks Hnd Hos Hrange; cbv zeta.
  - simpl. split; [reflexivity|]. split; [reflexivity|].
    intros r Hr. split; [reflexivity|]. split; [reflexivity|].
    intros p Hp Hl. rewrite gsum_nil, gf256_add_0_r. reflexivity.
  - cbn [fold_left].
    destruct (eliminate_inner x_0 (Index (block_at blocks o)) o
                (Decoder.Recovery d) blocks Hnd
                (Hos o (or_introl eq_refl)) Hrange) as [L1 [F1 W1]].
    cbv zeta in L1, F1, W1.
    set (blocks1 := fold_left _ (Decoder.Recovery d) blocks) in *.
    destruct (IH blocks1 Hnd) as [L [F W]].
    { intros o' Ho'. apply Hos. right; exact Ho'. }
    { intros r Hr. rewrite L1. apply Hrange, Hr. }
    cbv zeta in L, F, W.
    split; [congruence|]. split.
    + intros pos Hpos. rewrite F, F1 by exact Hpos. reflexivity.
    + intros r Hr. destruct (W r Hr) as [WI [WL WN]].
      rewrite (W1 r Hr) in WI, WL, WN.
      cbn [store_Block Index Block] in WI, WL, WN.
      unfold gf256_muladd_mem in WL, WN. rewrite mem_op_length in WL, WN.
      split; [exact WI|]. split; [exact WL|].
      intros p Hp Hl. rewrite (WN p Hp Hl).
      fold B in WN |- *. rewrite mem_op_nth_in by assumption.
      rewrite gsum_cons, <- gf256_add_assoc. f_equal. f_equal.
      apply gsum_ext. intros o' Ho'.
      rewrite F1 by (apply Hos; right; exact Ho'). reflexivity.
Qed.

(** The matrix that "fill matrix" builds, element by element. *)
Lemma map_flat_map_rows {A C D : Type} (f : C -> D) (h : A -> list C)
    (l : list A) :
  map f (flat_map h l) = flat_map (fun x => map f (h x)) l.
Proof.
  induction l as [|x l IH]; simpl.
  - reflexivity.
  - rewrite map_app, IH. reflexivity.
Qed.

Lemma flat_map_rows_length {A C : Type} (g : A -> nat -> C) (l : list A)
    (w : nat) :
  length (flat_map (fun r => map (g r) (seq 0 w)) l) = (length l * w)%nat.
Proof.
  induction l as [|x l IH]; simpl.
  - reflexivity.
  - rewrite length_app, length_map, length_seq, IH. reflexivity.
Qed.

Lemma flat_map_rows_nth {A : Type} (g : A -> nat -> Z) (l : list A) (w : nat)
    (dflt : A) (i c : nat) :
  (i < length l)%nat -> (c < w)%nat ->
  nth (i * w + c) (flat_map (fun r => map (g r) (seq 0 w)) l) 0 =
  g (nth i l dflt) c.
Proof.
  revert i; induction l as [|x l IH]; intros i Hi Hc; simpl in Hi; [lia|].
  cbn [flat_map]. destruct i as [|i].
  - rewrite app_nth1 by (rewrite length_map, length_seq; lia).
    simpl. apply nth_map_seq. exact Hc.
  - rewrite app_nth2 by (rewrite length_map, length_seq; simpl; lia).
    rewrite length_map, length_seq.
    replace (S i * w + c - w)%nat with (i * w + c)%nat by (simpl; lia).
    cbn [nth]. apply IH; lia.
Qed.

Lemma fill_matrix_length x_0 blocks :
  length (Decoder.Decode_fill_matrix d x_0 blocks) = (n * n)%nat.
Proof.
  unfold Decoder.Decode_fill_matrix, Decoder.Decode_matrix_calls.
  rewrite length_map.
  apply (flat_map_rows_length
    (fun r j => (Index (block_at blocks r), x_0,
                 nth j (Decoder.ErasuresIndices d) 0))).
Qed.

Lemma fill_matrix_nth x_0 blocks i c :
  (i < n)%nat -> (c < n)%nat ->
  nth (i * n + c) (Decoder.Decode_fill_matrix d x_0 blocks) 0 =
  GetMatrixElement (Index (block_at blocks (Decoder.Recovery_at d i))) x_0
    (nth c (Decoder.ErasuresIndices d) 0).
Proof.
  intros Hi Hc.
  unfold Decoder.Decode_fill_matrix, Decoder.Decode_matrix_calls.
  rewrite map_flat_map_rows.
  erewrite flat_map_ext.
  2:{ intro r. rewrite map_map. reflexivity. }
  rewrite (flat_map_rows_nth
    (fun r j => GetMatrixElement (Index (block_at blocks r)) x_0
                  (nth j (Decoder.ErasuresIndices d) 0))
    (Decoder.Recovery d) n 0%nat i c Hi Hc).
  reflexivity.
Qed.

End DecodeSetup.

(* ================================================================= *)
(** ** The general decoder: row operations on the matrix *)

(** Element [(a, c)] of a square matrix stored row by row. *)
Definition matrix_at (n : nat) (matrix : list Z) (a c : nat) : Z :=
  nth (a * n + c) matrix 0.

Lemma row_op_in f (n j a c : nat) (matrix x y : list Z) :
  length matrix = (n * n)%nat -> (a < n)%nat -> (j < c < n)%nat ->
  matrix_at n
    (at_offset (a * n + j + 1)
       (fun row => mem_op f (n - j - 1) row x y) matrix) a c =
  f (matrix_at n matrix a c) (nth (c - j - 1) x 0) (nth (c - j - 1) y 0).
Proof.
  intros Hlen Ha Hc. unfold matrix_at.
  assert (Hq : (a * n + c < n * n)%nat) by nia.
  rewrite at_offset_mem_op_in by lia.
  f_equal; f_equal; lia.
Qed.

Lemma row_op_out f (n j a' a c : nat) (matrix x y : list Z) :
  length matrix = (n * n)%nat ->
  (a' < n)%nat -> (a < n)%nat -> (c < n)%nat -> (j < n)%nat ->
  (a <> a' \/ c <= j)%nat ->
  matrix_at n
    (at_offset (a' * n + j + 1)
       (fun row => mem_op f (n - j - 1) row x y) matrix) a c =
  matrix_at n matrix a c.
Proof.
  intros Hlen Ha' Ha Hc Hj Hne. unfold matrix_at.
  assert (Hq : (a' * n + n <= n * n)%nat) by nia.
  apply at_offset_mem_op_out; [|lia].
  destruct (Nat.lt_trichotomy a a') as [Hlt|[Heq|Hgt]].
  - left. assert (a * n + n <= a' * n)%nat by nia. lia.
  - left. subst a'. lia.
  - right. assert (a' * n + n <= a * n)%nat by nia. lia.
Qed.

(** An operation in place reads the bytes it is about to overwrite. *)
Lemma at_offset_in_place f (n off : nat) (mem : list Z) :
  at_offset off (fun row => mem_op f n row row row) mem =
  at_offset off
    (fun row => mem_op f n row (skipn off mem) (skipn off mem)) mem.
Proof. reflexivity. Qed.

Lemma matrix_at_skipn (n j c : nat) (matrix : list Z) :
  (j < c)%nat ->
  nth (c - j - 1) (skipn (j * n + j + 1) matrix) 0 = matrix_at n matrix j c.
Proof.
  intro Hc. rewrite nth_skipn. unfold matrix_at. f_equal. lia.
Qed.

Section GaussStep.
Context {ctx : gf256_ctx}.
Variable d : Decoder.t.

Let n := length (Decoder.Recovery d).
Let Bz := BlockBytes (Decoder.Params d).
Let rp := Decoder.Recovery_at d.

Hypothesis rp_NoDup : NoDup (Decoder.Recovery d).
Hypothesis n_small : (n <= 256)%nat.

Lemma rp_inj a b : (a < n)%nat -> (b < n)%nat -> rp a = rp b -> a = b.
Proof.
  intros Ha Hb E. rewrite (NoDup_nth _ 0%nat) in rp_NoDup.
  apply rp_NoDup; assumption.
Qed.

Lemma rp_In a : (a < n)%nat -> In (rp a) (Decoder.Recovery d).
Proof. intro Ha. apply nth_In. exact Ha. Qed.

(** The state of the elimination is well-formed for column [j]: the
    pivot array is still the identity, the matrix is [n] by [n] and the
    recovery blocks are inside the caller's array. *)
Record elim_wf (st : Decoder.elim) : Prop := {
  wf_pivots : forall t, (t < n)%nat ->
                nth t (Decoder.el_pivots st) 0 = Z.of_nat t;
  wf_matrix : length (Decoder.el_matrix st) = (n * n)%nat;
  wf_blocks : forall t, (t < n)%nat ->
                (rp t < length (Decoder.el_blocks st))%nat
}.

Definition M (st : Decoder.elim) (a c : nat) : Z :=
  matrix_at n (Decoder.el_matrix st) a c.

(** The body of "remove it from all the other data" for the pivot row
    [j] (which is also the physical row). *)
Definition pivot_body (j : nat) (st : Decoder.elim) (k : nat) : Decoder.elim :=
  let otheri := Z.to_nat (nth k (Decoder.el_pivots st) 0) in
  let otherElementPtr := (otheri * n + j)%nat in
  let otherMatrixElement := nth otherElementPtr (Decoder.el_matrix st) 0 in
  {| Decoder.el_blocks :=
       update_nth (rp otheri)
         (store_Block (fun b =>
            gf256_muladd_mem b otherMatrixElement
              (Block (block_at (Decoder.el_blocks st) (rp j))) Bz))
         (Decoder.el_blocks st);
     Decoder.el_matrix :=
       at_offset (otherElementPtr + 1)
         (fun row => gf256_muladd_mem row otherMatrixElement
                       (skipn (j * n + j + 1) (Decoder.el_matrix st))
                       (Z.of_nat n - Z.of_nat j - 1))
         (Decoder.el_matrix st);
     Decoder.el_pivots := Decoder.el_pivots st |}.

Lemma pivot_body_spec (j k : nat) (st : Decoder.elim) :
  elim_wf st -> (j < k < n)%nat ->
  let st' := pivot_body j st k in
  elim_wf st' /\
  Decoder.el_pivots st' = Decoder.el_pivots st /\
  length (Decoder.el_blocks st') = length (Decoder.el_blocks st) /\
  (forall a c, (a < n)%nat -> (c < n)%nat ->
     M st' a c =
     if (a =? k)%nat && (j <? c)%nat
     then gf256_add (M st k c) (gf256_mul (M st k j) (M st j c))
     else M st a c) /\
  block_at (Decoder.el_blocks st') (rp k) =
    store_Block (fun b =>
      gf256_muladd_mem b (M st k j)
        (Block (block_at (Decoder.el_blocks st) (rp j))) Bz)
      (block_at (Decoder.el_blocks st) (rp k)) /\
  (forall pos, pos <> rp k ->
     block_at (Decoder.el_blocks st') pos =
     block_at (Decoder.el_blocks st) pos).
Proof.
  intros [Wp Wm Wb] Hk. cbv zeta. unfold pivot_body.
  rewrite Wp by lia. rewrite Nat2Z.id.
  cbn [Decoder.el_blocks Decoder.el_matrix Decoder.el_pivots].
  assert (Hrest : Z.to_nat (Z.of_nat n - Z.of_nat j - 1) = (n - j - 1)%nat)
    by lia.
  assert (HM : forall a c, (a < n)%nat -> (c < n)%nat ->
     matrix_at n
       (at_offset (k * n + j + 1)
          (fun row => gf256_muladd_mem row (nth (k * n + j)
                        (Decoder.el_matrix st) 0)
                        (skipn (j * n + j + 1) (Decoder.el_matrix st))
                        (Z.of_nat n - Z.of_nat j - 1))
          (Decoder.el_matrix st)) a c =
     if (a =? k)%nat && (j <? c)%nat
     then gf256_add (M st k c) (gf256_mul (M st k j) (M st j c))
     else M st a c).
  { intros a c Ha Hc. unfold gf256_muladd_mem. rewrite Hrest.
    destruct (Nat.eqb_spec a k) as [->|Hne];
      destruct (Nat.ltb_spec j c) as [Hjc|Hjc]; cbn [andb].
    - rewrite row_op_in by (try assumption; lia).
      rewrite matrix_at_skipn by lia. reflexivity.
    - apply row_op_out; try assumption; lia.
    - apply row_op_out; try assumption; lia.
    - apply row_op_out; try assumption; lia. }
  split; [|split; [reflexivity|split; [apply update_nth_length|split;
    [exact HM|split]]]].
  - constructor; cbn [Decoder.el_blocks Decoder.el_matrix Decoder.el_pivots].
    + exact Wp.
    + unfold gf256_muladd_mem. rewrite at_offset_mem_op_length. exact Wm.
    + intros t Ht. rewrite update_nth_length. apply Wb, Ht.
  - rewrite block_at_update_same by (apply Wb; lia). reflexivity.
  - intros pos Hpos. apply block_at_update_other. exact Hpos.
Qed.

Lemma pivot_loop_spec (j : nat) (len : nat) :
  forall (s : nat) (st : Decoder.elim),
  elim_wf st -> (j < s)%nat -> (s + len = n)%nat ->
  let st' := fold_left (pivot_body j) (seq s len) st in
  elim_wf st' /\
  Decoder.el_pivots st' = Decoder.el_pivots st /\
  length (Decoder.el_blocks st') = length (Decoder.el_blocks st) /\
  (forall a c, (a < n)%nat -> (c < n)%nat ->
     M st' a c =
     if (s <=? a)%nat && (j <? c)%nat
     then gf256_add (M st a c) (gf256_mul (M st a j) (M st j c))
     else M st a c) /\
  (forall k, (s <= k < n)%nat ->
     block_at (Decoder.el_blocks st') (rp k) =
     store_Block (fun b =>
       gf256_muladd_mem b (M st k j)
         (Block (block_at (Decoder.el_blocks st) (rp j))) Bz)
       (block_at (Decoder.el_blocks st) (rp k))) /\
  (forall pos, (forall k, (s <= k < n)%nat -> pos <> rp k) ->
     block_at (Decoder.el_blocks st') pos =
     block_at (Decoder.el_blocks st) pos).
Proof.
  induction len as [|len IH]; intros s st Hwf Hs Hn; cbv zeta.
  - simpl. split; [exact Hwf|]. split; [reflexivity|].
    split; [reflexivity|]. split; [|split].
    + intros a c Ha Hc.
      replace (s <=? a)%nat with false
        by (symmetry; apply Nat.leb_gt; lia).
      reflexivity.
    + intros k Hk. lia.
    + reflexivity.
  - cbn [seq fold_left].
    destruct (pivot_body_spec j s st Hwf ltac:(lia))
      as [Hwf1 [P1 [L1 [M1 [B1 F1]]]]].
    cbv zeta in Hwf1, P1, L1, M1, B1, F1.
    set (st1 := pivot_body j st s) in *.
    destruct (IH (S s) st1 Hwf1 ltac:(lia) ltac:(lia))
      as [Hwf' [P' [L' [M' [B' F']]]]].
    cbv zeta in Hwf', P', L', M', B', F'.
    split; [exact Hwf'|]. split; [congruence|]. split; [congruence|].
    split; [|split].
    + intros a c Ha Hc. rewrite (M' a c Ha Hc).
      rewrite !M1 by lia.
      replace (j <? j)%nat with false by (symmetry; apply Nat.ltb_irrefl).
      replace (j =? s)%nat with false by (symmetry; apply Nat.eqb_neq; lia).
      rewrite andb_false_r. cbn [andb].
      destruct (Nat.leb_spec (S s) a) as [H1|H1];
        destruct (Nat.leb_spec s a) as [H2|H2];
        destruct (Nat.eqb_spec a s) as [H3|H3]; try lia; cbn [andb];
        try reflexivity.
      * subst a. destruct (j <? c)%nat; reflexivity.
    + intros k Hk. destruct (Nat.eq_dec k s) as [->|Hne].
      * rewrite F'; [exact B1|].
        intros k' Hk' E. apply rp_inj in E; lia.
      * rewrite B' by lia. rewrite !F1.
        -- rewrite M1 by lia.
           replace (k =? s)%nat with false
             by (symmetry; apply Nat.eqb_neq; lia).
           reflexivity.
        -- intro E. apply rp_inj in E; lia.
        -- intro E. apply rp_inj in E; lia.
    + intros pos Hpos. rewrite F'.
      * apply F1. apply Hpos. lia.
      * intros k Hk. apply Hpos. lia.
Qed.

(** The state at the head of [Decode_pivot] for a pivot found at once
    ([remainingIndex = j], physical row [j]): the swap of the pivots, the
    new index of the pivot block and the normalisation of the pivot row. *)
Definition pivot_head (j : nat) (e : Z) (st : Decoder.elim) : Decoder.elim :=
  let pivots :=
    set_nth j (to_uint8 (Z.of_nat j))
      (set_nth j (nth j (Decoder.el_pivots st) 0) (Decoder.el_pivots st)) in
  let blocks :=
    update_nth (rp j)
      (store_Index (nth j (Decoder.ErasuresIndices d) 0))
      (Decoder.el_blocks st) in
  if e =? 1 then
    {| Decoder.el_blocks := blocks;
       Decoder.el_matrix := Decoder.el_matrix st;
       Decoder.el_pivots := pivots |}
  else
    {| Decoder.el_blocks :=
         update_nth (rp j)
           (store_Block (fun b => gf256_mul_mem b b (gf256_inv e) Bz)) blocks;
       Decoder.el_matrix :=
         at_offset (j * n + j + 1)
           (fun row => gf256_mul_mem row row (gf256_inv e)
                         (Z.of_nat n - Z.of_nat j - 1))
           (Decoder.el_matrix st);
       Decoder.el_pivots := pivots |}.

Lemma Decode_pivot_eq (j : nat) (e : Z) (st : Decoder.elim) :
  Decoder.Decode_pivot d j j j e st =
  fold_left (pivot_body j) (seq (j + 1) (n - j - 1)) (pivot_head j e st).
Proof.
  unfold Decoder.Decode_pivot, pivot_head.
  destruct (e =? 1); reflexivity.
Qed.

(** The normalised pivot row and pivot block. *)
Definition pivot_row (j : nat) (st : Decoder.elim) (c : nat) : Z :=
  if M st j j =? 1 then M st j c
  else gf256_mul (gf256_inv (M st j j)) (M st j c).

Definition pivot_block (j : nat) (st : Decoder.elim) : list Z :=
  let b := Block (block_at (Decoder.el_blocks st) (rp j)) in
  if M st j j =? 1 then b
  else gf256_mul_mem b b (gf256_inv (M st j j)) Bz.

Lemma pivot_head_spec (j : nat) (st : Decoder.elim) :
  elim_wf st -> (j < n)%nat ->
  let st' := pivot_head j (M st j j) st in
  elim_wf st' /\
  Decoder.el_pivots st' = Decoder.el_pivots st /\
  length (Decoder.el_blocks st') = length (Decoder.el_blocks st) /\
  (forall a c, (a < n)%nat -> (c < n)%nat ->
     M st' a c =
     if (a =? j)%nat && (j <? c)%nat then pivot_row j st c else M st a c) /\
  block_at (Decoder.el_blocks st') (rp j) =
    {| Block := pivot_block j st;
       Index := nth j (Decoder.ErasuresIndices d) 0 |} /\
  (forall pos, pos <> rp j ->
     block_at (Decoder.el_blocks st') pos =
     block_at (Decoder.el_blocks st) pos).
Proof.
  intros [Wp Wm Wb] Hj. cbv zeta.
  assert (Hpiv : set_nth j (to_uint8 (Z.of_nat j))
                   (set_nth j (nth j (Decoder.el_pivots st) 0)
                      (Decoder.el_pivots st)) = Decoder.el_pivots st).
  { unfold set_nth. rewrite update_nth_twice.
    apply (update_nth_id _ _ _ 0). rewrite Wp by exact Hj.
    apply to_uint8_small. unfold is_byte. lia. }
  unfold pivot_head, pivot_row, pivot_block. rewrite Hpiv.
  assert (Hrest : Z.to_nat (Z.of_nat n - Z.of_nat j - 1) = (n - j - 1)%nat)
    by lia.
  destruct (M st j j =? 1) eqn:He;
    cbn [Decoder.el_blocks Decoder.el_matrix Decoder.el_pivots].
  - split.
    { constructor;
        cbn [Decoder.el_blocks Decoder.el_matrix Decoder.el_pivots];
        [exact Wp|exact Wm|].
      intros t Ht. rewrite update_nth_length. apply Wb, Ht. }
    split; [reflexivity|]. split; [apply update_nth_length|].
    split; [|split].
    + intros a c Ha Hc. unfold M at 1.
      cbn [Decoder.el_matrix].
      destruct ((a =? j)%nat && (j <? c)%nat) eqn:E; [|reflexivity].
      apply andb_true_iff in E. destruct E as [E _].
      apply Nat.eqb_eq in E. subst a. reflexivity.
    + rewrite block_at_update_same by (apply Wb, Hj). reflexivity.
    + intros pos Hpos. apply block_at_update_other, Hpos.
  - split.
    { constructor;
        cbn [Decoder.el_blocks Decoder.el_matrix Decoder.el_pivots].
      - exact Wp.
      - unfold gf256_mul_mem.
        rewrite at_offset_in_place, at_offset_mem_op_length. exact Wm.
      - intros t Ht. rewrite !update_nth_length. apply Wb, Ht. }
    split; [reflexivity|]. split; [rewrite !update_nth_length; reflexivity|].
    split; [|split].
    + intros a c Ha Hc. unfold M at 1. cbn [Decoder.el_matrix].
      unfold gf256_mul_mem. rewrite Hrest, at_offset_in_place.
      destruct (Nat.eqb_spec a j) as [->|Hne];
        destruct (Nat.ltb_spec j c) as [Hjc|Hjc]; cbn [andb].
      * rewrite row_op_in by (try assumption; lia).
        rewrite matrix_at_skipn by lia. reflexivity.
      * apply row_op_out; try assumption; lia.
      * apply row_op_out; try assumption; lia.
      * apply row_op_out; try assumption; lia.
    + rewrite update_nth_twice.
      rewrite block_at_update_same by (apply Wb, Hj). reflexivity.
    + intros pos Hpos. rewrite !block_at_update_other by exact Hpos.
      reflexivity.
Qed.

End GaussStep.

(* ================================================================= *)
(** ** One elimination step keeps the matrix of Cauchy form

    The matrix restricted to the rows and columns still active has
    entries [r_a . s_c / (x_a + y_c)] with non-zero scalings [r_a], [s_c].
    Eliminating with the pivot [(j, j)] gives entries of the same form,
    with [r_a] multiplied by [(x_a + x_j) / (x_a + y_j)] and [s_c] by
    [(y_c + y_j) / (x_j + y_c)].  Every entry of such a matrix is
    non-zero, which is why the pivot hunt succeeds at its first
    candidate. *)

Section Schur.
Context {ctx : gf256_ctx}.

Add Field gf_field_schur : gf_field_theory.

Lemma gfadd_nilpotent (x : gf) : gfadd x x = gf0.
Proof. apply gf_eq. simpl. apply gf256_add_nilpotent. Qed.

Lemma gf_cross (xa xj yc yj : gf) :
  gfadd (gfmul (gfadd xa yj) (gfadd xj yc))
        (gfmul (gfadd xj yj) (gfadd xa yc)) =
  gfmul (gfadd xa xj) (gfadd yc yj).
Proof.
  transitivity
    (gfadd (gfmul (gfadd xa xj) (gfadd yc yj))
       (gfadd (gfadd (gfmul xa xj) (gfmul xa xj))
              (gfadd (gfmul yj yc) (gfmul yj yc)))).
  - ring.
  - rewrite !gfadd_nilpotent. ring.
Qed.

Lemma gf_schur (ra rj sc sj xa xj yc yj : gf) :
  gfadd xa yc <> gf0 -> gfadd xa yj <> gf0 ->
  gfadd xj yc <> gf0 -> gfadd xj yj <> gf0 ->
  rj <> gf0 -> sj <> gf0 ->
  gfadd (gfmul (gfmul ra sc) (gfinv (gfadd xa yc)))
        (gfmul (gfmul (gfmul ra sj) (gfinv (gfadd xa yj)))
           (gfmul (gfinv (gfmul (gfmul rj sj) (gfinv (gfadd xj yj))))
                  (gfmul (gfmul rj sc) (gfinv (gfadd xj yc))))) =
  gfmul (gfmul (gfmul (gfmul ra (gfadd xa xj)) (gfinv (gfadd xa yj)))
               (gfmul (gfmul sc (gfadd yc yj)) (gfinv (gfadd xj yc))))
        (gfinv (gfadd xa yc)).
Proof.
  intros HA HB HC HD Hrj Hsj.
  transitivity
    (gfdiv (gfmul (gfmul ra sc)
              (gfadd (gfmul (gfadd xa yj) (gfadd xj yc))
                     (gfmul (gfadd xj yj) (gfadd xa yc))))
           (gfmul (gfadd xa yc) (gfmul (gfadd xa yj) (gfadd xj yc)))).
  - field. repeat split; assumption.
  - rewrite gf_cross. field. repeat split; assumption.
Qed.

Lemma gf_val_inv (x : gf) :
  gf_val x <> 0 -> gf_val (gfinv x) = gf256_inv (gf_val x).
Proof.
  intro H. unfold gfinv. destruct (Z.eq_dec (gf_val x) 0) as [e|ne].
  - contradiction.
  - reflexivity.
Qed.

Lemma gf_neq_0 (x : gf) : gf_val x <> 0 -> x <> gf0.
Proof. intros H E. apply H. rewrite E. reflexivity. Qed.

(** The same identity on bytes. *)
Lemma schur_bytes (ra rj sc sj xa xj yc yj : Z) :
  is_byte ra -> is_byte rj -> is_byte sc -> is_byte sj ->
  is_byte xa -> is_byte xj -> is_byte yc -> is_byte yj ->
  xa <> yc -> xa <> yj -> xj <> yc -> xj <> yj -> rj <> 0 -> sj <> 0 ->
  gf256_add (gf256_mul (gf256_mul ra sc) (gf256_inv (gf256_add xa yc)))
    (gf256_mul (gf256_mul (gf256_mul ra sj) (gf256_inv (gf256_add xa yj)))
       (gf256_mul
          (gf256_inv (gf256_mul (gf256_mul rj sj)
                        (gf256_inv (gf256_add xj yj))))
          (gf256_mul (gf256_mul rj sc) (gf256_inv (gf256_add xj yc))))) =
  gf256_mul
    (gf256_mul
       (gf256_mul (gf256_mul ra (gf256_add xa xj))
          (gf256_inv (gf256_add xa yj)))
       (gf256_mul (gf256_mul sc (gf256_add yc yj))
          (gf256_inv (gf256_add xj yc))))
    (gf256_inv (gf256_add xa yc)).
Proof.
  intros Hra Hrj Hsc Hsj Hxa Hxj Hyc Hyj HA HB HC HD Hrj0 Hsj0.
  pose proof (gf_schur (gf_of ra Hra) (gf_of rj Hrj) (gf_of sc Hsc)
                (gf_of sj Hsj) (gf_of xa Hxa) (gf_of xj Hxj)
                (gf_of yc Hyc) (gf_of yj Hyj)) as H.
  assert (NA : gf256_add xa yc <> 0) by (apply gf256_add_neq_0; assumption).
  assert (NB : gf256_add xa yj <> 0) by (apply gf256_add_neq_0; assumption).
  assert (NC : gf256_add xj yc <> 0) by (apply gf256_add_neq_0; assumption).
  assert (ND : gf256_add xj yj <> 0) by (apply gf256_add_neq_0; assumption).
  specialize (H ltac:(apply gf_neq_0; exact NA) ltac:(apply gf_neq_0; exact NB)
                ltac:(apply gf_neq_0; exact NC) ltac:(apply gf_neq_0; exact ND)
                ltac:(apply gf_neq_0; exact Hrj0)
                ltac:(apply gf_neq_0; exact Hsj0)).
  assert (NP : gf256_mul (gf256_mul rj sj) (gf256_inv (gf256_add xj yj))
               <> 0).
  { apply gf256_mul_neq_0; auto with bytes.
    - apply gf256_mul_neq_0; assumption.
    - apply gf256_inv_neq_0; auto with bytes. }
  apply (f_equal gf_val) in H.
  cbn [gf_val gfadd gfmul gf_of] in H.
  repeat (rewrite !gf_val_inv in H
            by (cbn [gf_val gfadd gfmul gf_of];
                rewrite ?gf_val_inv
                  by (cbn [gf_val gfadd gfmul gf_of]; assumption);
                cbn [gf_val gfadd gfmul gf_of]; assumption);
          cbn [gf_val gfadd gfmul gf_of] in H).
  exact H.
Qed.

End Schur.

(* ================================================================= *)
(** ** The general decoder: Gaussian elimination *)

Section Gauss.
Context {ctx : gf256_ctx}.
Variable d : Decoder.t.

Let n := length (Decoder.Recovery d).
Let Bz := BlockBytes (Decoder.Params d).
Let B := Z.to_nat Bz.
Let rp := Decoder.Recovery_at d.

Hypothesis rp_NoDup : NoDup (Decoder.Recovery d).
Hypothesis n_small : (n <= 256)%nat.

Local Abbreviation wf := (elim_wf d).
Local Abbreviation Mat := (M d).
Local Abbreviation prow := (pivot_row d).
Local Abbreviation pblock := (pivot_block d).

Lemma Decode_pivot_spec (j : nat) (st : Decoder.elim) :
  wf st -> (j < n)%nat ->
  let st' := Decoder.Decode_pivot d j j j (Mat st j j) st in
  wf st' /\
  Decoder.el_pivots st' = Decoder.el_pivots st /\
  length (Decoder.el_blocks st') = length (Decoder.el_blocks st) /\
  (forall a c, (a < n)%nat -> (c < n)%nat ->
     Mat st' a c =
     if (j <? c)%nat then
       if (a =? j)%nat then prow j st c
       else if (j <? a)%nat
            then gf256_add (Mat st a c) (gf256_mul (Mat st a j) (prow j st c))
            else Mat st a c
     else Mat st a c) /\
  block_at (Decoder.el_blocks st') (rp j) =
    {| Block := pblock j st;
       Index := nth j (Decoder.ErasuresIndices d) 0 |} /\
  (forall k, (j < k < n)%nat ->
     block_at (Decoder.el_blocks st') (rp k) =
     store_Block (fun b => gf256_muladd_mem b (Mat st k j) (pblock j st) Bz)
       (block_at (Decoder.el_blocks st) (rp k))) /\
  (forall pos, (forall k, (j <= k < n)%nat -> pos <> rp k) ->
     block_at (Decoder.el_blocks st') pos =
     block_at (Decoder.el_blocks st) pos).
Proof.
  intros Hwf Hj. cbv zeta. rewrite Decode_pivot_eq.
  destruct (pivot_head_spec d n_small j st Hwf Hj)
    as [Hwf0 [P0 [L0 [M0 [B0 F0]]]]].
  cbv zeta in Hwf0, P0, L0, M0, B0, F0.
  set (st0 := pivot_head d j (Mat st j j) st) in *.
  destruct (pivot_loop_spec d rp_NoDup n_small j (n - j - 1) (j + 1) st0 Hwf0
              ltac:(lia) ltac:(fold n; lia))
    as [Hwf' [P' [L' [M' [B' F']]]]].
  cbv zeta in Hwf', P', L', M', B', F'.
  fold n.
  split; [exact Hwf'|]. split; [congruence|]. split; [congruence|].
  split; [|split; [|split]].
  - intros a c Ha Hc. rewrite (M' a c Ha Hc).
    rewrite !M0 by (fold n; lia).
    replace (j <? j)%nat with false by (symmetry; apply Nat.ltb_irrefl).
    rewrite Nat.eqb_refl, !andb_false_r. cbn [andb].
    destruct (Nat.ltb_spec j c) as [Hjc|Hjc]; rewrite ?andb_false_r.
    + destruct (Nat.eqb_spec a j) as [->|Hne].
      * replace (j + 1 <=? j)%nat with false
          by (symmetry; apply Nat.leb_gt; lia).
        reflexivity.
      * cbn [andb].
        destruct (Nat.leb_spec (j + 1) a), (Nat.ltb_spec j a); try lia;
          reflexivity.
    + destruct (a =? j)%nat; reflexivity.
  - rewrite F'; [exact B0|].
    intros k Hk E. apply (rp_inj d rp_NoDup) in E; fold n; lia.
  - intros k Hk. rewrite B' by (fold n; lia).
    rewrite B0. cbn [Block].
    rewrite F0 by (intro E; apply (rp_inj d rp_NoDup) in E; fold n; lia).
    rewrite M0 by (fold n; lia).
    replace (j <? j)%nat with false by (symmetry; apply Nat.ltb_irrefl).
    rewrite andb_false_r. reflexivity.
  - intros pos Hpos. rewrite F'.
    + apply F0. apply Hpos. lia.
    + intros k Hk. apply Hpos. fold n in Hk. lia.
Qed.

Lemma Decode_hunt_first (j : nat) (st : Decoder.elim) :
  wf st -> (j < n)%nat -> Mat st j j <> 0 ->
  Decoder.Decode_hunt d (n - j) j j st =
  Decoder.Decode_pivot d j j j (Mat st j j) st.
Proof.
  intros [Wp Wm Wb] Hj Hne.
  replace (n - j)%nat with (S (n - j - 1)) by lia.
  cbn [Decoder.Decode_hunt]. rewrite Wp by exact Hj. rewrite Nat2Z.id.
  unfold M, matrix_at in Hne |- *.
  apply Z.eqb_neq in Hne. cbv zeta. rewrite Hne. reflexivity.
Qed.

(** *** The invariant of the elimination *)

Variables xs ys : nat -> Z.
Hypothesis xs_byte : forall a, (a < n)%nat -> is_byte (xs a).
Hypothesis ys_byte : forall c, (c < n)%nat -> is_byte (ys c).
Hypothesis xs_ys : forall a c, (a < n)%nat -> (c < n)%nat -> xs a <> ys c.
Hypothesis xs_inj :
  forall a b, (a < n)%nat -> (b < n)%nat -> xs a = xs b -> a = b.
Hypothesis ys_inj :
  forall a b, (a < n)%nat -> (b < n)%nat -> ys a = ys b -> a = b.

(** From column [j] on, element [(a, c)] is [r_a . s_c / (x_a + y_c)]. *)
Definition cauchy_form (j : nat) (st : Decoder.elim) : Prop :=
  exists rr ss : nat -> Z,
    (forall a, (j <= a < n)%nat -> is_byte (rr a) /\ rr a <> 0) /\
    (forall c, (j <= c < n)%nat -> is_byte (ss c) /\ ss c <> 0) /\
    forall a c, (j <= a < n)%nat -> (j <= c < n)%nat ->
      Mat st a c =
      gf256_mul (gf256_mul (rr a) (ss c))
                (gf256_inv (gf256_add (xs a) (ys c))).

Record gauss_inv (j : nat) (st : Decoder.elim) : Prop := {
  gi_wf : wf st;
  gi_bytes : forall a c, (a < n)%nat -> (c < n)%nat -> is_byte (Mat st a c);
  gi_form : cauchy_form j st
}.

Lemma cauchy_form_neq_0 j st a c :
  cauchy_form j st -> (j <= a < n)%nat -> (j <= c < n)%nat ->
  Mat st a c <> 0.
Proof.
  intros [rr [ss [Hr [Hs HM]]]] Ha Hc. rewrite (HM a c Ha Hc).
  destruct (Hr a Ha), (Hs c Hc).
  assert (is_byte (xs a)) by (apply xs_byte; lia).
  assert (is_byte (ys c)) by (apply ys_byte; lia).
  apply gf256_mul_neq_0; auto with bytes.
  - apply gf256_inv_byte; auto with bytes.
    apply gf256_add_neq_0, xs_ys; lia.
  - apply gf256_mul_neq_0; assumption.
  - apply gf256_inv_neq_0; auto with bytes.
    apply gf256_add_neq_0, xs_ys; lia.
Qed.

Lemma pivot_row_scaled j st c :
  is_byte (Mat st j c) ->
  prow j st c = gf256_mul (gf256_inv (Mat st j j)) (Mat st j c).
Proof.
  intro Hb. unfold pivot_row. destruct (Z.eqb_spec (Mat st j j) 1) as [E|E].
  - rewrite E, gf256_inv_1, gf256_mul_1_l by exact Hb. reflexivity.
  - reflexivity.
Qed.

Lemma gauss_inv_step j st :
  gauss_inv j st -> (j < n)%nat ->
  Mat st j j <> 0 /\
  gauss_inv (S j) (Decoder.Decode_pivot d j j j (Mat st j j) st).
Proof.
  intros [Hwf Hbytes Hform] Hj.
  assert (He : Mat st j j <> 0)
    by (apply (cauchy_form_neq_0 j); [exact Hform|lia|lia]).
  split; [exact He|].
  destruct (Decode_pivot_spec j st Hwf Hj) as [Hwf' [_ [_ [HM' _]]]].
  cbv zeta in Hwf', HM'.
  assert (Hinv : is_byte (gf256_inv (Mat st j j)))
    by (apply gf256_inv_byte; [apply Hbytes; lia|exact He]).
  assert (Hrow : forall c, (c < n)%nat -> is_byte (prow j st c)).
  { intros c Hc. rewrite pivot_row_scaled by (apply Hbytes; lia).
    apply gf256_mul_byte; [exact Hinv|apply Hbytes; lia]. }
  constructor.
  - exact Hwf'.
  - intros a c Ha Hc. rewrite (HM' a c Ha Hc).
    destruct (j <? c)%nat; [|apply Hbytes; assumption].
    destruct (a =? j)%nat; [apply Hrow; assumption|].
    destruct (j <? a)%nat; [|apply Hbytes; assumption].
    apply gf256_add_byte; [apply Hbytes; assumption|].
    apply gf256_mul_byte; [apply Hbytes; lia|apply Hrow; assumption].
  - destruct Hform as [rr [ss [Hr [Hs HM]]]].
    exists (fun a => gf256_mul (gf256_mul (rr a) (gf256_add (xs a) (xs j)))
                       (gf256_inv (gf256_add (xs a) (ys j)))),
           (fun c => gf256_mul (gf256_mul (ss c) (gf256_add (ys c) (ys j)))
                       (gf256_inv (gf256_add (xs j) (ys c)))).
    split; [|split].
    + intros a Ha. destruct (Hr a ltac:(lia)) as [Hra Hra0].
      assert (is_byte (xs a)) by (apply xs_byte; lia).
      assert (is_byte (xs j)) by (apply xs_byte; lia).
      assert (is_byte (ys j)) by (apply ys_byte; lia).
      assert (gf256_add (xs a) (ys j) <> 0)
        by (apply gf256_add_neq_0, xs_ys; lia).
      assert (gf256_add (xs a) (xs j) <> 0).
      { apply gf256_add_neq_0. intro E. apply xs_inj in E; lia. }
      split.
      * auto with bytes.
      * apply gf256_mul_neq_0; auto with bytes.
        -- apply gf256_mul_neq_0; auto with bytes.
        -- apply gf256_inv_neq_0; auto with bytes.
    + intros c Hc. destruct (Hs c ltac:(lia)) as [Hsc Hsc0].
      assert (is_byte (ys c)) by (apply ys_byte; lia).
      assert (is_byte (xs j)) by (apply xs_byte; lia).
      assert (is_byte (ys j)) by (apply ys_byte; lia).
      assert (gf256_add (xs j) (ys c) <> 0)
        by (apply gf256_add_neq_0, xs_ys; lia).
      assert (gf256_add (ys c) (ys j) <> 0).
      { apply gf256_add_neq_0. intro E. apply ys_inj in E; lia. }
      split.
      * auto with bytes.
      * apply gf256_mul_neq_0; auto with bytes.
        -- apply gf256_mul_neq_0; auto with bytes.
        -- apply gf256_inv_neq_0; auto with bytes.
    + intros a c Ha Hc. rewrite (HM' a c) by lia.
      replace (j <? c)%nat with true by (symmetry; apply Nat.ltb_lt; lia).
      replace (a =? j)%nat with false by (symmetry; apply Nat.eqb_neq; lia).
      replace (j <? a)%nat with true by (symmetry; apply Nat.ltb_lt; lia).
      rewrite pivot_row_scaled by (apply Hbytes; lia).
      rewrite (HM a c), (HM a j), (HM j j), (HM j c) by lia.
      destruct (Hr a ltac:(lia)), (Hr j ltac:(lia)),
               (Hs c ltac:(lia)), (Hs j ltac:(lia)).
      apply schur_bytes; try assumption;
        try (apply xs_byte; lia); try (apply ys_byte; lia);
        try (apply xs_ys; lia).
Qed.

End Gauss.

Section GaussData.
Context {ctx : gf256_ctx}.
Variable d : Decoder.t.

Let n := length (Decoder.Recovery d).
Let Bz := BlockBytes (Decoder.Params d).
Let B := Z.to_nat Bz.
Let rp := Decoder.Recovery_at d.

Hypothesis rp_NoDup : NoDup (Decoder.Recovery d).
Hypothesis n_small : (n <= 256)%nat.

Local Abbreviation Mat := (M d).

(** Byte [p] of the buffer of recovery block [t]. *)
Definition buffer_byte (st : Decoder.elim) (t p : nat) : Z :=
  nth p (Block (block_at (Decoder.el_blocks st) (rp t))) 0.

(** [x c p] is byte [p] of the original block that column [c] stands
    for. *)
Variable x : nat -> nat -> Z.
Hypothesis x_byte : forall c p, (c < n)%nat -> (p < B)%nat -> is_byte (x c p).

(** Rows below [j] are in triangular form with a unit diagonal; the
    rows from [j] on combine the columns from [j] on. *)
Record data_inv (j : nat) (st : Decoder.elim) : Prop := {
  di_length : forall t, (t < n)%nat ->
    (B <= length (Block (block_at (Decoder.el_blocks st) (rp t))))%nat;
  di_done : forall t p, (t < j)%nat -> (t < n)%nat -> (p < B)%nat ->
    buffer_byte st t p =
    gf256_add (x t p)
      (gsum (fun c => gf256_mul (Mat st t c) (x c p))
            (seq (S t) (n - S t)));
  di_active : forall t p, (j <= t < n)%nat -> (p < B)%nat ->
    buffer_byte st t p =
    gsum (fun c => gf256_mul (Mat st t c) (x c p)) (seq j (n - j))
}.

Lemma data_inv_step j st :
  elim_wf d st ->
  (forall a c, (a < n)%nat -> (c < n)%nat -> is_byte (Mat st a c)) ->
  Mat st j j <> 0 -> (j < n)%nat ->
  data_inv j st ->
  data_inv (S j) (Decoder.Decode_pivot d j j j (Mat st j j) st).
Proof.
  intros Hwf Hbytes He Hj [DL DD DA].
  destruct (Decode_pivot_spec d rp_NoDup n_small j st Hwf Hj)
    as [Hwf' [_ [_ [HM' [Bj [Bk Fr]]]]]].
  cbv zeta in Hwf', HM', Bj, Bk, Fr. fold rp in Bj, Bk, Fr.
  set (st' := Decoder.Decode_pivot d j j j (Mat st j j) st) in *.
  set (e := Mat st j j) in *.
  assert (Hbe : is_byte e) by (apply Hbytes; lia).
  assert (Hinv : is_byte (gf256_inv e))
    by (apply gf256_inv_byte; assumption).
  assert (Hrow : forall c, (c < n)%nat ->
            pivot_row d j st c = gf256_mul (gf256_inv e) (Mat st j c)).
  { intros c Hc. apply pivot_row_scaled. apply Hbytes; lia. }
  assert (Hrowb : forall c, (c < n)%nat -> is_byte (pivot_row d j st c)).
  { intros c Hc. rewrite Hrow by exact Hc.
    apply gf256_mul_byte; [exact Hinv|apply Hbytes; lia]. }
  (* the terms of the sums are bytes *)
  assert (Hterm : forall a c p, (a < n)%nat -> (c < n)%nat -> (p < B)%nat ->
            is_byte (gf256_mul (Mat st a c) (x c p))).
  { intros a c p Ha Hc Hp. apply gf256_mul_byte; [apply Hbytes|apply x_byte];
      assumption. }
  assert (Hbuf : forall t p, (j <= t < n)%nat -> (p < B)%nat ->
            is_byte (buffer_byte st t p)).
  { intros t p Ht Hp. rewrite DA by assumption. apply gsum_byte.
    intros c Hc. apply in_seq in Hc. apply Hterm; lia. }
  (* the pivot block, byte by byte *)
  assert (Hpb : forall p, (p < B)%nat ->
            nth p (pivot_block d j st) 0 =
            gf256_mul (gf256_inv e) (buffer_byte st j p)).
  { intros p Hp. unfold pivot_block. fold e. fold rp. cbv zeta.
    destruct (Z.eqb_spec e 1) as [E1|E1].
    - rewrite E1, gf256_inv_1. fold (buffer_byte st j p).
      rewrite gf256_mul_1_l by (apply Hbuf; lia). reflexivity.
    - unfold gf256_mul_mem. fold Bz B. pose proof (DL j Hj) as DLj.
      rewrite mem_op_nth_in by lia. reflexivity. }
  assert (Hsplit : forall t p, (j <= t < n)%nat -> (p < B)%nat ->
            buffer_byte st t p =
            gf256_add (gf256_mul (Mat st t j) (x j p))
              (gsum (fun c => gf256_mul (Mat st t c) (x c p))
                    (seq (S j) (n - S j)))).
  { intros t p Ht Hp. rewrite DA by assumption.
    replace (n - j)%nat with (S (n - S j)) by lia. reflexivity. }
  assert (Hnew : forall p, (p < B)%nat ->
            buffer_byte st' j p =
            gf256_add (x j p)
              (gsum (fun c => gf256_mul (pivot_row d j st c) (x c p))
                    (seq (S j) (n - S j)))).
  { intros p Hp. unfold buffer_byte. rewrite Bj. cbn [Block].
    rewrite Hpb, Hsplit by (try lia; assumption).
    rewrite gf256_mul_add_distr_l; auto with bytes.
    2:{ apply gsum_byte. intros c Hc. apply in_seq in Hc. apply Hterm; lia. }
    fold e. rewrite gf256_mul_assoc, gf256_mul_inv_l, gf256_mul_1_l;
      auto with bytes.
    f_equal. rewrite <- gsum_scale; auto with bytes.
    2:{ intros c Hc. apply in_seq in Hc. apply Hterm; lia. }
    apply gsum_ext. intros c Hc. apply in_seq in Hc.
    rewrite Hrow by lia.
    apply gf256_mul_assoc; [exact Hinv|apply Hbytes; lia|apply x_byte; lia]. }
  constructor.
  - intros t Ht.
    destruct (Nat.lt_trichotomy t j) as [Hlt|[->|Hgt]].
    + rewrite Fr; [apply DL, Ht|].
      intros k Hk E. apply (rp_inj d rp_NoDup) in E; fold n; lia.
    + rewrite Bj. cbn [Block]. unfold pivot_block. cbv zeta.
      destruct (_ =? 1); [apply DL, Ht|].
      unfold gf256_mul_mem. rewrite mem_op_length. apply DL, Ht.
    + rewrite Bk by lia. cbn [store_Block Block].
      unfold gf256_muladd_mem. rewrite mem_op_length. apply DL, Ht.
  - intros t p Ht Htn Hp.
    destruct (Nat.eq_dec t j) as [->|Hne].
    + rewrite Hnew by exact Hp. f_equal.
      apply gsum_ext. intros c Hc. apply in_seq in Hc.
      rewrite (HM' j c) by lia.
      replace (j <? c)%nat with true by (symmetry; apply Nat.ltb_lt; lia).
      rewrite Nat.eqb_refl. reflexivity.
    + unfold buffer_byte. rewrite Fr.
      2:{ intros k Hk E. apply (rp_inj d rp_NoDup) in E; fold n; lia. }
      fold (buffer_byte st t p). rewrite DD by (try lia; assumption).
      f_equal. apply gsum_ext. intros c Hc. apply in_seq in Hc.
      rewrite (HM' t c) by lia.
      replace (t =? j)%nat with false by (symmetry; apply Nat.eqb_neq; lia).
      replace (j <? t)%nat with false by (symmetry; apply Nat.ltb_ge; lia).
      destruct (j <? c)%nat; reflexivity.
  - intros t p Ht Hp.
    unfold buffer_byte. rewrite Bk by lia.
    cbn [store_Block Block]. unfold gf256_muladd_mem. fold Bz B.
    pose proof (DL t ltac:(lia)) as DLt.
    rewrite mem_op_nth_in by lia.
    fold (buffer_byte st t p).
    assert (Hj' : nth p (pivot_block d j st) 0 = buffer_byte st' j p).
    { unfold buffer_byte. rewrite Bj. reflexivity. }
    rewrite Hj', Hnew, Hsplit by (try lia; assumption).
    assert (HS : is_byte
              (gsum (fun c => gf256_mul (pivot_row d j st c) (x c p))
                    (seq (S j) (n - S j)))).
    { apply gsum_byte. intros c Hc. apply in_seq in Hc.
      apply gf256_mul_byte; [apply Hrowb|apply x_byte]; lia. }
    rewrite gf256_mul_add_distr_l;
      [|apply Hbytes; lia|apply x_byte; lia|exact HS].
    rewrite <- gsum_scale.
    2:{ apply Hbytes; lia. }
    2:{ intros c Hc. apply in_seq in Hc.
        apply gf256_mul_byte; [apply Hrowb|apply x_byte]; lia. }
    transitivity
      (gf256_add
         (gsum (fun c => gf256_mul (Mat st t c) (x c p)) (seq (S j) (n - S j)))
         (gsum (fun c => gf256_mul (Mat st t j)
                           (gf256_mul (pivot_row d j st c) (x c p)))
               (seq (S j) (n - S j)))).
    { unfold gf256_add. xor_bits. }
    rewrite <- gsum_add. apply gsum_ext. intros c Hc. apply in_seq in Hc.
    rewrite (HM' t c) by lia.
    replace (j <? c)%nat with true by (symmetry; apply Nat.ltb_lt; lia).
    replace (t =? j)%nat with false by (symmetry; apply Nat.eqb_neq; lia).
    replace (j <? t)%nat with true by (symmetry; apply Nat.ltb_lt; lia).
    rewrite gf256_mul_add_distr_r;
      [|apply Hbytes; lia
       |apply gf256_mul_byte; [apply Hbytes|apply Hrowb]; lia
       |apply x_byte; lia].
    f_equal.
    apply gf256_mul_assoc;
      [apply Hbytes; lia|apply Hrowb; lia|apply x_byte; lia].
Qed.

End GaussData.

Section GaussLoop.
Context {ctx : gf256_ctx}.
Variable d : Decoder.t.

Let n := length (Decoder.Recovery d).
Let Bz := BlockBytes (Decoder.Params d).
Let B := Z.to_nat Bz.
Let rp := Decoder.Recovery_at d.

Hypothesis rp_NoDup : NoDup (Decoder.Recovery d).
Hypothesis n_small : (n <= 256)%nat.

Variables xs ys : nat -> Z.
Hypothesis xs_byte : forall a, (a < n)%nat -> is_byte (xs a).
Hypothesis ys_byte : forall c, (c < n)%nat -> is_byte (ys c).
Hypothesis xs_ys : forall a c, (a < n)%nat -> (c < n)%nat -> xs a <> ys c.
Hypothesis xs_inj :
  forall a b, (a < n)%nat -> (b < n)%nat -> xs a = xs b -> a = b.
Hypothesis ys_inj :
  forall a b, (a < n)%nat -> (b < n)%nat -> ys a = ys b -> a = b.

Variable x : nat -> nat -> Z.
Hypothesis x_byte : forall c p, (c < n)%nat -> (p < B)%nat -> is_byte (x c p).

Local Abbreviation Mat := (M d).
Local Abbreviation ginv := (gauss_inv d xs ys).
Local Abbreviation dinv := (data_inv d x).

(** The columns [0 .. t-1] of "Gaussian elimination". *)
Definition gauss_prefix (t : nat) (st : Decoder.elim) : Decoder.elim :=
  fold_left (fun st j => Decoder.Decode_hunt d (n - j) j j st) (seq 0 t) st.

Lemma gauss_prefix_spec (t : nat) (st : Decoder.elim) :
  (t <= n)%nat -> ginv 0 st ->
  let st' := gauss_prefix t st in
  ginv t st' /\
  length (Decoder.el_blocks st') = length (Decoder.el_blocks st) /\
  (forall pos, (forall k, (k < n)%nat -> pos <> rp k) ->
     block_at (Decoder.el_blocks st') pos =
     block_at (Decoder.el_blocks st) pos) /\
  (forall k, (k < t)%nat ->
     Index (block_at (Decoder.el_blocks st') (rp k)) =
     nth k (Decoder.ErasuresIndices d) 0) /\
  (forall k, (t <= k < n)%nat ->
     Index (block_at (Decoder.el_blocks st') (rp k)) =
     Index (block_at (Decoder.el_blocks st) (rp k))) /\
  (forall k, (k < n)%nat ->
     length (Block (block_at (Decoder.el_blocks st') (rp k))) =
     length (Block (block_at (Decoder.el_blocks st) (rp k)))) /\
  (dinv 0 st -> dinv t st').
Proof.
  intros Ht H0. induction t as [|t IH]; cbv zeta.
  - unfold gauss_prefix. simpl. split; [exact H0|].
    split; [reflexivity|]. split; [reflexivity|].
    split; [intros k Hk; lia|]. split; [reflexivity|].
    split; [reflexivity|]. exact (fun H => H).
  - destruct (IH ltac:(lia)) as [G [L [F [I1 [I2 [LB D]]]]]].
    cbv zeta in G, L, F, I1, I2, LB, D.
    unfold gauss_prefix in *. rewrite seq_S, fold_left_app.
    cbn [fold_left]. simpl (0 + t)%nat.
    set (st1 := fold_left _ (seq 0 t) st) in *.
    destruct (gauss_inv_step d rp_NoDup n_small xs ys xs_byte ys_byte xs_ys
                xs_inj ys_inj t st1 G ltac:(fold n; lia)) as [He G'].
    fold n.
    rewrite Decode_hunt_first
      by first [assumption | exact (gi_wf _ _ _ _ _ G) | fold n; lia].
    destruct (Decode_pivot_spec d rp_NoDup n_small t st1
                (gi_wf _ _ _ _ _ G) ltac:(fold n; lia))
      as [_ [_ [L' [_ [Bj [Bk Fr]]]]]].
    cbv zeta in L', Bj, Bk, Fr. fold rp n in Bj, Bk, Fr.
    set (st2 := Decoder.Decode_pivot d t t t (Mat st1 t t) st1) in *.
    split; [exact G'|]. split; [congruence|].
    split; [|split; [|split; [|split]]].
    + intros pos Hpos. rewrite Fr, F; [reflexivity|exact Hpos|].
      intros k Hk. apply Hpos. lia.
    + intros k Hk. destruct (Nat.eq_dec k t) as [->|Hne].
      * rewrite Bj. reflexivity.
      * rewrite Fr; [apply I1; lia|].
        intros k' Hk' E. apply (rp_inj d rp_NoDup) in E; fold n; lia.
    + intros k Hk. rewrite Bk by lia. cbn [store_Block Index].
      apply I2. lia.
    + intros k Hk. rewrite <- LB by exact Hk.
      destruct (Nat.lt_trichotomy k t) as [Hlt|[->|Hgt]].
      * rewrite Fr; [reflexivity|].
        intros k' Hk' E. apply (rp_inj d rp_NoDup) in E; fold n; lia.
      * rewrite Bj. cbn [Block]. unfold pivot_block. cbv zeta.
        destruct (_ =? 1); [reflexivity|].
        unfold gf256_mul_mem. apply mem_op_length.
      * rewrite Bk by lia. cbn [store_Block Block].
        unfold gf256_muladd_mem. apply mem_op_length.
    + intro D0. apply (data_inv_step d rp_NoDup n_small x x_byte t st1).
      * exact (gi_wf _ _ _ _ _ G).
      * exact (gi_bytes _ _ _ _ _ G).
      * exact He.
      * fold n; lia.
      * apply D, D0.
Qed.

(** *** Back-substitution *)

Variable st : Decoder.elim.
Hypothesis st_wf : elim_wf d st.

Definition backsub_inner (j : nat) (blocks : list cm256_block) (k : nat)
  : list cm256_block :=
  let jIndex := Z.to_nat (nth j (Decoder.el_pivots st) 0) in
  let kIndex := Z.to_nat (nth k (Decoder.el_pivots st) 0) in
  update_nth (rp jIndex)
    (store_Block (fun b =>
       gf256_muladd_mem b
         (nth (jIndex * n + k) (Decoder.el_matrix st) 0)
         (Block (block_at blocks (rp kIndex))) Bz)) blocks.

Definition row_byte (blocks : list cm256_block) (t p : nat) : Z :=
  nth p (Block (block_at blocks (rp t))) 0.

Lemma backsub_inner_spec (j : nat) (l : list nat) :
  forall blocks,
  (j < n)%nat -> (forall k, In k l -> (k < n)%nat /\ k <> j) ->
  (rp j < length blocks)%nat ->
  let blocks' := fold_left (backsub_inner j) l blocks in
  length blocks' = length blocks /\
  (forall pos, pos <> rp j -> block_at blocks' pos = block_at blocks pos) /\
  Index (block_at blocks' (rp j)) = Index (block_at blocks (rp j)) /\
  length (Block (block_at blocks' (rp j))) =
    length (Block (block_at blocks (rp j))) /\
  (forall p, (p < B)%nat ->
     (p < length (Block (block_at blocks (rp j))))%nat ->
     row_byte blocks' j p =
     gf256_add (row_byte blocks j p)
       (gsum (fun k => gf256_mul (Mat st j k) (row_byte blocks k p)) l)).
Proof.
  induction l as [|k l IH]; intros blocks Hj Hl Hr; cbv zeta.
  - simpl. repeat split; try reflexivity.
    intros p Hp Hlen. rewrite gsum_nil, gf256_add_0_r. reflexivity.
  - cbn [fold_left].
    destruct (Hl k (or_introl eq_refl)) as [Hk Hkj].
    assert (E1 : backsub_inner j blocks k =
                 update_nth (rp j)
                   (store_Block (fun b =>
                      gf256_muladd_mem b (Mat st j k)
                        (Block (block_at blocks (rp k))) Bz)) blocks).
    { unfold backsub_inner.
      rewrite !(wf_pivots d st st_wf) by assumption.
      rewrite !Nat2Z.id. reflexivity. }
    rewrite E1. set (blocks1 := update_nth (rp j) _ blocks).
    assert (L1 : length blocks1 = length blocks)
      by (unfold blocks1; apply update_nth_length).
    destruct (IH blocks1 Hj) as [L [F [I [LB W]]]].
    { intros k' Hk'. apply Hl. right; exact Hk'. }
    { rewrite L1. exact Hr. }
    cbv zeta in L, F, I, LB, W.
    assert (Bj1 : block_at blocks1 (rp j) =
                  store_Block (fun b =>
                    gf256_muladd_mem b (Mat st j k)
                      (Block (block_at blocks (rp k))) Bz)
                    (block_at blocks (rp j))).
    { unfold blocks1. apply block_at_update_same. exact Hr. }
    assert (F1 : forall pos, pos <> rp j ->
                 block_at blocks1 pos = block_at blocks pos).
    { intros pos Hpos. unfold blocks1. apply block_at_update_other, Hpos. }
    split; [congruence|]. split; [|split; [|split]].
    + intros pos Hpos. rewrite F, F1 by exact Hpos. reflexivity.
    + rewrite I, Bj1. reflexivity.
    + rewrite LB, Bj1. cbn [store_Block Block].
      unfold gf256_muladd_mem. apply mem_op_length.
    + intros p Hp Hlen. rewrite W.
      2:{ exact Hp. }
      2:{ rewrite Bj1. cbn [store_Block Block].
          unfold gf256_muladd_mem. rewrite mem_op_length. exact Hlen. }
      rewrite gsum_cons. unfold row_byte at 1. rewrite Bj1.
      cbn [store_Block Block]. unfold gf256_muladd_mem. fold Bz B.
      rewrite mem_op_nth_in by assumption.
      fold (row_byte blocks j p) (row_byte blocks k p).
      rewrite <- gf256_add_assoc. f_equal. f_equal.
      apply gsum_ext. intros k' Hk'. unfold row_byte.
      rewrite F1; [reflexivity|].
      intro E. apply (rp_inj d rp_NoDup) in E; fold n;
        destruct (Hl k' (or_intror Hk')); try lia.
Qed.

Definition backsub_outer (blocks : list cm256_block) (j : nat)
  : list cm256_block :=
  fold_left (backsub_inner j) (rev (seq (j + 1) (n - 1 - j))) blocks.

Lemma Decode_back_substitute_eq :
  Decoder.Decode_back_substitute d st =
  fold_left backsub_outer (rev (seq 0 (n - 1))) (Decoder.el_blocks st).
Proof. reflexivity. Qed.

Lemma backsub_spec (m : nat) :
  forall blocks,
  (m <= n)%nat ->
  (forall k, (k < n)%nat -> (rp k < length blocks)%nat) ->
  let blocks' := fold_left backsub_outer (rev (seq 0 m)) blocks in
  length blocks' = length blocks /\
  (forall pos, (forall k, (k < n)%nat -> pos <> rp k) ->
     block_at blocks' pos = block_at blocks pos) /\
  (forall pos, Index (block_at blocks' pos) = Index (block_at blocks pos)) /\
  (forall k, (k < n)%nat ->
     length (Block (block_at blocks' (rp k))) =
     length (Block (block_at blocks (rp k)))) /\
  ((forall k, (k < n)%nat ->
      (B <= length (Block (block_at blocks (rp k))))%nat) ->
   (forall t p, (m <= t < n)%nat -> (p < B)%nat ->
      row_byte blocks t p = x t p) ->
   (forall t p, (t < m)%nat -> (p < B)%nat ->
      row_byte blocks t p =
      gf256_add (x t p)
        (gsum (fun c => gf256_mul (Mat st t c) (x c p))
              (seq (S t) (n - S t)))) ->
   forall t p, (t < n)%nat -> (p < B)%nat -> row_byte blocks' t p = x t p).
Proof.
  induction m as [|m IH]; intros blocks Hm Hr; cbv zeta.
  - simpl. repeat split; try reflexivity.
    intros _ Hs _ t p Ht Hp. apply Hs; [lia|exact Hp].
  - rewrite seq_S, rev_app_distr. simpl (0 + m)%nat.
    cbn [rev app fold_left].
    unfold backsub_outer at 2.
    destruct (backsub_inner_spec m (rev (seq (m + 1) (n - 1 - m))) blocks
                ltac:(lia)) as [L1 [F1 [I1 [LB1 W1]]]].
    { intros k Hk. apply in_rev, in_seq in Hk. lia. }
    { apply Hr. lia. }
    cbv zeta in L1, F1, I1, LB1, W1.
    set (blocks1 := fold_left (backsub_inner m) _ blocks) in *.
    destruct (IH blocks1 ltac:(lia)) as [L [F [I [LB D]]]].
    { intros k Hk. rewrite L1. apply Hr, Hk. }
    cbv zeta in L, F, I, LB, D.
    assert (Hother : forall t, (t < n)%nat -> t <> m ->
              block_at blocks1 (rp t) = block_at blocks (rp t)).
    { intros t Ht Hne. apply F1. intro E.
      apply (rp_inj d rp_NoDup) in E; fold n; lia. }
    split; [congruence|]. split; [|split; [|split]].
    + intros pos Hpos. rewrite F by exact Hpos. apply F1. apply Hpos. lia.
    + intro pos. rewrite I. destruct (Nat.eq_dec pos (rp m)) as [->|Hne].
      * exact I1.
      * rewrite F1 by exact Hne. reflexivity.
    + intros k Hk. rewrite LB by exact Hk.
      destruct (Nat.eq_dec k m) as [->|Hne].
      * exact LB1.
      * rewrite Hother by assumption. reflexivity.
    + intros Hlen Hs Ht. apply D.
      * intros k Hk. destruct (Nat.eq_dec k m) as [->|Hne].
        -- rewrite LB1. apply Hlen, Hk.
        -- rewrite Hother by assumption. apply Hlen, Hk.
      * intros t p Htm Hp. destruct (Nat.eq_dec t m) as [->|Hne].
        -- pose proof (Hlen m ltac:(lia)) as Hlm.
           rewrite W1 by lia.
           rewrite Ht by (try lia; exact Hp).
           rewrite (gsum_perm _ (rev (seq (m + 1) (n - 1 - m)))
                      (seq (S m) (n - S m))).
           2:{ replace (m + 1)%nat with (S m) by lia.
               replace (n - 1 - m)%nat with (n - S m)%nat by lia.
               apply Permutation_sym, Permutation_rev. }
           rewrite (gsum_ext
                      (fun k => gf256_mul (Mat st m k) (row_byte blocks k p))
                      (fun c => gf256_mul (Mat st m c) (x c p))).
           2:{ intros k Hk. apply in_seq in Hk. rewrite Hs by (try lia; exact Hp).
               reflexivity. }
           rewrite <- gf256_add_assoc, gf256_add_nilpotent, gf256_add_0_r.
           reflexivity.
        -- unfold row_byte. rewrite Hother by lia.
           apply Hs; [lia|exact Hp].
      * intros t p Htm Hp. unfold row_byte. rewrite Hother by lia.
        apply Ht; [lia|exact Hp].
Qed.

End GaussLoop.

(* ================================================================= *)
(** ** The general decoder on a valid input *)

Section DecodeValid.
Context {ctx : gf256_ctx}.
Variable uninit : list Z.
Variable params : cm256_encoder_params.
Variable blocks : list cm256_block.

Hypothesis Hparams : valid_params params.
Hypothesis Hblocks : valid_blocks params blocks.
Hypothesis Huninit : length uninit = 256%nat.

Let d := Decoder.Initialize uninit params blocks.
Let K := OriginalCount params.
Let k := Z.to_nat K.
Let n := length (Decoder.Recovery d).
Let B := Z.to_nat (BlockBytes params).
Let rp := Decoder.Recovery_at d.

(** The field point of recovery row [a] and of column [c]. *)
Definition row_point (a : nat) : Z := Index (block_at blocks (rp a)).
Definition column_point (c : nat) : Z :=
  Z.of_nat (nth c (erased_rows params blocks) 0%nat).

Lemma valid_Params : Decoder.Params d = params.
Proof. apply Initialize_partition. Qed.

Lemma valid_Recovery : Decoder.Recovery d = recovery_positions params blocks.
Proof. apply Initialize_partition. Qed.

Lemma valid_Original : Decoder.Original d = original_positions params blocks.
Proof. apply Initialize_partition. Qed.

Lemma valid_K : is_byte K /\ to_uint8 K = K /\ 1 <= K.
Proof.
  unfold K. clear - Hparams. destruct Hparams as [H1 [H2 [H3 H4]]].
  assert (is_byte (OriginalCount params)) by (unfold is_byte; lia).
  split; [assumption|]. split; [apply to_uint8_small; assumption|lia].
Qed.

Lemma valid_rp_NoDup : NoDup (Decoder.Recovery d).
Proof. rewrite valid_Recovery. apply NoDup_filter, seq_NoDup. Qed.

Lemma valid_rp_range r : In r (Decoder.Recovery d) -> (r < k)%nat.
Proof.
  rewrite valid_Recovery. unfold recovery_positions. rewrite filter_In, in_seq.
  fold K k. lia.
Qed.

Lemma valid_length : length blocks = k.
Proof. apply Hblocks. Qed.

Lemma valid_n : (n <= k)%nat /\ (k <= 255)%nat.
Proof.
  pose proof (positions_length params blocks) as H.
  unfold n. rewrite valid_Recovery. fold K k in H.
  destruct Hparams as [H1 [H2 [H3 H4]]]. fold K in H1, H3.
  split; [lia|unfold k; lia].
Qed.

Lemma valid_Original_not_Recovery o :
  In o (Decoder.Original d) -> ~ In o (Decoder.Recovery d).
Proof.
  rewrite valid_Original, valid_Recovery.
  unfold original_positions, recovery_positions. rewrite !filter_In.
  intros [_ H1] [_ H2]. rewrite H1 in H2. discriminate.
Qed.

Lemma valid_rp_In a : (a < n)%nat -> In (rp a) (Decoder.Recovery d).
Proof. intro Ha. apply nth_In. exact Ha. Qed.

Lemma row_point_range a :
  (a < n)%nat -> K <= row_point a < K + RecoveryCount params.
Proof.
  intro Ha. pose proof (valid_rp_In a Ha) as Hin.
  pose proof (valid_rp_range _ Hin) as Hr.
  rewrite valid_Recovery in Hin. unfold recovery_positions in Hin.
  apply filter_In in Hin. destruct Hin as [_ Hge].
  apply negb_true_iff, Z.ltb_ge in Hge.
  pose proof (block_index_range params blocks Hblocks (rp a) Hr) as Hrange.
  unfold row_point, K. lia.
Qed.

Lemma row_point_byte a : (a < n)%nat -> is_byte (row_point a).
Proof.
  intro Ha. pose proof (row_point_range a Ha).
  destruct Hparams as [H1 [H2 [H3 H4]]]. unfold is_byte, K in *. lia.
Qed.

Lemma row_point_inj a b :
  (a < n)%nat -> (b < n)%nat -> row_point a = row_point b -> a = b.
Proof.
  intros Ha Hb E. apply (rp_inj d valid_rp_NoDup); try assumption.
  apply (block_index_inj params blocks Hblocks).
  - apply valid_rp_range, valid_rp_In, Ha.
  - apply valid_rp_range, valid_rp_In, Hb.
  - exact E.
Qed.

Lemma erased_count : length (erased_rows params blocks) = n.
Proof.
  unfold n. rewrite valid_Recovery. apply erased_rows_count, Hblocks.
Qed.

Lemma erased_nth_In c :
  (c < n)%nat ->
  In (nth c (erased_rows params blocks) 0%nat) (erased_rows params blocks).
Proof. intro Hc. apply nth_In. rewrite erased_count. exact Hc. Qed.

Lemma column_point_range c : (c < n)%nat -> 0 <= column_point c < K.
Proof.
  intro Hc. pose proof (erased_nth_In c Hc) as Hin.
  apply erased_rows_In in Hin. destruct Hin as [Hin _].
  unfold column_point, K. lia.
Qed.

Lemma column_point_byte c : (c < n)%nat -> is_byte (column_point c).
Proof.
  intro Hc. pose proof (column_point_range c Hc).
  destruct valid_K as [HK _]. unfold is_byte in *. lia.
Qed.

Lemma column_point_inj a b :
  (a < n)%nat -> (b < n)%nat -> column_point a = column_point b -> a = b.
Proof.
  intros Ha Hb E. unfold column_point in E. apply Nat2Z.inj in E.
  assert (Hnd : NoDup (erased_rows params blocks))
    by (apply NoDup_filter, seq_NoDup).
  rewrite (NoDup_nth _ 0%nat) in Hnd.
  apply Hnd; rewrite ?erased_count; assumption.
Qed.

Lemma column_point_absent c :
  (c < n)%nat -> ~ In (column_point c) (map Index blocks).
Proof.
  intro Hc. pose proof (erased_nth_In c Hc) as Hin.
  apply erased_rows_In in Hin. apply Hin.
Qed.

Lemma row_column_neq a c :
  (a < n)%nat -> (c < n)%nat -> row_point a <> column_point c.
Proof.
  intros Ha Hc. pose proof (row_point_range a Ha).
  pose proof (column_point_range c Hc). lia.
Qed.

Lemma valid_erasures c :
  (c < n)%nat -> nth c (Decoder.ErasuresIndices d) 0 = column_point c.
Proof.
  intro Hc. unfold d, column_point.
  apply Initialize_erasures_spec; try assumption.
  rewrite <- valid_Recovery. exact Hc.
Qed.

(** The state in which the elimination starts. *)
Definition eliminated : list cm256_block :=
  Decoder.Decode_eliminate_originals d K blocks.

Definition start_state : Decoder.elim :=
  {| Decoder.el_blocks := eliminated;
     Decoder.el_matrix := Decoder.Decode_fill_matrix d K eliminated;
     Decoder.el_pivots := map (fun j => to_uint8 (Z.of_nat j)) (seq 0 k) |}.

Lemma Decode_eq :
  Decoder.Decode d blocks =
  Decoder.Decode_back_substitute d (Decoder.Decode_gauss d start_state).
Proof.
  unfold Decoder.Decode, start_state, eliminated.
  rewrite valid_Params. fold K k.
  destruct valid_K as [_ [-> _]]. reflexivity.
Qed.

Lemma eliminated_spec :
  length eliminated = length blocks /\
  (forall pos, ~ In pos (Decoder.Recovery d) ->
     block_at eliminated pos = block_at blocks pos) /\
  (forall a, (a < n)%nat ->
     Index (block_at eliminated (rp a)) = row_point a /\
     length (Block (block_at eliminated (rp a))) =
       length (Block (block_at blocks (rp a))) /\
     forall p, (p < B)%nat ->
       (p < length (Block (block_at blocks (rp a))))%nat ->
       nth p (Block (block_at eliminated (rp a))) 0 =
       gf256_add (nth p (Block (block_at blocks (rp a))) 0)
         (gsum (fun o =>
                  gf256_mul
                    (GetMatrixElement (row_point a) K
                       (Index (block_at blocks o)))
                    (nth p (Block (block_at blocks o)) 0))
               (Decoder.Original d))).
Proof.
  destruct (eliminate_originals_spec d K (Decoder.Original d) blocks
              valid_rp_NoDup valid_Original_not_Recovery) as [L [F W]].
  { intros r Hr. rewrite valid_length. apply valid_rp_range, Hr. }
  cbv zeta in L, F, W. rewrite valid_Params in W. fold B in W.
  split; [exact L|]. split; [exact F|].
  intros a Ha. apply (W (rp a)). apply valid_rp_In, Ha.
Qed.

Lemma start_matrix a c :
  (a < n)%nat -> (c < n)%nat ->
  M d start_state a c =
  GetMatrixElement (row_point a) K (column_point c).
Proof.
  intros Ha Hc. unfold M, matrix_at, start_state.
  cbn [Decoder.el_matrix].
  rewrite fill_matrix_nth by assumption. fold rp.
  destruct eliminated_spec as [_ [_ W]].
  destruct (W a Ha) as [-> _]. rewrite valid_erasures by exact Hc.
  reflexivity.
Qed.

Lemma start_ginv : gauss_inv d row_point column_point 0 start_state.
Proof.
  destruct valid_K as [HK [HK8 HK1]]. destruct valid_n as [Hnk Hk].
  destruct eliminated_spec as [L _].
  constructor.
  - constructor.
    + intros t Ht. fold n in Ht. unfold start_state. cbn [Decoder.el_pivots].
      rewrite nth_map_seq by lia. apply to_uint8_small. unfold is_byte. lia.
    + apply fill_matrix_length.
    + intros t Ht. fold n in Ht. unfold start_state. cbn [Decoder.el_blocks].
      rewrite L, valid_length. apply valid_rp_range, valid_rp_In, Ht.
  - intros a c Ha Hc. fold n in Ha, Hc. rewrite start_matrix by assumption.
    apply GetMatrixElement_byte;
      [apply row_point_byte|exact HK|apply column_point_byte|]; try assumption.
    apply row_column_neq; assumption.
  - exists (fun _ => 1), (fun c => gf256_add (column_point c) K).
    split; [|split].
    + intros a Ha. split; [exact is_byte_1|discriminate].
    + intros c Hc. fold n in Hc.
      pose proof (column_point_byte c ltac:(lia)).
      pose proof (column_point_range c ltac:(lia)).
      split; [auto with bytes|]. apply gf256_add_neq_0. lia.
    + intros a c Ha Hc. fold n in Ha, Hc.
      pose proof (column_point_byte c ltac:(lia)).
      pose proof (row_point_byte a ltac:(lia)).
      rewrite start_matrix by lia. unfold GetMatrixElement.
      rewrite gf256_div_spec, gf256_mul_1_l; auto with bytes.
      apply gf256_add_neq_0, row_column_neq; lia.
Qed.

(** What [Decode] does to the array of blocks: the blocks outside
    [Recovery] are untouched, recovery block [t] takes the index of the
    [t]-th erased row and keeps the length of its buffer; and when the
    buffers start as the combinations [sum_c M[t,c] . x_c] of some bytes
    [x], recovery block [t] ends holding [x_t]. *)
Lemma Decode_result (x : nat -> nat -> Z) :
  (forall c p, (c < n)%nat -> (p < B)%nat -> is_byte (x c p)) ->
  let blocks' := Decoder.Decode d blocks in
  length blocks' = length blocks /\
  (forall pos, ~ In pos (Decoder.Recovery d) ->
     block_at blocks' pos = block_at blocks pos) /\
  (forall t, (t < n)%nat ->
     Index (block_at blocks' (rp t)) = column_point t) /\
  (forall t, (t < n)%nat ->
     length (Block (block_at blocks' (rp t))) =
     length (Block (block_at blocks (rp t)))) /\
  (data_inv d x 0 start_state ->
   forall t p, (t < n)%nat -> (p < B)%nat ->
     nth p (Block (block_at blocks' (rp t))) 0 = x t p).
Proof.
  intro x_byte. cbv zeta. rewrite Decode_eq.
  destruct valid_n as [Hnk Hk].
  destruct eliminated_spec as [LA [FA WA]].
  pose proof start_ginv as G0.
  assert (Hsmall : (length (Decoder.Recovery d) <= 256)%nat)
    by (fold n; lia).
  destruct (gauss_prefix_spec d valid_rp_NoDup Hsmall
              row_point column_point row_point_byte column_point_byte
              row_column_neq row_point_inj column_point_inj
              x ltac:(rewrite valid_Params; exact x_byte)
              n start_state (Nat.le_refl _) G0)
    as [G [L [F [I1 [_ [LB D]]]]]].
  cbv zeta in G, L, F, I1, LB, D. fold n rp in L, F, I1, LB.
  change (gauss_prefix d n start_state)
    with (Decoder.Decode_gauss d start_state) in *.
  set (st1 := Decoder.Decode_gauss d start_state) in *.
  pose proof (gi_wf _ _ _ _ _ G) as Hwf1.
  rewrite (Decode_back_substitute_eq d st1). fold n.
  destruct (backsub_spec d valid_rp_NoDup Hsmall x st1 Hwf1 (n - 1)
              (Decoder.el_blocks st1) ltac:(fold n; lia))
    as [L2 [F2 [I2 [LB2 D2]]]].
  { intros t Ht. apply (wf_blocks d st1 Hwf1). exact Ht. }
  cbv zeta in L2, F2, I2, LB2, D2. fold n rp in L2, F2, I2, LB2, D2.
  rewrite valid_Params in D2. fold B in D2.
  assert (Hout : forall pos, ~ In pos (Decoder.Recovery d) ->
            forall t, (t < n)%nat -> pos <> rp t).
  { intros pos Hpos t Ht E. apply Hpos. rewrite E.
    apply valid_rp_In, Ht. }
  split; [|split; [|split; [|split]]].
  - rewrite L2, L. exact LA.
  - intros pos Hpos. rewrite F2, F by (apply Hout, Hpos).
    apply FA, Hpos.
  - intros t Ht. rewrite I2, I1 by exact Ht. apply valid_erasures, Ht.
  - intros t Ht. rewrite LB2, LB by exact Ht. apply WA, Ht.
  - intros D0 t p Ht Hp. specialize (D D0).
    destruct D as [DL DD _]. rewrite valid_Params in DL, DD.
    fold n rp B in DL, DD.
    apply (D2 DL); try assumption.
    + intros t' p' Ht' Hp'. unfold row_byte. fold rp.
      change (nth p' (Block (block_at (Decoder.el_blocks st1) (rp t'))) 0)
        with (buffer_byte d st1 t' p').
      rewrite DD by (try lia; assumption).
      replace (n - S t')%nat with 0%nat by lia.
      cbn [seq]. rewrite gsum_nil, gf256_add_0_r. reflexivity.
    + intros t' p' Ht' Hp'. unfold row_byte. fold rp.
      change (nth p' (Block (block_at (Decoder.el_blocks st1) (rp t'))) 0)
        with (buffer_byte d st1 t' p').
      apply DD; try lia; assumption.
Qed.

End DecodeValid.

(* ================================================================= *)
(** ** [cm256_decode] on a valid input with at least two originals *)

(** Feed a lemma the hypotheses that are at hand. *)
Ltac with_assumptions H :=
  repeat match type of H with
         | ?P -> _ =>
           match type of P with
           | Prop => specialize (H ltac:(assumption))
           end
         end.

Section DecodeEntry.
Context {ctx : gf256_ctx}.
Variable uninit : list Z.
Variable params : cm256_encoder_params.
Variable blocks : list cm256_block.

Hypothesis Hparams : valid_params params.
Hypothesis Hblocks : valid_blocks params blocks.
Hypothesis Huninit : length uninit = 256%nat.

Let d := Decoder.Initialize uninit params blocks.
Let K := OriginalCount params.
Let k := Z.to_nat K.
Let n := length (recovery_positions params blocks).
Let B := Z.to_nat (BlockBytes params).
Let rp (t : nat) : nat := nth t (recovery_positions params blocks) 0%nat.

Local Abbreviation cp := (column_point params blocks).
Local Abbreviation xp := (row_point uninit params blocks).

(** The original row that the block at position [o] carries. *)
Definition row_of (o : nat) : nat := Z.to_nat (Index (block_at blocks o)).

Lemma present_rows_perm :
  Permutation (map row_of (original_positions params blocks))
    (filter (fun j => existsb (fun b => Index b =? Z.of_nat j) blocks)
            (seq 0 k)).
Proof.
  apply NoDup_Permutation.
  - apply Injective_map_NoDup_in.
    + intros p q Hp Hq E.
      apply filter_In in Hp, Hq. destruct Hp as [Hp _], Hq as [Hq _].
      apply in_seq in Hp, Hq. fold K k in Hp, Hq.
      apply (block_index_inj params blocks Hblocks); fold K k; try lia.
      pose proof (block_index_range params blocks Hblocks p
                    ltac:(fold K k; lia)).
      pose proof (block_index_range params blocks Hblocks q
                    ltac:(fold K k; lia)).
      unfold row_of in E. lia.
    + apply NoDup_filter, seq_NoDup.
  - apply NoDup_filter, seq_NoDup.
  - intro j. rewrite in_map_iff, filter_In, in_seq, existsb_exists. split.
    + intros [p [E Hp]]. apply filter_In in Hp. destruct Hp as [Hp Hlt].
      apply in_seq in Hp. fold K k in Hp. apply Z.ltb_lt in Hlt.
      pose proof (block_index_range params blocks Hblocks p
                    ltac:(fold K k; lia)).
      unfold row_of in E.
      split; [unfold k, K; lia|].
      exists (block_at blocks p).
      split; [apply (block_at_In params blocks Hblocks); fold K k; lia|].
      apply Z.eqb_eq. lia.
    + intros [Hj [b [Hb He]]]. apply Z.eqb_eq in He.
      destruct (In_nth _ _ null_block Hb) as [p [Hp Ep]].
      destruct Hblocks as [Hlen _]. fold K k in Hlen.
      exists p. split; [unfold row_of, block_at; rewrite Ep, He; lia|].
      apply filter_In. split; [apply in_seq; fold K k; lia|].
      unfold block_at. rewrite Ep, He. apply Z.ltb_lt. unfold k, K in Hj. lia.
Qed.

Lemma gsum_map {A : Type} (g : nat -> Z) (h : A -> nat) (l : list A) :
  gsum g (map h l) = xor_list (map (fun o => g (h o)) l).
Proof. unfold gsum. rewrite map_map. reflexivity. Qed.

(** A sum over all rows, plus the sum over the rows present, is the sum
    over the erased rows. *)
Lemma sum_over_erased (g : nat -> Z) :
  gf256_add (gsum g (seq 0 k))
    (gsum (fun o => g (row_of o)) (original_positions params blocks)) =
  gsum g (erased_rows params blocks).
Proof.
  pose proof (filter_split_perm
    (fun j => existsb (fun b => Index b =? Z.of_nat j) blocks) (seq 0 k))
    as Hperm.
  rewrite <- (gsum_perm g _ _ Hperm), gsum_app.
  fold K k (erased_rows params blocks).
  rewrite <- (gsum_perm g _ _ present_rows_perm).
  rewrite gsum_map.
  fold (gsum (fun o => g (row_of o)) (original_positions params blocks)).
  rewrite <- gf256_add_assoc, gf256_add_nilpotent, gf256_add_0_r.
  reflexivity.
Qed.

Lemma gsum_nth_seq (g : nat -> Z) (l : list nat) :
  gsum g l = gsum (fun c => g (nth c l 0%nat)) (seq 0 (length l)).
Proof. unfold gsum. f_equal. apply map_nth_seq. Qed.

Let dn := length (Decoder.Recovery d).
Let drp := Decoder.Recovery_at d.

Lemma d_Params : Decoder.Params d = params.
Proof. apply valid_Params. Qed.

Lemma d_Recovery : Decoder.Recovery d = recovery_positions params blocks.
Proof. apply valid_Recovery. Qed.

Lemma d_Original : Decoder.Original d = original_positions params blocks.
Proof. apply valid_Original. Qed.

(** [X j p] is byte [p] of original block [j]. *)
Variable X : nat -> nat -> Z.

(** The input holds data encoded from [X]: an original block holds its
    row of [X]; a recovery block with index [x_i] holds the combination
    [sum_j a(x_i, j) . X_j]. *)
Record encoded_input : Prop := {
  ei_byte : forall j p, (j < k)%nat -> (p < B)%nat -> is_byte (X j p);
  ei_length : forall r, In r (Decoder.Recovery d) ->
    length (Block (block_at blocks r)) = B;
  ei_original : forall o p, In o (Decoder.Original d) -> (p < B)%nat ->
    nth p (Block (block_at blocks o)) 0 = X (row_of o) p;
  ei_recovery : forall r p, In r (Decoder.Recovery d) -> (p < B)%nat ->
    nth p (Block (block_at blocks r)) 0 =
    gsum (fun j => gf256_mul
                     (GetMatrixElement (Index (block_at blocks r)) K
                        (Z.of_nat j)) (X j p))
         (seq 0 k)
}.

Lemma erased_lt c : (c < dn)%nat ->
  (nth c (erased_rows params blocks) 0 < k)%nat.
Proof.
  intro Hc.
  pose proof (erased_nth_In uninit params blocks) as Hin.
  with_assumptions Hin. specialize (Hin c Hc).
  apply erased_rows_In in Hin. apply Hin.
Qed.

Lemma row_of_index o :
  In o (Decoder.Original d) -> Z.of_nat (row_of o) = Index (block_at blocks o).
Proof.
  intro Ho. rewrite d_Original in Ho.
  apply filter_In in Ho. destruct Ho as [Ho _]. apply in_seq in Ho.
  pose proof (block_index_range params blocks Hblocks o ltac:(lia)).
  unfold row_of. lia.
Qed.

(** After the surviving originals are eliminated, a recovery block holds
    the combination of the erased rows only. *)
Lemma eliminated_erased (x_i : Z) (r : nat) (p : nat) :
  encoded_input -> In r (Decoder.Recovery d) -> (p < B)%nat ->
  gf256_add (nth p (Block (block_at blocks r)) 0)
    (gsum (fun o =>
             gf256_mul
               (GetMatrixElement (Index (block_at blocks r)) K
                  (Index (block_at blocks o)))
               (nth p (Block (block_at blocks o)) 0))
          (Decoder.Original d)) =
  gsum (fun c =>
          gf256_mul
            (GetMatrixElement (Index (block_at blocks r)) K (cp c))
            (X (nth c (erased_rows params blocks) 0%nat) p))
       (seq 0 dn).
Proof.
  intros [EB EL EO ER] Hr Hp.
  rewrite (ER r p Hr Hp).
  set (g := fun j => gf256_mul
                       (GetMatrixElement (Index (block_at blocks r)) K
                          (Z.of_nat j)) (X j p)).
  rewrite (gsum_ext _ (fun o => g (row_of o)) (Decoder.Original d)).
  2:{ intros o Ho. unfold g. rewrite row_of_index by exact Ho.
      rewrite EO by assumption. reflexivity. }
  rewrite d_Original. fold K k.
  rewrite (sum_over_erased g), gsum_nth_seq.
  pose proof (erased_count uninit params blocks) as Hcount.
  with_assumptions Hcount. rewrite Hcount. reflexivity.
Qed.

Lemma start_dinv :
  encoded_input ->
  data_inv d (fun c p => X (nth c (erased_rows params blocks) 0%nat) p) 0
    (start_state uninit params blocks).
Proof.
  intro HE. pose proof HE as [EB EL EO ER].
  pose proof (eliminated_spec uninit params blocks) as HA.
  with_assumptions HA. destruct HA as [LA [FA WA]].
  fold d in WA.
  constructor.
  - intros t Ht. unfold start_state. cbn [Decoder.el_blocks].
    destruct (WA t Ht) as [_ [-> _]].
    rewrite d_Params. rewrite EL; [fold B; lia|].
    apply valid_rp_In, Ht.
  - intros t p Ht. lia.
  - intros t p Ht Hp. rewrite d_Params in Hp. fold B in Hp.
    unfold buffer_byte.
    change (Decoder.el_blocks (start_state uninit params blocks))
      with (eliminated uninit params blocks).
    destruct (WA t ltac:(lia)) as [_ [_ W]].
    pose proof (valid_rp_In uninit params blocks t ltac:(fold d; lia)) as Hin.
    fold d in Hin.
    rewrite W by (try rewrite (EL _ Hin); fold B; lia).
    rewrite Nat.sub_0_r.
    unfold row_point. fold d K.
    rewrite (eliminated_erased 0 _ p HE Hin Hp).
    apply gsum_ext. intros c Hc. apply in_seq in Hc.
    pose proof (start_matrix uninit params blocks) as HM.
    with_assumptions HM. rewrite HM by (fold d; lia).
    reflexivity.
Qed.

Lemma single_recovery :
  RecoveryCount params = 1 -> (0 < dn)%nat ->
  Decoder.Recovery d = [drp 0%nat].
Proof.
  intros Hm Hpos.
  assert (Hone : dn = 1%nat).
  { destruct (Nat.le_gt_cases dn 1) as [Hle|Hgt]; [lia|].
    pose proof (row_point_range uninit params blocks) as Hrange.
    with_assumptions Hrange. fold d dn in Hrange.
    pose proof (row_point_inj uninit params blocks) as Hinj.
    with_assumptions Hinj. fold d dn in Hinj.
    assert (E : 0%nat = 1%nat).
    { apply Hinj; try lia.
      pose proof (Hrange 0%nat ltac:(lia)).
      pose proof (Hrange 1%nat ltac:(lia)). lia. }
    discriminate E. }
  unfold dn in Hone. unfold drp, Decoder.Recovery_at.
  destruct (Decoder.Recovery d) as [|r [|r' l]]; try discriminate Hone.
  reflexivity.
Qed.

(** [cm256_decode] on a valid input with [k >= 2]: the call returns 0,
    the blocks outside [Recovery] are untouched, recovery block [t] takes
    the index of the [t]-th erased row, and on an input encoded from [X]
    it ends holding that row of [X]. *)
Lemma decode_entry :
  2 <= K ->
  exists blocks',
    cm256_decode uninit params blocks = (0, blocks') /\
    length blocks' = length blocks /\
    (forall pos, ~ In pos (Decoder.Recovery d) ->
       block_at blocks' pos = block_at blocks pos) /\
    (forall t, (t < dn)%nat ->
       Index (block_at blocks' (drp t)) = cp t /\
       length (Block (block_at blocks' (drp t))) =
       length (Block (block_at blocks (drp t)))) /\
    (encoded_input ->
     forall t p, (t < dn)%nat -> (p < B)%nat ->
       nth p (Block (block_at blocks' (drp t))) 0 =
       X (nth t (erased_rows params blocks) 0%nat) p).
Proof.
  intro HK2. rewrite cm256_decode_valid by exact Hparams.
  replace (OriginalCount params =? 1) with false
    by (symmetry; apply Z.eqb_neq; fold K; lia).
  cbv zeta. fold d. unfold Decoder.RecoveryCount. fold dn.
  destruct (Z.leb_spec (Z.of_nat dn) 0) as [Hz|Hpos].
  { exists blocks. split; [reflexivity|]. split; [reflexivity|].
    split; [reflexivity|]. split; intros; lia. }
  destruct (Z.eqb_spec (RecoveryCount params) 1) as [Hm|Hm].
  - (* m = 1 *)
    pose proof (single_recovery Hm ltac:(lia)) as HR.
    assert (Hdn : dn = 1%nat) by (unfold dn; rewrite HR; reflexivity).
    pose proof (valid_rp_In uninit params blocks) as Hin.
    with_assumptions Hin. specialize (Hin 0%nat).
    fold d dn drp in Hin. specialize (Hin ltac:(lia)).
    pose proof (valid_rp_range uninit params blocks) as Hrange.
    with_assumptions Hrange.
    fold d in Hrange. specialize (Hrange _ Hin).
    pose proof (valid_length params blocks) as Hlen.
    with_assumptions Hlen.
    pose proof (valid_Original_not_Recovery uninit params blocks) as Hdisj.
    with_assumptions Hdisj.
    fold d in Hdisj.
    destruct (DecodeM1_spec d blocks (drp 0%nat) ltac:(lia) HR)
      as [buf [E [L W]]].
    { intro Ho. apply (Hdisj _ Ho), Hin. }
    rewrite E. eexists. split; [reflexivity|].
    split; [apply update_nth_length|]. split; [|split].
    + intros pos Hpos'. apply block_at_update_other.
      intro; subst. apply Hpos', Hin.
    + intros t Ht. replace t with 0%nat by lia.
      rewrite block_at_update_same by lia. cbn [Index Block].
      split; [|exact L].
      pose proof (valid_erasures uninit params blocks) as HE.
      with_assumptions HE. apply HE. fold d dn. lia.
    + intros HE t p Ht Hp. replace t with 0%nat by lia.
      rewrite block_at_update_same by lia. cbn [Block].
      pose proof HE as [EB EL EO ER].
      rewrite ?d_Params in W. fold B in W.
      rewrite W by (try rewrite (EL _ Hin); lia).
      rewrite gsum_cons.
      assert (Hidx : Index (block_at blocks (drp 0%nat)) = K).
      { pose proof (row_point_range uninit params blocks) as Hrg.
        with_assumptions Hrg. specialize (Hrg 0%nat).
        fold d dn in Hrg. specialize (Hrg ltac:(lia)).
        unfold row_point in Hrg. fold d drp K in Hrg. lia. }
      pose proof (eliminated_erased 0 (drp 0%nat) p HE Hin Hp) as Hsum.
      rewrite Hdn in Hsum. cbn [seq] in Hsum.
      rewrite gsum_cons, gsum_nil, gf256_add_0_r in Hsum.
      rewrite Hidx in Hsum.
      pose proof (column_point_range uninit params blocks) as Hcr.
      with_assumptions Hcr. specialize (Hcr 0%nat).
      fold d dn K in Hcr. specialize (Hcr ltac:(lia)).
      pose proof (valid_K params Hparams) as [HKb _]. fold K in HKb.
      rewrite GetMatrixElement_first_row in Hsum;
        [|exact HKb|unfold is_byte in *; lia|lia].
      rewrite gf256_mul_1_l in Hsum.
      2:{ apply EB; [|exact Hp]. apply erased_lt. fold dn. lia. }
      rewrite <- Hsum. f_equal.
      apply gsum_ext. intros o Ho.
      pose proof (row_of_index o Ho) as Hro.
      pose proof (block_index_range params blocks Hblocks o) as Hor.
      assert (Hok : (o < k)%nat).
      { rewrite d_Original in Ho. apply filter_In in Ho.
        destruct Ho as [Ho _]. apply in_seq in Ho. fold K k in Ho. lia. }
      assert (Holt : Index (block_at blocks o) < K).
      { rewrite d_Original in Ho. apply filter_In in Ho.
        destruct Ho as [_ Ho]. apply Z.ltb_lt in Ho. exact Ho. }
      specialize (Hor Hok).
      rewrite GetMatrixElement_first_row;
        [|exact HKb|unfold is_byte in *; lia|lia].
      rewrite gf256_mul_1_l; [reflexivity|].
      rewrite EO by assumption. apply EB; [|exact Hp].
      unfold row_of. fold K k in Hor |- *. lia.
  - (* m >= 2 *)
    pose proof (Decode_result uninit params blocks) as HD.
    with_assumptions HD. fold d dn drp B in HD.
    destruct (HD (fun _ _ => 0) ltac:(intros; exact is_byte_0))
      as [L [F [I [LB _]]]].
    eexists. split; [reflexivity|]. split; [exact L|]. split; [exact F|].
    split.
    + intros t Ht. split; [apply I, Ht|apply LB, Ht].
    + intros HE t p Ht Hp.
      destruct (HD (fun c p => X (nth c (erased_rows params blocks) 0%nat) p))
        as [_ [_ [_ [_ D]]]].
      { intros c p' Hc Hp'. apply (ei_byte HE); [|exact Hp'].
        apply erased_lt. exact Hc. }
      apply D; try assumption. apply start_dinv, HE.
Qed.

End DecodeEntry.

(* ================================================================= *)
(** ** C3: frame and relabeling *)

Lemma Index_nth_map (blocks : list cm256_block) (pos : nat) :
  nth pos (map Index blocks) 0 = Index (block_at blocks pos).
Proof.
  unfold block_at. change 0 with (Index null_block). apply map_nth.
Qed.

Lemma position_cases (params : cm256_encoder_params)
    (blocks : list cm256_block) (pos : nat) :
  (pos < Z.to_nat (OriginalCount params))%nat ->
  (Index (block_at blocks pos) < OriginalCount params /\
   ~ In pos (recovery_positions params blocks)) \/
  (OriginalCount params <= Index (block_at blocks pos) /\
   In pos (recovery_positions params blocks)).
Proof.
  intro Hpos. unfold recovery_positions.
  destruct (Z.ltb_spec (Index (block_at blocks pos)) (OriginalCount params))
    as [Hlt|Hge].
  - left. split; [exact Hlt|]. rewrite filter_In.
    intros [_ H]. apply negb_true_iff, Z.ltb_ge in H. lia.
  - right. split; [exact Hge|]. apply filter_In. split.
    + apply in_seq. lia.
    + apply negb_true_iff, Z.ltb_ge. exact Hge.
Qed.

(** C3 — frame and relabeling.  For every valid input of [k] distinct
    labeled blocks, [cm256_decode] returns 0; a block that came in with
    an original index keeps its index and its buffer; a block that came
    in with a recovery index leaves with the index of an original row in
    [0, k) that no input block carried; and the indices of the blocks
    are pairwise distinct on return. *)
Theorem decode_frame_and_relabel {ctx : gf256_ctx} (uninit : list Z)
    (params : cm256_encoder_params) (blocks : list cm256_block) :
  valid_params params ->
  valid_blocks params blocks ->
  length uninit = 256%nat ->
  exists blocks',
    cm256_decode uninit params blocks = (0, blocks') /\
    length blocks' = length blocks /\
    (forall pos, (pos < length blocks)%nat ->
       Index (block_at blocks pos) < OriginalCount params ->
       block_at blocks' pos = block_at blocks pos) /\
    (forall pos, (pos < length blocks)%nat ->
       OriginalCount params <= Index (block_at blocks pos) ->
       0 <= Index (block_at blocks' pos) < OriginalCount params /\
       ~ In (Index (block_at blocks' pos)) (map Index blocks)) /\
    NoDup (map Index blocks').
Proof.
  intros Hv Hb Hu.
  pose proof Hb as [Hlen [Hnd Hall]].
  destruct (Z.eq_dec (OriginalCount params) 1) as [Hk1|Hk1].
  - (* a single original *)
    rewrite cm256_decode_valid by exact Hv. rewrite Hk1. cbn [Z.eqb Pos.eqb].
    rewrite Hk1 in Hlen.
    destruct blocks as [|b [|b' bs]]; try discriminate Hlen.
    exists [store_Index 0 b]. split; [reflexivity|]. split; [reflexivity|].
    inversion Hall as [|? ? Hb0 _]; subst.
    split; [|split].
    + intros [|pos] Hpos Hidx; simpl in Hpos; [|lia].
      unfold block_at in *. cbn [nth] in *.
      assert (E : Index b = 0) by lia.
      rewrite <- E. apply store_Index_same.
    + intros [|pos] Hpos Hidx; simpl in Hpos; [|lia].
      unfold block_at in *. cbn [nth map store_Index Index In] in *.
      split; [lia|]. intros [E|[]]. lia.
    + cbn [map]. constructor; [intros []|constructor].
  - (* at least two originals *)
    assert (HK2 : 2 <= OriginalCount params) by (destruct Hv; lia).
    destruct (decode_entry uninit params blocks Hv Hb Hu (fun _ _ => 0) HK2)
      as [blocks' [E [L [F [I _]]]]].
    set (d := Decoder.Initialize uninit params blocks) in *.
    assert (HR : Decoder.Recovery d = recovery_positions params blocks)
      by apply valid_Recovery.
    assert (Hrec : forall pos, In pos (recovery_positions params blocks) ->
              exists t, (t < length (Decoder.Recovery d))%nat /\
                        pos = Decoder.Recovery_at d t).
    { intros pos Hin. rewrite <- HR in Hin.
      destruct (In_nth _ _ 0%nat Hin) as [t [Ht Et]].
      exists t. split; [exact Ht|]. symmetry; exact Et. }
    assert (Hnew : forall pos, In pos (recovery_positions params blocks) ->
              0 <= Index (block_at blocks' pos) < OriginalCount params /\
              ~ In (Index (block_at blocks' pos)) (map Index blocks)).
    { intros pos Hin. destruct (Hrec pos Hin) as [t [Ht ->]].
      destruct (I t Ht) as [-> _]. split.
      - pose proof (column_point_range uninit params blocks) as Hc.
        with_assumptions Hc. apply Hc, Ht.
      - pose proof (column_point_absent uninit params blocks) as Hc.
        with_assumptions Hc. apply Hc, Ht. }
    exists blocks'. split; [exact E|]. split; [exact L|].
    split; [|split].
    + intros pos Hpos Hidx. apply F. rewrite HR.
      destruct (position_cases params blocks pos ltac:(lia)) as [[_ H]|[H _]];
        [exact H|lia].
    + intros pos Hpos Hidx. apply Hnew.
      destruct (position_cases params blocks pos ltac:(lia)) as [[H _]|[_ H]];
        [lia|exact H].
    + apply (NoDup_nth _ 0). intros i j Hi Hj Eij.
      rewrite length_map, L, Hlen in Hi, Hj.
      rewrite !Index_nth_map in Eij.
      destruct (position_cases params blocks i Hi) as [[Hi1 Hi2]|[Hi1 Hi2]];
        destruct (position_cases params blocks j Hj) as [[Hj1 Hj2]|[Hj1 Hj2]].
      * rewrite !F in Eij by (rewrite HR; assumption).
        apply (block_index_inj params blocks Hb); assumption.
      * exfalso. destruct (Hnew j Hj2) as [_ Hj3]. apply Hj3.
        rewrite <- Eij, F by (rewrite HR; assumption).
        apply in_map. apply (block_at_In params blocks Hb), Hi.
      * exfalso. destruct (Hnew i Hi2) as [_ Hi3]. apply Hi3.
        rewrite Eij, F by (rewrite HR; assumption).
        apply in_map. apply (block_at_In params blocks Hb), Hj.
      * destruct (Hrec i Hi2) as [t [Ht ->]].
        destruct (Hrec j Hj2) as [t' [Ht' ->]].
        destruct (I t Ht) as [Et _]. destruct (I t' Ht') as [Et' _].
        rewrite Et, Et' in Eij.
        pose proof (column_point_inj uninit params blocks) as Hc.
        with_assumptions Hc. f_equal. apply Hc; assumption.
Qed.

(* ================================================================= *)
(** ** C10: the divisor of [GetMatrixElement] is never zero *)

(** What the callers guarantee about an argument triple. *)
Definition safe_call (params : cm256_encoder_params) (call : Z * Z * Z)
  : Prop :=
  let '(x_i, x_0, y_j) := call in
  x_0 = OriginalCount params /\
  OriginalCount params <= x_i
    < OriginalCount params + RecoveryCount params /\
  0 <= y_j < OriginalCount params /\
  gf256_add x_i y_j <> 0.

Lemma safe_call_intro params x_i x_0 y_j :
  x_0 = OriginalCount params ->
  OriginalCount params <= x_i
    < OriginalCount params + RecoveryCount params ->
  0 <= y_j < OriginalCount params ->
  safe_call params (x_i, x_0, y_j).
Proof.
  intros H0 Hi Hj. unfold safe_call.
  repeat split; try lia. apply gf256_add_neq_0. lia.
Qed.

Lemma encode_calls_safe params :
  valid_params params -> Forall (safe_call params) (encode_calls params).
Proof.
  intros [Hk [Hm [Hkm HB]]]. unfold encode_calls. cbv zeta.
  destruct (OriginalCount params =? 1); [constructor|].
  assert (HK : to_uint8 (OriginalCount params) = OriginalCount params)
    by (apply to_uint8_small; unfold is_byte; lia).
  rewrite HK.
  apply Forall_forall. intros call Hin.
  apply in_flat_map in Hin. destruct Hin as [i [Hi Hin]].
  apply in_seq in Hi.
  assert (Hxi : to_uint8 (OriginalCount params + Z.of_nat i) =
                OriginalCount params + Z.of_nat i)
    by (apply to_uint8_small; unfold is_byte; lia).
  rewrite Hxi in Hin.
  destruct Hin as [<-|Hin].
  - apply safe_call_intro; lia.
  - apply in_map_iff in Hin. destruct Hin as [j [<- Hj]].
    apply in_seq in Hj.
    rewrite (to_uint8_small (Z.of_nat j)) by (unfold is_byte; lia).
    apply safe_call_intro; lia.
Qed.

Lemma Decode_calls_safe uninit params blocks :
  valid_params params -> valid_blocks params blocks ->
  length uninit = 256%nat ->
  Forall (safe_call params)
    (Decoder.Decode_calls (Decoder.Initialize uninit params blocks) blocks).
Proof.
  intros Hv Hb Hu.
  set (d := Decoder.Initialize uninit params blocks).
  assert (HP : Decoder.Params d = params) by apply valid_Params.
  assert (HR : Decoder.Recovery d = recovery_positions params blocks)
    by apply valid_Recovery.
  assert (HO : Decoder.Original d = original_positions params blocks)
    by apply valid_Original.
  assert (HK : to_uint8 (OriginalCount params) = OriginalCount params).
  { destruct Hv as [? [? [? ?]]]. apply to_uint8_small. unfold is_byte. lia. }
  assert (Hrec : forall r, In r (Decoder.Recovery d) ->
            OriginalCount params <= Index (block_at blocks r)
              < OriginalCount params + RecoveryCount params).
  { intros r Hr. rewrite HR in Hr. apply filter_In in Hr.
    destruct Hr as [Hr Hge]. apply in_seq in Hr.
    apply negb_true_iff, Z.ltb_ge in Hge.
    pose proof (block_index_range params blocks Hb r ltac:(lia)). lia. }
  unfold Decoder.Decode_calls, Decoder.Decode_matrix_calls. cbv zeta.
  rewrite HP, HK. apply Forall_app. split.
  - apply Forall_forall. intros call Hin.
    apply in_flat_map in Hin. destruct Hin as [o [Ho Hin]].
    apply in_map_iff in Hin. destruct Hin as [r [<- Hr]].
    apply safe_call_intro; [reflexivity|apply Hrec, Hr|].
    rewrite HO in Ho. apply filter_In in Ho. destruct Ho as [Ho Hlt].
    apply in_seq in Ho. apply Z.ltb_lt in Hlt.
    pose proof (block_index_range params blocks Hb o ltac:(lia)). lia.
  - apply Forall_forall. intros call Hin.
    apply in_flat_map in Hin. destruct Hin as [r [Hr Hin]].
    apply in_map_iff in Hin. destruct Hin as [j [<- Hj]].
    apply in_seq in Hj.
    apply safe_call_intro; [reflexivity|apply Hrec, Hr|].
    pose proof (valid_erasures uninit params blocks) as HE.
    with_assumptions HE. fold d in HE. rewrite HE by lia.
    pose proof (column_point_range uninit params blocks) as HC.
    with_assumptions HC. apply HC. fold d. lia.
Qed.

(** C10 — division precondition.  Under valid parameters and valid block
    labels, every call of [GetMatrixElement] made by [cm256_encode] and by
    [Decoder::Decode] has [x_0 = k], [x_i] in [k, k + m) and [y_j] in
    [0, k), so that the divisor [add(x_i, y_j)] handed to [gf256_div] is
    not zero. *)
Theorem matrix_element_divisor_nonzero (uninit : list Z)
    (params : cm256_encoder_params) (blocks : list cm256_block) :
  valid_params params ->
  valid_blocks params blocks ->
  length uninit = 256%nat ->
  forall x_i x_0 y_j,
    In (x_i, x_0, y_j)
       (encode_calls params ++
        Decoder.Decode_calls (Decoder.Initialize uninit params blocks)
          blocks) ->
    x_0 = OriginalCount params /\
    OriginalCount params <= x_i
      < OriginalCount params + RecoveryCount params /\
    0 <= y_j < OriginalCount params /\
    gf256_add x_i y_j <> 0.
Proof.
  intros Hv Hb Hu x_i x_0 y_j Hin.
  assert (H : Forall (safe_call params)
                (encode_calls params ++
                 Decoder.Decode_calls
                   (Decoder.Initialize uninit params blocks) blocks)).
  { apply Forall_app. split.
    - apply encode_calls_safe, Hv.
    - apply Decode_calls_safe; assumption. }
  rewrite Forall_forall in H. exact (H _ Hin).
Qed.

(* ================================================================= *)
(** ** C1: the round trip *)

(** Original block [j] with its label. *)
Definition original_block (originals : list (list Z)) (j : nat) : cm256_block :=
  {| Block := original_at originals j; Index := Z.of_nat j |}.

(** The block that the decoder receives at position [j]: the original
    when [sel j] is [None], and recovery block [i] of the encoder's output
    [out], labeled [k + i], when row [j] is erased and [sel j = Some i]. *)
Definition received_block (params : cm256_encoder_params)
    (originals : list (list Z)) (out : list Z) (sel : nat -> option nat)
    (j : nat) : cm256_block :=
  match sel j with
  | None => original_block originals j
  | Some i =>
    {| Block := region_row (Z.to_nat (BlockBytes params)) out i;
       Index := OriginalCount params + Z.of_nat i |}
  end.


Lemma block_eta (b : cm256_block) (buf : list Z) (idx : Z) :
  Block b = buf -> Index b = idx -> b = {| Block := buf; Index := idx |}.
Proof. destruct b; simpl; intros -> ->; reflexivity. Qed.

Section RoundTrip.
Context {ctx : gf256_ctx}.
Variable uninit : list Z.
Variable params : cm256_encoder_params.
Variable originals : list (list Z).
Variable out : list Z.
Variable sel : nat -> option nat.

Let K := OriginalCount params.
Let k := Z.to_nat K.
Let m := Z.to_nat (RecoveryCount params).
Let B := Z.to_nat (BlockBytes params).
Let blocks := map (received_block params originals out sel) (seq 0 k).

Hypothesis Hparams : valid_params params.
Hypothesis Huninit : length uninit = 256%nat.
Hypothesis Hlen : length originals = k.
Hypothesis Horig :
  Forall (fun o => length o = B /\ Forall is_byte o) originals.
Hypothesis Hrows : forall i, (i < m)%nat ->
  region_row B out i = recovery_block params originals i.
Hypothesis Hrange : forall j i, (j < k)%nat -> sel j = Some i -> (i < m)%nat.
Hypothesis Hinj : forall j j' i, (j < k)%nat -> (j' < k)%nat ->
  sel j = Some i -> sel j' = Some i -> j = j'.









End RoundTrip.


(* ================================================================= *)
(** ** Instances on concrete inputs

    The theorems above, applied over the field [GF256Ctx] to small
    codes: three originals of two bytes with two recovery blocks, the
    same with one recovery block, and a single original. *)

Definition params_3_2 : cm256_encoder_params :=
  {| OriginalCount := 3; RecoveryCount := 2; BlockBytes := 2 |}.

Definition params_3_1 : cm256_encoder_params :=
  {| OriginalCount := 3; RecoveryCount := 1; BlockBytes := 2 |}.


Definition originals_3 : list (list Z) := [[1; 2]; [3; 4]; [5; 6]].

(** Row 1 is missing; recovery rows 0 and 1 (labels 3 and 4) came instead,
    one of them in the place of a present original. *)
Definition blocks_two_recoveries : list cm256_block :=
  [ {| Block := [1; 2]; Index := 0 |};
    {| Block := [7; 0]; Index := 3 |};
    {| Block := [9; 9]; Index := 4 |} ].

(** Row 1 is missing and the parity block came in its place. *)
Definition blocks_one_recovery : list cm256_block :=
  [ {| Block := [1; 2]; Index := 0 |};
    {| Block := [7; 0]; Index := 3 |};
    {| Block := [5; 6]; Index := 2 |} ].

(** Every original arrived, out of order. *)
Definition blocks_no_erasure : list cm256_block :=
  [ {| Block := [5; 6]; Index := 2 |};
    {| Block := [1; 2]; Index := 0 |};
    {| Block := [3; 4]; Index := 1 |} ].

Definition stale_erasures : list Z := repeat 170 256.

Lemma params_3_2_valid : valid_params params_3_2.
Proof. unfold valid_params; simpl; lia. Defined.

Lemma params_3_1_valid : valid_params params_3_1.
Proof. unfold valid_params; simpl; lia. Defined.


Lemma originals_3_bytes :
  Forall (fun o => length o = 2%nat /\ Forall is_byte o) originals_3.
Proof.
  unfold originals_3, is_byte.
  repeat (first [apply Forall_nil | apply Forall_cons | split | reflexivity | lia]).
Defined.

Ltac concrete_blocks :=
  unfold valid_blocks; simpl;
  repeat (first [ apply NoDup_nil | apply NoDup_cons | apply Forall_nil
                | apply Forall_cons | split | reflexivity | lia
                | simpl; intuition lia ]).

Lemma blocks_two_recoveries_valid :
  valid_blocks params_3_2 blocks_two_recoveries.
Proof. concrete_blocks. Defined.

Lemma blocks_one_recovery_valid :
  valid_blocks params_3_1 blocks_one_recovery.
Proof. concrete_blocks. Defined.

Lemma blocks_no_erasure_valid :
  valid_blocks params_3_2 blocks_no_erasure.
Proof. concrete_blocks. Defined.


(** C2 on three originals and two recovery blocks. *)
Lemma encode_postcondition_witness :
  exists out,
    cm256_encode params_3_2 (Some originals_3) (Some (repeat 0 4)) =
      (0, Some out) /\
    length out = 4%nat /\
    (forall i, (i < 2)%nat ->
       region_row 2 out i = recovery_block params_3_2 originals_3 i) /\
    region_row 2 out 0 = xor_blocks 2 originals_3.
Proof.
  apply (encode_postcondition (ctx := GF256Ctx) params_3_2 originals_3
           (repeat 0 4)).
  - exact params_3_2_valid.
  - simpl; lia.
  - reflexivity.
  - exact originals_3_bytes.
  - simpl; lia.
Defined.

(** C3 on an input with one original and two recovery blocks. *)
Lemma decode_frame_and_relabel_witness :
  exists blocks',
    cm256_decode stale_erasures params_3_2 blocks_two_recoveries =
      (0, blocks') /\
    length blocks' = 3%nat /\
    (forall pos, (pos < 3)%nat ->
       Index (block_at blocks_two_recoveries pos) < 3 ->
       block_at blocks' pos = block_at blocks_two_recoveries pos) /\
    (forall pos, (pos < 3)%nat ->
       3 <= Index (block_at blocks_two_recoveries pos) ->
       0 <= Index (block_at blocks' pos) < 3 /\
       ~ In (Index (block_at blocks' pos))
            (map Index blocks_two_recoveries)) /\
    NoDup (map Index blocks').
Proof.
  apply (decode_frame_and_relabel (ctx := GF256Ctx) stale_erasures
           params_3_2 blocks_two_recoveries).
  - exact params_3_2_valid.
  - exact blocks_two_recoveries_valid.
  - reflexivity.
Defined.

(** C4 (as amended) on three calls: no originals and 257 recovery
    blocks, where the first guard answers; 200 originals and 100 recovery
    blocks, where the second does; and valid parameters with null
    pointers. *)
Lemma parameter_rejection_witness :
  (cm256_encode
     {| OriginalCount := 0; RecoveryCount := 257; BlockBytes := 1 |}
     None None = (-1, None) /\
   cm256_decode []
     {| OriginalCount := 0; RecoveryCount := 257; BlockBytes := 1 |}
     [] = (-1, [])) /\
  (cm256_encode
     {| OriginalCount := 200; RecoveryCount := 100; BlockBytes := 2 |}
     (Some originals_3) (Some (repeat 0 4)) = (-2, Some (repeat 0 4)) /\
   cm256_decode stale_erasures
     {| OriginalCount := 200; RecoveryCount := 100; BlockBytes := 2 |}
     blocks_two_recoveries = (-2, blocks_two_recoveries)) /\
  cm256_encode params_3_2 None (Some (repeat 0 4)) =
    (-3, Some (repeat 0 4)).
Proof.
  split; [|split].
  - apply (proj1 (parameter_rejection (ctx := GF256Ctx)
                    {| OriginalCount := 0; RecoveryCount := 257;
                       BlockBytes := 1 |} None None [] [])).
    left. simpl. lia.
  - apply (proj1 (proj2 (parameter_rejection (ctx := GF256Ctx)
                    {| OriginalCount := 200; RecoveryCount := 100;
                       BlockBytes := 2 |} (Some originals_3)
                    (Some (repeat 0 4)) stale_erasures
                    blocks_two_recoveries)));
      unfold INT_MAX; simpl; lia.
  - apply (proj1 (proj2 (proj2 (parameter_rejection (ctx := GF256Ctx)
                    params_3_2 None (Some (repeat 0 4)) [] []))));
      simpl; try lia.
    left. reflexivity.
Defined.

(** C5 on three originals with the parity block in place of row 1. *)
Lemma decode_m1_reconstruction_witness :
  exists missing,
    0 <= missing < 3 /\
    ~ In missing (map Index blocks_one_recovery) /\
    (forall z, 0 <= z < 3 ->
               ~ In z (map Index blocks_one_recovery) -> z = missing) /\
    cm256_decode stale_erasures params_3_1 blocks_one_recovery =
    (0, update_nth 1
          (fun _ => {| Block := xor_blocks 2 (map Block blocks_one_recovery);
                       Index := missing |}) blocks_one_recovery).
Proof.
  apply (decode_m1_reconstruction (ctx := GF256Ctx) stale_erasures
           params_3_1 blocks_one_recovery 1).
  - exact params_3_1_valid.
  - reflexivity.
  - simpl; lia.
  - exact blocks_one_recovery_valid.
  - reflexivity.
  - simpl; lia.
  - reflexivity.
  - unfold blocks_one_recovery.
    repeat (first [apply Forall_nil | apply Forall_cons | reflexivity]).
Defined.

(** C6 at recovery row 4 of a code with three originals, column 1. *)
Lemma GetMatrixElement_spec_witness :
  GetMatrixElement 4 3 1 =
    gf256_div (gf256_add 1 3) (gf256_add 4 1) /\
  is_byte (GetMatrixElement 4 3 1) /\
  gf256_mul (GetMatrixElement 4 3 1) (gf256_add 4 1) =
    gf256_add 1 3 /\
  (4 = 3 -> GetMatrixElement 4 3 1 = 1).
Proof.
  apply (GetMatrixElement_spec (ctx := GF256Ctx) 4 3 1).
  - unfold is_byte; lia.
  - unfold is_byte; lia.
  - unfold is_byte; lia.
  - vm_compute; lia.
Defined.


(** C8 on three originals that all arrived. *)
Lemma decode_no_erasures_witness :
  cm256_decode stale_erasures params_3_2
    blocks_no_erasure = (0, blocks_no_erasure).
Proof.
  apply (decode_no_erasures (ctx := GF256Ctx) stale_erasures params_3_2
           blocks_no_erasure).
  - exact params_3_2_valid.
  - exact blocks_no_erasure_valid.
  - unfold blocks_no_erasure.
    repeat (first [apply Forall_nil | apply Forall_cons | simpl; lia]).
Defined.

(** C9 on an input with one original and two recovery blocks. *)
Lemma Initialize_postconditions_witness :
  let d := Decoder.Initialize stale_erasures params_3_2
             blocks_two_recoveries in
  let erasures :=
    firstn (length (Decoder.Recovery d)) (Decoder.ErasuresIndices d) in
  Decoder.Original d =
    filter (fun p => Index (block_at blocks_two_recoveries p) <? 3)
           (seq 0 3) /\
  Decoder.Recovery d =
    filter (fun p => negb (Index (block_at blocks_two_recoveries p) <? 3))
           (seq 0 3) /\
  Decoder.OriginalCount d + Decoder.RecoveryCount d = 3 /\
  length erasures = length (Decoder.Recovery d) /\
  StronglySorted Z.lt erasures /\
  (forall z, In z erasures <->
     0 <= z < 3 /\ ~ In z (map Index blocks_two_recoveries)).
Proof.
  apply (Initialize_postconditions stale_erasures params_3_2
           blocks_two_recoveries).
  - exact params_3_2_valid.
  - exact blocks_two_recoveries_valid.
  - reflexivity.
Defined.

(** C10 on an input with one original and two recovery blocks: every call
    of the encoder and of the decoder. *)
Lemma matrix_element_divisor_nonzero_witness :
  Forall (fun call =>
            let '(x_i, x_0, y_j) := call in
            x_0 = 3 /\ 3 <= x_i < 3 + 2 /\ 0 <= y_j < 3 /\
            gf256_add x_i y_j <> 0)
    (encode_calls params_3_2 ++
     Decoder.Decode_calls
       (Decoder.Initialize stale_erasures params_3_2 blocks_two_recoveries)
       blocks_two_recoveries).
Proof.
  apply Forall_forall. intros [[x_i x_0] y_j].
  apply (matrix_element_divisor_nonzero stale_erasures params_3_2
           blocks_two_recoveries).
  - exact params_3_2_valid.
  - exact blocks_two_recoveries_valid.
  - reflexivity.
Defined.

(* ================================================================= *)
(** * Further properties of the encoder *)

(** The caller's obligation on the input of [cm256_encode]: [k] buffers
    of [blockBytes] bytes each. *)
Definition valid_originals (params : cm256_encoder_params)
    (originals : list (list Z)) : Prop :=
  length originals = Z.to_nat (OriginalCount params) /\
  Forall (fun o => length o = Z.to_nat (BlockBytes params) /\
                   Forall is_byte o) originals.

(** For a single original the copy loop computes the slot offsets
    [i * blockBytes], [i < m], as [int] products: they have to fit. *)
Definition copy_offsets_fit (params : cm256_encoder_params) : Prop :=
  OriginalCount params = 1 ->
  (RecoveryCount params - 1) * BlockBytes params <= INT_MAX.

(** What the encoder leaves in recovery row [i]: a copy of the single
    original when [k = 1], the combination of the originals otherwise. *)
Definition encoded_row {ctx : gf256_ctx} (params : cm256_encoder_params)
    (originals : list (list Z)) (i : nat) : list Z :=
  if OriginalCount params =? 1 then original_at originals 0
  else recovery_block params originals i.

(** [x ^ y], byte by byte. *)
Definition xor_buffers (x y : list Z) : list Z :=
  map (fun uv => gf256_add (fst uv) (snd uv)) (combine x y).

Definition xor_originals (a b : list (list Z)) : list (list Z) :=
  map (fun xy => xor_buffers (fst xy) (snd xy)) (combine a b).

Lemma skipn_eq_nth (n : nat) (a b : list Z) :
  length a = length b ->
  (forall q, (n <= q)%nat -> nth q a 0 = nth q b 0) ->
  skipn n a = skipn n b.
Proof.
  intros L H. apply (list_eq_nth _ _ 0).
  - rewrite !length_skipn, L. reflexivity.
  - intros p _. rewrite !nth_skipn. apply H. lia.
Qed.

(** X1 — The encoder stores into the [m] recovery rows only: the output region
    keeps its length, and what lies behind the first [m * blockBytes]
    bytes is as it was, whatever the originals hold. *)
Theorem encode_writes_only_recovery_rows {ctx : gf256_ctx}
    (params : cm256_encoder_params) (originals : list (list Z))
    (region : list Z) :
  valid_params params ->
  copy_offsets_fit params ->
  (Z.to_nat (RecoveryCount params) * Z.to_nat (BlockBytes params)
   <= length region)%nat ->
  exists out,
    cm256_encode params (Some originals) (Some region) = (0, Some out) /\
    length out = length region /\
    skipn (Z.to_nat (RecoveryCount params) * Z.to_nat (BlockBytes params)) out =
    skipn (Z.to_nat (RecoveryCount params) * Z.to_nat (BlockBytes params))
      region.
Proof.
  intros Hv Hfit Hreg.
  destruct (valid_params_guards params Hv) as [G1 G2].
  pose proof Hv as [Hk1 [Hm1 [Hkm HB1]]].
  unfold cm256_encode. rewrite G1, G2.
  set (k := Z.to_nat (OriginalCount params)) in *.
  set (m := Z.to_nat (RecoveryCount params)) in *.
  set (B := Z.to_nat (BlockBytes params)) in *.
  destruct (Z.eqb_spec (OriginalCount params) 1) as [K1|K1].
  - rewrite encode_copy_offsets
      by (try (unfold m; rewrite Z2Nat.id by lia; apply Hfit, K1); lia).
    eexists. split; [reflexivity|].
    destruct (encode_copies (original_at originals 0) (BlockBytes params)
                B m region eq_refl Hreg) as [L [_ O]].
    cbv zeta in L, O. split; [exact L|].
    apply skipn_eq_nth; [exact L|exact O].
  - destruct (encode_first_row params originals region
                ltac:(fold k; lia) ltac:(fold B; nia)) as [L1 [_ O1]].
    fold k B in L1, O1. cbv zeta in L1, O1.
    set (region1 := fold_left _ (seq 2 (k - 2)) _) in *.
    destruct (encode_rows_spec params originals
                (to_uint8 (OriginalCount params)) region1 (m - 1)
                ltac:(fold k; lia)) as [_ [L2 [_ O2]]].
    { fold B. rewrite L1. replace (m - 1 + 1)%nat with m by lia. exact Hreg. }
    fold k B m in L2, O2. cbv zeta in L2, O2.
    eexists. split; [reflexivity|]. split; [congruence|].
    apply skipn_eq_nth; [congruence|].
    intros q Hq.
    rewrite O2
      by (right; replace (m - 1 + 1)%nat with m by lia; exact Hq).
    apply O1.
    assert (1 * B <= m * B)%nat by (apply Nat.mul_le_mono_r; lia). lia.
Qed.

Lemma valid_original_at params originals j :
  valid_originals params originals ->
  (j < Z.to_nat (OriginalCount params))%nat ->
  length (original_at originals j) = Z.to_nat (BlockBytes params) /\
  forall p, is_byte (nth p (original_at originals j) 0).
Proof.
  intros [Hlen Hall] Hj. unfold original_at.
  rewrite Forall_forall in Hall.
  destruct (Hall (nth j originals [])) as [HL Hb].
  { apply nth_In. lia. }
  split; [exact HL|]. intro p.
  destruct (Nat.lt_ge_cases p (length (nth j originals []))).
  - rewrite Forall_forall in Hb. apply Hb, nth_In. assumption.
  - rewrite nth_overflow by assumption. apply is_byte_0.
Qed.

(** Both paths of the encoder, row by row. *)
Lemma encode_rows {ctx : gf256_ctx} (params : cm256_encoder_params)
    (originals : list (list Z)) (region : list Z) :
  valid_params params ->
  copy_offsets_fit params ->
  valid_originals params originals ->
  (Z.to_nat (RecoveryCount params) * Z.to_nat (BlockBytes params)
   <= length region)%nat ->
  exists out,
    cm256_encode params (Some originals) (Some region) = (0, Some out) /\
    length out = length region /\
    forall i, (i < Z.to_nat (RecoveryCount params))%nat ->
      region_row (Z.to_nat (BlockBytes params)) out i =
      encoded_row params originals i.
Proof.
  intros Hv Hfit Ho Hreg. unfold encoded_row.
  destruct (Z.eqb_spec (OriginalCount params) 1) as [K1|K1].
  - apply encode_single; try assumption; [apply Hfit, K1|].
    apply (valid_original_at params originals 0 Ho). rewrite K1. simpl. lia.
  - destruct Ho as [Hlen Hall].
    destruct (encode_general params originals region Hv
                ltac:(destruct Hv; lia) Hlen Hall Hreg)
      as [out [E [L [R _]]]].
    exists out. split; [exact E|]. split; [exact L|exact R].
Qed.

Lemma encoded_row_length {ctx : gf256_ctx} params originals i :
  valid_params params -> valid_originals params originals ->
  length (encoded_row params originals i) = Z.to_nat (BlockBytes params).
Proof.
  intros Hv Ho. unfold encoded_row.
  destruct (Z.eqb_spec (OriginalCount params) 1) as [K1|K1].
  - apply (valid_original_at params originals 0 Ho). rewrite K1. simpl. lia.
  - unfold recovery_block. rewrite length_map, length_seq. reflexivity.
Qed.

(** ** The recovery blocks do not depend on how many are asked for *)

(** X2 — Recovery block [i] is the same whether the encoder is asked for [m]
    or for [m' >= m] recovery blocks: a caller can produce further recovery
    blocks later without invalidating the ones already sent. *)
Theorem encode_recovery_count_independent {ctx : gf256_ctx}
    (params : cm256_encoder_params) (m' : Z)
    (originals : list (list Z)) (region region' : list Z) :
  let params' := {| OriginalCount := OriginalCount params;
                    RecoveryCount := m';
                    BlockBytes := BlockBytes params |} in
  valid_params params ->
  valid_params params' ->
  copy_offsets_fit params' ->
  RecoveryCount params <= m' ->
  valid_originals params originals ->
  (Z.to_nat (RecoveryCount params) * Z.to_nat (BlockBytes params)
   <= length region)%nat ->
  (Z.to_nat m' * Z.to_nat (BlockBytes params) <= length region')%nat ->
  exists out out',
    cm256_encode params (Some originals) (Some region) = (0, Some out) /\
    cm256_encode params' (Some originals) (Some region') = (0, Some out') /\
    forall i, (i < Z.to_nat (RecoveryCount params))%nat ->
      region_row (Z.to_nat (BlockBytes params)) out' i =
      region_row (Z.to_nat (BlockBytes params)) out i.
Proof.
  intros params' Hv Hv' Hfit' Hm Ho Hreg Hreg'.
  assert (Hfit : copy_offsets_fit params).
  { intro K1. specialize (Hfit' K1). cbn in Hfit'.
    destruct Hv as [? [? [? ?]]].
    apply Z.le_trans with ((m' - 1) * BlockBytes params); [|exact Hfit'].
    apply Z.mul_le_mono_nonneg_r; lia. }
  destruct (encode_rows params originals region Hv Hfit Ho Hreg)
    as [out [E [_ R]]].
  destruct (encode_rows params' originals region' Hv' Hfit' Ho Hreg')
    as [out' [E' [_ R']]].
  exists out, out'. split; [exact E|]. split; [exact E'|].
  intros i Hi. rewrite R by exact Hi.
  change (BlockBytes params) with (BlockBytes params').
  rewrite R' by (simpl; lia). reflexivity.
Qed.

(** ** Linearity *)

Lemma xor_buffers_length x y :
  length x = length y -> length (xor_buffers x y) = length x.
Proof.
  intro H. unfold xor_buffers. rewrite length_map, length_combine. lia.
Qed.

Lemma xor_buffers_nth x y p :
  length x = length y ->
  nth p (xor_buffers x y) 0 = gf256_add (nth p x 0) (nth p y 0).
Proof.
  intro H. unfold xor_buffers.
  change 0 with ((fun uv => gf256_add (fst uv) (snd uv)) (0, 0)) at 1.
  rewrite map_nth, combine_nth by exact H. reflexivity.
Qed.

Lemma xor_originals_at a b j :
  length a = length b ->
  original_at (xor_originals a b) j =
  xor_buffers (original_at a j) (original_at b j).
Proof.
  intro H. unfold original_at, xor_originals.
  change (@nil Z) with ((fun xy => xor_buffers (fst xy) (snd xy))
                          (@nil Z, @nil Z)) at 1.
  rewrite map_nth, combine_nth by exact H. reflexivity.
Qed.

Lemma xor_originals_valid params a b :
  valid_originals params a -> valid_originals params b ->
  valid_originals params (xor_originals a b).
Proof.
  intros Ha Hb. pose proof Ha as [La _]. pose proof Hb as [Lb _].
  split.
  - unfold xor_originals. rewrite length_map, length_combine. lia.
  - apply Forall_forall. intros o Ho.
    destruct (In_nth _ _ [] Ho) as [j [Hj Ej]].
    unfold xor_originals in Hj. rewrite length_map, length_combine in Hj.
    fold (original_at (xor_originals a b) j) in Ej.
    rewrite xor_originals_at in Ej by lia. subst o.
    destruct (valid_original_at params a j Ha ltac:(lia)) as [L1 B1].
    destruct (valid_original_at params b j Hb ltac:(lia)) as [L2 B2].
    split.
    + rewrite xor_buffers_length; lia.
    + apply Forall_forall. intros z Hz.
      destruct (In_nth _ _ 0 Hz) as [p [_ Ep]]. subst z.
      rewrite xor_buffers_nth by lia. auto with bytes.
Qed.

Lemma cauchy_element_byte {ctx : gf256_ctx} (params : cm256_encoder_params)
    (i j : nat) :
  valid_params params ->
  (i < Z.to_nat (RecoveryCount params))%nat ->
  (j < Z.to_nat (OriginalCount params))%nat ->
  is_byte (cauchy_element (OriginalCount params) i j) /\
  cauchy_element (OriginalCount params) i j <> 0.
Proof.
  intros [Hk [Hm [Hkm HB]]] Hi Hj. unfold cauchy_element.
  set (K := OriginalCount params) in *.
  assert (B1 : is_byte (Z.of_nat j)) by (unfold is_byte; lia).
  assert (B2 : is_byte K) by (unfold is_byte; lia).
  assert (B3 : is_byte (K + Z.of_nat i)) by (unfold is_byte; lia).
  assert (N1 : gf256_add (K + Z.of_nat i) (Z.of_nat j) <> 0)
    by (apply gf256_add_neq_0; lia).
  assert (N2 : gf256_add (Z.of_nat j) K <> 0)
    by (apply gf256_add_neq_0; lia).
  split.
  - apply gf256_div_byte; auto with bytes.
  - rewrite gf256_div_spec by auto with bytes.
    apply gf256_mul_neq_0.
    + auto with bytes.
    + apply gf256_inv_byte; auto with bytes.
    + exact N2.
    + apply gf256_inv_neq_0; auto with bytes.
Qed.

(** X3 — The encoder is linear over GF(256): the recovery blocks of the XOR
    of two sets of originals are the XOR of their recovery blocks. *)
Theorem encode_linear {ctx : gf256_ctx}
    (params : cm256_encoder_params) (a b : list (list Z))
    (region_a region_b region : list Z) :
  valid_params params ->
  copy_offsets_fit params ->
  valid_originals params a ->
  valid_originals params b ->
  (Z.to_nat (RecoveryCount params) * Z.to_nat (BlockBytes params)
   <= length region_a)%nat ->
  (Z.to_nat (RecoveryCount params) * Z.to_nat (BlockBytes params)
   <= length region_b)%nat ->
  (Z.to_nat (RecoveryCount params) * Z.to_nat (BlockBytes params)
   <= length region)%nat ->
  exists out_a out_b out,
    cm256_encode params (Some a) (Some region_a) = (0, Some out_a) /\
    cm256_encode params (Some b) (Some region_b) = (0, Some out_b) /\
    cm256_encode params (Some (xor_originals a b)) (Some region) =
      (0, Some out) /\
    forall i, (i < Z.to_nat (RecoveryCount params))%nat ->
      region_row (Z.to_nat (BlockBytes params)) out i =
      xor_buffers (region_row (Z.to_nat (BlockBytes params)) out_a i)
                  (region_row (Z.to_nat (BlockBytes params)) out_b i).
Proof.
  intros Hv Hfit Ha Hb Hra Hrb Hr.
  pose proof (xor_originals_valid params a b Ha Hb) as Hab.
  destruct (encode_rows params a region_a Hv Hfit Ha Hra)
    as [oa [Ea [_ Ra]]].
  destruct (encode_rows params b region_b Hv Hfit Hb Hrb)
    as [ob [Eb [_ Rb]]].
  destruct (encode_rows params _ region Hv Hfit Hab Hr) as [o [E [_ R]]].
  exists oa, ob, o. split; [exact Ea|]. split; [exact Eb|].
  split; [exact E|].
  intros i Hi. rewrite R, Ra, Rb by exact Hi.
  pose proof (encoded_row_length params a i Hv Ha) as La.
  pose proof (encoded_row_length params b i Hv Hb) as Lb.
  pose proof (encoded_row_length params _ i Hv Hab) as Lab.
  pose proof Ha as [Hla _]. pose proof Hb as [Hlb _].
  apply (list_eq_nth _ _ 0).
  - rewrite xor_buffers_length; lia.
  - intros p Hp. rewrite Lab in Hp.
    rewrite xor_buffers_nth by lia. unfold encoded_row.
    destruct (Z.eqb_spec (OriginalCount params) 1) as [K1|K1].
    + rewrite xor_originals_at by lia. apply xor_buffers_nth.
      destruct (valid_original_at params a 0 Ha) as [-> _];
        [rewrite K1; simpl; lia|].
      destruct (valid_original_at params b 0 Hb) as [-> _];
        [rewrite K1; simpl; lia|]. reflexivity.
    + unfold recovery_block. rewrite !nth_map_seq by exact Hp.
      rewrite <- gsum_add. apply gsum_ext. intros j Hj. apply in_seq in Hj.
      destruct (valid_original_at params a j Ha ltac:(lia)) as [L1 B1].
      destruct (valid_original_at params b j Hb ltac:(lia)) as [L2 B2].
      rewrite xor_originals_at, xor_buffers_nth by lia.
      apply gf256_mul_add_distr_l; auto.
      apply (cauchy_element_byte params i j Hv Hi). lia.
Qed.

(** ** No matrix element is zero *)

(** X4 — For field points [x_i], [x_0] different from [y_j] the matrix element
    is a non-zero byte: no coefficient of the generator matrix
    vanishes. *)
Theorem GetMatrixElement_nonzero {ctx : gf256_ctx} (x_i x_0 y_j : Z) :
  is_byte x_i -> is_byte x_0 -> is_byte y_j ->
  x_i <> y_j -> x_0 <> y_j ->
  is_byte (GetMatrixElement x_i x_0 y_j) /\
  GetMatrixElement x_i x_0 y_j <> 0.
Proof.
  intros Hi H0 Hj Nij N0j.
  assert (N1 : gf256_add x_i y_j <> 0) by (apply gf256_add_neq_0; exact Nij).
  assert (N2 : gf256_add y_j x_0 <> 0)
    by (apply gf256_add_neq_0; congruence).
  split; [apply GetMatrixElement_byte; assumption|].
  unfold GetMatrixElement. rewrite gf256_div_spec by auto with bytes.
  apply gf256_mul_neq_0.
  - auto with bytes.
  - apply gf256_inv_byte; auto with bytes.
  - exact N2.
  - apply gf256_inv_neq_0; auto with bytes.
Qed.

Lemma gsum_single (f : nat -> Z) (k j : nat) :
  (j < k)%nat -> (forall j', j' <> j -> f j' = 0) ->
  gsum f (seq 0 k) = f j.
Proof.
  intros Hj Hz.
  replace k with (j + S (k - S j))%nat by lia.
  rewrite seq_app. cbn [seq]. rewrite gsum_app, gsum_cons.
  rewrite (gsum_zero f (seq 0 j)).
  2:{ intros j' H. apply in_seq in H. apply Hz. lia. }
  rewrite (gsum_zero f (seq _ _)).
  2:{ intros j' H. apply in_seq in H. apply Hz. lia. }
  rewrite gf256_add_0_l, gf256_add_0_r. reflexivity.
Qed.

(** ** Every recovery block covers every original byte *)

(** X5 — When two sets of originals differ at byte [p] in exactly one block,
    every recovery block differs at byte [p]: no recovery block is blind
    to a change of an original. *)
Theorem encode_covers_every_original {ctx : gf256_ctx}
    (params : cm256_encoder_params) (a b : list (list Z))
    (region_a region_b : list Z) (j p : nat) :
  valid_params params ->
  copy_offsets_fit params ->
  valid_originals params a ->
  valid_originals params b ->
  (Z.to_nat (RecoveryCount params) * Z.to_nat (BlockBytes params)
   <= length region_a)%nat ->
  (Z.to_nat (RecoveryCount params) * Z.to_nat (BlockBytes params)
   <= length region_b)%nat ->
  (j < Z.to_nat (OriginalCount params))%nat ->
  (p < Z.to_nat (BlockBytes params))%nat ->
  nth p (original_at a j) 0 <> nth p (original_at b j) 0 ->
  (forall j', j' <> j ->
     nth p (original_at a j') 0 = nth p (original_at b j') 0) ->
  exists out_a out_b,
    cm256_encode params (Some a) (Some region_a) = (0, Some out_a) /\
    cm256_encode params (Some b) (Some region_b) = (0, Some out_b) /\
    forall i, (i < Z.to_nat (RecoveryCount params))%nat ->
      nth p (region_row (Z.to_nat (BlockBytes params)) out_a i) 0 <>
      nth p (region_row (Z.to_nat (BlockBytes params)) out_b i) 0.
Proof.
  intros Hv Hfit Ha Hb Hra Hrb Hj Hp Hne Hsame.
  destruct (encode_rows params a region_a Hv Hfit Ha Hra)
    as [oa [Ea [_ Ra]]].
  destruct (encode_rows params b region_b Hv Hfit Hb Hrb)
    as [ob [Eb [_ Rb]]].
  exists oa, ob. split; [exact Ea|]. split; [exact Eb|].
  intros i Hi. rewrite Ra, Rb by exact Hi. unfold encoded_row.
  destruct (Z.eqb_spec (OriginalCount params) 1) as [K1|K1].
  - replace j with 0%nat in Hne; [exact Hne|].
    rewrite K1 in Hj. simpl in Hj. lia.
  - unfold recovery_block. rewrite !nth_map_seq by exact Hp.
    intro E. apply (proj2 (gf256_add_eq_0 _ _)) in E.
    rewrite <- gsum_add in E.
    rewrite (gsum_single _ _ j Hj) in E.
    + destruct (cauchy_element_byte params i j Hv Hi Hj) as [Cb Cn].
      destruct (valid_original_at params a j Ha Hj) as [_ Ba].
      destruct (valid_original_at params b j Hb Hj) as [_ Bb].
      rewrite <- gf256_mul_add_distr_l in E by auto.
      apply gf256_mul_eq_0 in E; auto with bytes.
      destruct E as [E|E]; [exact (Cn E)|].
      apply (proj1 (gf256_add_eq_0 _ _)) in E. exact (Hne E).
    + intros j' Hj'. rewrite (Hsame j' Hj').
      apply gf256_add_nilpotent.
Qed.

(* ================================================================= *)
(** * Further properties of the decoder *)

Lemma nth_map_default {A C : Type} (f : A -> C) (l : list A) (d : A) (d' : C)
    (t : nat) :
  (t < length l)%nat -> nth t (map f l) d' = f (nth t l d).
Proof.
  intro Ht. rewrite (nth_indep _ d' (f d)) by (rewrite length_map; exact Ht).
  apply map_nth.
Qed.

Lemma singleton_list {A : Type} (l : list A) (d : A) :
  length l = 1%nat -> l = [nth 0 l d].
Proof. destruct l as [|x [|y l]]; try discriminate. reflexivity. Qed.

(** On valid parameters the decoder returns 0. *)
Lemma decode_returns_0 {ctx : gf256_ctx} uninit params blocks :
  valid_params params -> fst (cm256_decode uninit params blocks) = 0.
Proof.
  intro Hv. rewrite cm256_decode_valid by exact Hv. cbv zeta.
  repeat match goal with
         | |- fst (if ?c then _ else _) = _ => destruct c
         end; reflexivity.
Qed.

Section DecodeLabels.
Context {ctx : gf256_ctx}.
Variable uninit : list Z.
Variable params : cm256_encoder_params.
Variable blocks : list cm256_block.

Hypothesis Hparams : valid_params params.
Hypothesis Hblocks : valid_blocks params blocks.
Hypothesis Huninit : length uninit = 256%nat.

Let d := Decoder.Initialize uninit params blocks.
Let K := OriginalCount params.
Let k := Z.to_nat K.

(** The rows of the erased originals and of the originals that came in
    make up [0 .. k-1]. *)
Lemma rows_perm :
  Permutation (erased_rows params blocks ++
               map (row_of blocks) (original_positions params blocks))
              (seq 0 k).
Proof.
  eapply Permutation_trans;
    [|apply (filter_split_perm
               (fun j => existsb (fun b => Index b =? Z.of_nat j) blocks))].
  apply Permutation_app_head.
  apply (present_rows_perm uninit params blocks Hblocks Huninit).
Qed.

Lemma decode_positions (blocks' : list cm256_block) (g : cm256_block -> Z) :
  length blocks' = k ->
  Permutation (map g blocks')
    (map (fun pos => g (block_at blocks' pos))
         (recovery_positions params blocks) ++
     map (fun pos => g (block_at blocks' pos))
         (original_positions params blocks)).
Proof.
  intro L. rewrite (map_nth_seq g blocks' null_block), L.
  rewrite <- map_app. apply Permutation_map, Permutation_sym.
  apply positions_perm.
Qed.

(** The indices that leave the decoder. *)
Lemma decode_labels (blocks' : list cm256_block) :
  cm256_decode uninit params blocks = (0, blocks') ->
  Permutation (map Index blocks') (map Z.of_nat (seq 0 k)).
Proof.
  intro E. pose proof Hblocks as [Hlen [Hnd Hall]]. fold K k in Hlen.
  destruct (Z.eq_dec K 1) as [K1|K1].
  - unfold k in *. rewrite K1 in *. unfold K in K1.
    rewrite (singleton_list blocks null_block Hlen) in E.
    rewrite decode_single in E by assumption.
    injection E as <-. apply Permutation_refl.
  - assert (HK2 : 2 <= K) by (destruct Hparams; unfold K; lia).
    destruct (decode_entry uninit params blocks Hparams Hblocks Huninit
                (fun _ _ => 0) HK2) as [bs [E' [L [F [I _]]]]].
    rewrite E in E'. injection E' as <-.
    fold d in F, I.
    assert (HR : Decoder.Recovery d = recovery_positions params blocks)
      by apply valid_Recovery.
    eapply Permutation_trans;
      [apply decode_positions; rewrite L; exact Hlen|].
    eapply Permutation_trans; [|apply Permutation_map, rows_perm].
    rewrite map_app, map_map. apply Permutation_app.
    + match goal with |- Permutation ?a ?b => replace a with b end;
        [apply Permutation_refl|].
      pose proof (erased_count uninit params blocks Hblocks) as Hc.
      fold d in Hc. rewrite HR in Hc.
      apply (list_eq_nth _ _ 0).
      * rewrite !length_map. exact Hc.
      * intros t Ht. rewrite length_map in Ht.
        rewrite (nth_map_default _ _ 0%nat) by exact Ht.
        rewrite (nth_map_default _ _ 0%nat) by (rewrite <- Hc; exact Ht).
        rewrite <- HR. symmetry. apply I. rewrite HR, <- Hc. exact Ht.
    + match goal with |- Permutation ?a ?b => replace a with b end;
        [apply Permutation_refl|].
      apply map_ext_in. intros o Ho.
      apply filter_In in Ho. destruct Ho as [Ho Hlt].
      apply in_seq in Ho. apply Z.ltb_lt in Hlt.
      pose proof (block_index_range params blocks Hblocks o ltac:(lia)).
      rewrite F.
      * unfold row_of. lia.
      * rewrite HR. unfold recovery_positions. rewrite filter_In.
        intros [_ H']. apply negb_true_iff, Z.ltb_ge in H'. lia.
Qed.

Lemma decode_outcome :
  exists blocks',
    cm256_decode uninit params blocks = (0, blocks') /\
    Permutation (map Index blocks') (map Z.of_nat (seq 0 k)).
Proof.
  pose proof (decode_returns_0 uninit params blocks Hparams) as H0.
  destruct (cm256_decode uninit params blocks) as [r blocks'] eqn:E.
  cbn [fst] in H0. subst r. exists blocks'. split; [reflexivity|].
  apply decode_labels. exact E.
Qed.

End DecodeLabels.

(** ** The labels after decoding *)

(** X6 — After [cm256_decode] on a valid input the indices of the [k] blocks
    are the original rows [0 .. k-1], each exactly once. *)
Theorem decode_labels_complete {ctx : gf256_ctx} (uninit : list Z)
    (params : cm256_encoder_params) (blocks : list cm256_block) :
  valid_params params ->
  valid_blocks params blocks ->
  length uninit = 256%nat ->
  exists blocks',
    cm256_decode uninit params blocks = (0, blocks') /\
    Permutation (map Index blocks')
      (map Z.of_nat (seq 0 (Z.to_nat (OriginalCount params)))).
Proof. intros Hv Hb Hu. apply decode_outcome; assumption. Qed.

(** ** Decoding twice *)

(** X7 — [cm256_decode] is idempotent: run on its own output, whatever the
    stack holds that time, it returns 0 and changes nothing. *)
Theorem decode_idempotent {ctx : gf256_ctx} (uninit uninit' : list Z)
    (params : cm256_encoder_params) (blocks : list cm256_block) :
  valid_params params ->
  valid_blocks params blocks ->
  length uninit = 256%nat ->
  exists blocks',
    cm256_decode uninit params blocks = (0, blocks') /\
    cm256_decode uninit' params blocks' = (0, blocks').
Proof.
  intros Hv Hb Hu.
  destruct (decode_outcome uninit params blocks Hv Hb Hu)
    as [blocks' [E P]].
  exists blocks'. split; [exact E|].
  assert (L : length blocks' = Z.to_nat (OriginalCount params)).
  { apply Permutation_length in P.
    rewrite !length_map, length_seq in P. exact P. }
  assert (Hidx : forall pos, (pos < Z.to_nat (OriginalCount params))%nat ->
            0 <= Index (block_at blocks' pos) < OriginalCount params).
  { intros pos Hpos.
    assert (Hin : In (Index (block_at blocks' pos)) (map Index blocks'))
      by (apply in_map, nth_In; lia).
    apply (Permutation_in _ P) in Hin. apply in_map_iff in Hin.
    destruct Hin as [j [<- Hj]]. apply in_seq in Hj. lia. }
  rewrite cm256_decode_valid by exact Hv.
  destruct (Z.eqb_spec (OriginalCount params) 1) as [K1|K1].
  - f_equal. rewrite K1 in L, Hidx.
    destruct blocks' as [|b [|b' bs]]; try discriminate L.
    specialize (Hidx 0%nat ltac:(simpl; lia)). unfold block_at in Hidx.
    cbn [nth] in Hidx. assert (E0 : Index b = 0) by lia.
    simpl. rewrite <- E0 at 1. rewrite store_Index_same. reflexivity.
  - cbv zeta.
    destruct (Initialize_partition uninit' params blocks') as [_ [_ R]].
    unfold Decoder.RecoveryCount. rewrite R. unfold recovery_positions.
    rewrite (filter_false _ (seq 0 _)); [reflexivity|].
    intros pos Hpos. apply in_seq in Hpos.
    apply negb_false_iff, Z.ltb_lt, Hidx. lia.
Qed.

(** ** Any [k] blocks, in any order *)

(** The block of the code word with index [idx]: original [idx] below
    [k], recovery row [idx - k] of the encoder's output from [k] on. *)
Definition codeword_block (params : cm256_encoder_params)
    (originals : list (list Z)) (out : list Z) (idx : Z) : list Z :=
  if idx <? OriginalCount params
  then original_at originals (Z.to_nat idx)
  else region_row (Z.to_nat (BlockBytes params)) out
         (Z.to_nat (idx - OriginalCount params)).

Section AnyBlocks.
Context {ctx : gf256_ctx}.
Variable uninit : list Z.
Variable params : cm256_encoder_params.
Variable originals : list (list Z).
Variable out : list Z.
Variable blocks : list cm256_block.

Let K := OriginalCount params.
Let k := Z.to_nat K.
Let m := Z.to_nat (RecoveryCount params).
Let B := Z.to_nat (BlockBytes params).

Hypothesis Hparams : valid_params params.
Hypothesis Huninit : length uninit = 256%nat.
Hypothesis Horig : valid_originals params originals.
Hypothesis Hrows : forall i, (i < m)%nat ->
  region_row B out i = encoded_row params originals i.
Hypothesis Hblocks : valid_blocks params blocks.
Hypothesis Hcode :
  Forall (fun b => Block b = codeword_block params originals out (Index b))
         blocks.

Lemma codeword_at pos :
  (pos < k)%nat ->
  Block (block_at blocks pos) =
  codeword_block params originals out (Index (block_at blocks pos)).
Proof.
  intro Hpos. rewrite Forall_forall in Hcode. apply Hcode.
  apply (block_at_In params blocks Hblocks), Hpos.
Qed.

Lemma codeword_original pos :
  (pos < k)%nat -> Index (block_at blocks pos) < K ->
  block_at blocks pos =
  original_block originals (Z.to_nat (Index (block_at blocks pos))).
Proof.
  intros Hpos Hlt.
  pose proof (block_index_range params blocks Hblocks pos Hpos) as Hr.
  unfold original_block. apply block_eta; [|lia].
  rewrite codeword_at by exact Hpos. unfold codeword_block. fold K.
  apply Z.ltb_lt in Hlt. rewrite Hlt. reflexivity.
Qed.

Lemma codeword_recovery pos :
  (pos < k)%nat -> K <= Index (block_at blocks pos) ->
  Block (block_at blocks pos) =
  encoded_row params originals (Z.to_nat (Index (block_at blocks pos) - K)).
Proof.
  intros Hpos Hge.
  pose proof (block_index_range params blocks Hblocks pos Hpos) as Hr.
  rewrite codeword_at by exact Hpos. unfold codeword_block. fold K B.
  apply Z.ltb_ge in Hge. rewrite Hge. apply Hrows. unfold m. fold K in Hr. lia.
Qed.

Lemma any_blocks_encoded :
  2 <= K ->
  encoded_input uninit params blocks
    (fun j p => nth p (original_at originals j) 0).
Proof.
  intro HK2.
  assert (Hrec : forall r,
            In r (Decoder.Recovery (Decoder.Initialize uninit params blocks)) ->
            (r < k)%nat /\ K <= Index (block_at blocks r)).
  { intros r Hr. rewrite valid_Recovery in Hr.
    apply filter_In in Hr. destruct Hr as [Hr Hge]. apply in_seq in Hr.
    apply negb_true_iff, Z.ltb_ge in Hge. fold K k in Hr, Hge.
    split; [lia|exact Hge]. }
  assert (HK1 : (OriginalCount params =? 1) = false)
    by (apply Z.eqb_neq; fold K; lia).
  constructor.
  - intros j p Hj Hp. apply (valid_original_at params originals j Horig Hj).
  - intros r Hr. destruct (Hrec r Hr) as [Hrk Hge].
    rewrite codeword_recovery by assumption.
    apply encoded_row_length; assumption.
  - intros o p Ho Hp. rewrite valid_Original in Ho.
    apply filter_In in Ho. destruct Ho as [Ho Hlt]. apply in_seq in Ho.
    apply Z.ltb_lt in Hlt. fold K k in Ho, Hlt.
    rewrite (codeword_original o) by (try lia; exact Hlt). reflexivity.
  - intros r p Hr Hp. destruct (Hrec r Hr) as [Hrk Hge].
    pose proof (block_index_range params blocks Hblocks r Hrk) as Hrg.
    rewrite codeword_recovery by assumption.
    unfold encoded_row. rewrite HK1. unfold recovery_block.
    rewrite nth_map_seq by exact Hp.
    apply gsum_ext. intros j Hj. unfold cauchy_element. fold K.
    rewrite Z2Nat.id by lia.
    replace (K + (Index (block_at blocks r) - K))
      with (Index (block_at blocks r)) by lia.
    reflexivity.
Qed.

Lemma any_blocks_recovered (blocks' : list cm256_block) :
  cm256_decode uninit params blocks = (0, blocks') ->
  forall pos, (pos < k)%nat ->
    block_at blocks' pos =
    original_block originals (Z.to_nat (Index (block_at blocks' pos))).
Proof.
  intros E pos Hpos.
  pose proof Hblocks as [Hlen _]. fold K k in Hlen.
  destruct (Z.eq_dec K 1) as [K1|K1].
  - unfold k in *. rewrite K1 in *. unfold K in K1.
    rewrite (singleton_list blocks null_block Hlen) in E.
    rewrite decode_single in E by assumption. injection E as <-.
    replace pos with 0%nat by (simpl in Hpos; lia).
    unfold block_at. cbn [nth Index]. unfold original_block.
    apply block_eta; [|reflexivity]. cbn [Block].
    fold (block_at blocks 0).
    pose proof (block_index_range params blocks Hblocks 0%nat) as Hr.
    rewrite K1 in Hr. specialize (Hr ltac:(simpl; lia)).
    destruct (Z_lt_le_dec (Index (block_at blocks 0)) 1) as [Hlt|Hge].
    + rewrite codeword_original.
      * unfold original_block. cbn [Block].
        replace (Index (block_at blocks 0)) with 0 by lia. reflexivity.
      * unfold k, K. rewrite K1. simpl. lia.
      * unfold K. rewrite K1. exact Hlt.
    + rewrite codeword_recovery.
      * unfold encoded_row. rewrite K1. reflexivity.
      * unfold k, K. rewrite K1. simpl. lia.
      * unfold K. rewrite K1. exact Hge.
  - assert (HK2 : 2 <= K) by (destruct Hparams; unfold K; lia).
    pose proof (any_blocks_encoded HK2) as HE.
    destruct (decode_entry uninit params blocks Hparams Hblocks Huninit
                (fun j p => nth p (original_at originals j) 0) HK2)
      as [bs [E' [L [F [I D]]]]].
    rewrite E in E'. injection E' as <-. specialize (D HE).
    set (d := Decoder.Initialize uninit params blocks) in *.
    assert (HR : Decoder.Recovery d = recovery_positions params blocks)
      by apply valid_Recovery.
    destruct (position_cases params blocks pos Hpos) as [[H1 H2]|[H1 H2]].
    + rewrite F by (rewrite HR; exact H2).
      apply codeword_original; assumption.
    + rewrite <- HR in H2.
      destruct (In_nth _ _ 0%nat H2) as [t [Ht Et]].
      fold (Decoder.Recovery_at d t) in Et.
      destruct (I t Ht) as [It Lt]. rewrite Et in It, Lt.
      specialize (D t). rewrite Et in D.
      pose proof (erased_lt uninit params blocks Hblocks t Ht) as He.
      fold d k in He.
      unfold original_block.
      apply block_eta;
        [|rewrite It; unfold column_point; rewrite Nat2Z.id; reflexivity].
      rewrite It. unfold column_point. rewrite Nat2Z.id.
      set (e := nth t (erased_rows params blocks) 0%nat) in *.
      destruct (valid_original_at params originals e Horig He) as [Le _].
      assert (Lr : length (Block (block_at blocks pos)) = B).
      { apply (ei_length _ _ _ _ HE). fold d. rewrite <- Et.
        apply nth_In, Ht. }
      apply (list_eq_nth _ _ 0).
      * rewrite Lt, Lr, Le. reflexivity.
      * intros p Hp. rewrite Lt, Lr in Hp. apply D; assumption.
Qed.

End AnyBlocks.

(** X8 — Any [k] distinct blocks of the code word, originals and recovery
    blocks alike, handed to the decoder in any order, give back all [k]
    originals, each with its own row as index. *)
Theorem decode_any_k_blocks {ctx : gf256_ctx} (uninit : list Z)
    (params : cm256_encoder_params) (originals : list (list Z))
    (region : list Z) :
  valid_params params ->
  copy_offsets_fit params ->
  length uninit = 256%nat ->
  valid_originals params originals ->
  (Z.to_nat (RecoveryCount params) * Z.to_nat (BlockBytes params)
   <= length region)%nat ->
  exists out,
    cm256_encode params (Some originals) (Some region) = (0, Some out) /\
    forall blocks,
      valid_blocks params blocks ->
      Forall (fun b =>
                Block b = codeword_block params originals out (Index b))
             blocks ->
      exists blocks',
        cm256_decode uninit params blocks = (0, blocks') /\
        Permutation blocks'
          (map (original_block originals)
               (seq 0 (Z.to_nat (OriginalCount params)))).
Proof.
  intros Hv Hfit Hu Ho Hreg.
  destruct (encode_rows params originals region Hv Hfit Ho Hreg)
    as [out [E [_ R]]].
  exists out. split; [exact E|]. intros blocks Hb Hc.
  destruct (decode_outcome uninit params blocks Hv Hb Hu)
    as [blocks' [E' P]].
  exists blocks'. split; [exact E'|].
  assert (L : length blocks' = Z.to_nat (OriginalCount params)).
  { apply Permutation_length in P.
    rewrite !length_map, length_seq in P. exact P. }
  assert (Hmap : blocks' =
            map (original_block originals)
                (map Z.to_nat (map Index blocks'))).
  { rewrite !map_map. apply (list_eq_nth _ _ null_block).
    - rewrite length_map. reflexivity.
    - intros pos Hpos.
      rewrite (nth_map_default _ _ null_block) by exact Hpos.
      apply (any_blocks_recovered uninit params originals out blocks
               Hv Hu Ho R Hb Hc blocks' E'). lia. }
  rewrite Hmap. apply Permutation_map.
  eapply Permutation_trans; [apply Permutation_map, P|].
  rewrite map_map.
  rewrite (map_ext _ (fun j => j)) by (intro; apply Nat2Z.id).
  rewrite map_id. apply Permutation_refl.
Qed.

(** ** The uninitialised erasure table *)

(** Two decoder states that differ only in the slots of [ErasuresIndices]
    from [RecoveryCount] on decode alike. *)
Section SameErasures.
Context {ctx : gf256_ctx}.
Variables d1 d2 : Decoder.t.

Hypothesis same_Params : Decoder.Params d1 = Decoder.Params d2.
Hypothesis same_Recovery : Decoder.Recovery d1 = Decoder.Recovery d2.
Hypothesis same_Original : Decoder.Original d1 = Decoder.Original d2.
Hypothesis same_Erasures :
  forall j, (j < length (Decoder.Recovery d1))%nat ->
    nth j (Decoder.ErasuresIndices d1) 0 =
    nth j (Decoder.ErasuresIndices d2) 0.

Lemma DecodeM1_same blocks :
  (0 < length (Decoder.Recovery d1))%nat ->
  Decoder.DecodeM1 d1 blocks = Decoder.DecodeM1 d2 blocks.
Proof.
  intro Hn. unfold Decoder.DecodeM1, Decoder.Recovery_at.
  rewrite same_Erasures by exact Hn.
  rewrite same_Params, same_Recovery, same_Original. reflexivity.
Qed.

Lemma Decode_eliminate_originals_same x_0 blocks :
  Decoder.Decode_eliminate_originals d1 x_0 blocks =
  Decoder.Decode_eliminate_originals d2 x_0 blocks.
Proof.
  unfold Decoder.Decode_eliminate_originals.
  rewrite same_Params, same_Recovery, same_Original. reflexivity.
Qed.

Lemma Decode_fill_matrix_same x_0 blocks :
  Decoder.Decode_fill_matrix d1 x_0 blocks =
  Decoder.Decode_fill_matrix d2 x_0 blocks.
Proof.
  unfold Decoder.Decode_fill_matrix, Decoder.Decode_matrix_calls.
  rewrite <- same_Recovery. f_equal.
  apply flat_map_ext. intro r. apply map_ext_in. intros j Hj.
  apply in_seq in Hj. rewrite same_Erasures by lia. reflexivity.
Qed.

Lemma Decode_pivot_same j remainingIndex i e st :
  (j < length (Decoder.Recovery d1))%nat ->
  Decoder.Decode_pivot d1 j remainingIndex i e st =
  Decoder.Decode_pivot d2 j remainingIndex i e st.
Proof.
  intro Hj. unfold Decoder.Decode_pivot, Decoder.Recovery_at.
  rewrite same_Erasures by exact Hj.
  rewrite same_Params, same_Recovery. reflexivity.
Qed.

Lemma Decode_hunt_same fuel j remainingIndex st :
  (j < length (Decoder.Recovery d1))%nat ->
  Decoder.Decode_hunt d1 fuel j remainingIndex st =
  Decoder.Decode_hunt d2 fuel j remainingIndex st.
Proof.
  intro Hj. revert remainingIndex.
  induction fuel as [|fuel IH]; intro remainingIndex; [reflexivity|].
  cbn [Decoder.Decode_hunt]. cbv zeta.
  rewrite IH, Decode_pivot_same by exact Hj.
  rewrite same_Recovery. reflexivity.
Qed.

Lemma Decode_gauss_same st :
  Decoder.Decode_gauss d1 st = Decoder.Decode_gauss d2 st.
Proof.
  unfold Decoder.Decode_gauss. cbv zeta. rewrite <- same_Recovery.
  apply fold_left_ext_in. intros st' j Hj. apply in_seq in Hj.
  apply Decode_hunt_same. lia.
Qed.

Lemma Decode_back_substitute_same st :
  Decoder.Decode_back_substitute d1 st = Decoder.Decode_back_substitute d2 st.
Proof.
  unfold Decoder.Decode_back_substitute, Decoder.Recovery_at.
  rewrite same_Params, same_Recovery. reflexivity.
Qed.

Lemma Decode_same blocks :
  Decoder.Decode d1 blocks = Decoder.Decode d2 blocks.
Proof.
  unfold Decoder.Decode. cbv zeta.
  rewrite Decode_back_substitute_same, Decode_gauss_same.
  rewrite Decode_fill_matrix_same, !Decode_eliminate_originals_same.
  rewrite same_Params. reflexivity.
Qed.

End SameErasures.

(** X9 — The decoder's stack array [ErasuresIndices] is not initialised in
    full, and the loop that fills it reads slots that were never
    written; on a valid input the result does not depend on what they
    held. *)
Theorem decode_ignores_uninitialised {ctx : gf256_ctx}
    (uninit uninit' : list Z) (params : cm256_encoder_params)
    (blocks : list cm256_block) :
  valid_params params ->
  valid_blocks params blocks ->
  length uninit = 256%nat ->
  length uninit' = 256%nat ->
  cm256_decode uninit params blocks = cm256_decode uninit' params blocks.
Proof.
  intros Hv Hb Hu Hu'. rewrite !cm256_decode_valid by exact Hv.
  destruct (OriginalCount params =? 1); [reflexivity|]. cbv zeta.
  set (d1 := Decoder.Initialize uninit params blocks).
  set (d2 := Decoder.Initialize uninit' params blocks).
  assert (HP : Decoder.Params d1 = Decoder.Params d2)
    by (unfold d1, d2; rewrite !valid_Params; reflexivity).
  assert (HR : Decoder.Recovery d1 = Decoder.Recovery d2)
    by (unfold d1, d2; rewrite !valid_Recovery; reflexivity).
  assert (HO : Decoder.Original d1 = Decoder.Original d2)
    by (unfold d1, d2; rewrite !valid_Original; reflexivity).
  assert (HE : forall j, (j < length (Decoder.Recovery d1))%nat ->
            nth j (Decoder.ErasuresIndices d1) 0 =
            nth j (Decoder.ErasuresIndices d2) 0).
  { intros j Hj. unfold d1, d2.
    rewrite (valid_erasures uninit params blocks Hv Hb Hu j Hj).
    rewrite (valid_erasures uninit' params blocks Hv Hb Hu' j);
      [reflexivity|].
    fold d2. rewrite <- HR. exact Hj. }
  unfold Decoder.RecoveryCount. rewrite <- HR.
  destruct (Z.leb_spec (Z.of_nat (length (Decoder.Recovery d1))) 0);
    [reflexivity|].
  destruct (RecoveryCount params =? 1).
  - rewrite (DecodeM1_same d1 d2 HP HR HO HE blocks) by lia. reflexivity.
  - rewrite (Decode_same d1 d2 HP HR HO HE blocks). reflexivity.
Qed.

(** ** The pivot hunt *)

Section PivotHunt.
Context {ctx : gf256_ctx}.
Variable uninit : list Z.
Variable params : cm256_encoder_params.
Variable blocks : list cm256_block.

Hypothesis Hparams : valid_params params.
Hypothesis Hblocks : valid_blocks params blocks.
Hypothesis Huninit : length uninit = 256%nat.

Let d := Decoder.Initialize uninit params blocks.
Let n := length (Decoder.Recovery d).
Let start := start_state uninit params blocks.

Lemma hunt_invariant (t : nat) :
  (t <= n)%nat ->
  gauss_inv d (row_point uninit params blocks) (column_point params blocks)
    t (gauss_prefix d t start).
Proof.
  intro Ht.
  destruct (valid_n uninit params blocks Hparams Huninit) as [Hnk Hk].
  fold d n in Hnk.
  apply (gauss_prefix_spec d (valid_rp_NoDup uninit params blocks)
           ltac:(fold d n; lia)
           (row_point uninit params blocks) (column_point params blocks)
           (row_point_byte uninit params blocks Hparams Hblocks Huninit)
           (column_point_byte uninit params blocks Hparams Hblocks Huninit)
           (row_column_neq uninit params blocks Hblocks Huninit)
           (row_point_inj uninit params blocks Hblocks Huninit)
           (column_point_inj uninit params blocks Hblocks)
           (fun _ _ => 0) ltac:(intros; exact is_byte_0)
           t start Ht
           (start_ginv uninit params blocks Hparams Hblocks Huninit)).
Qed.

Lemma hunt_step (t : nat) :
  (t < n)%nat ->
  M d (gauss_prefix d t start) t t <> 0 /\
  gauss_prefix d (S t) start =
  Decoder.Decode_pivot d t t t (M d (gauss_prefix d t start) t t)
    (gauss_prefix d t start).
Proof.
  intro Ht.
  destruct (valid_n uninit params blocks Hparams Huninit) as [Hnk Hk].
  fold d n in Hnk.
  pose proof (hunt_invariant t ltac:(lia)) as G.
  destruct (gauss_inv_step d (valid_rp_NoDup uninit params blocks)
              ltac:(fold d n; lia)
              (row_point uninit params blocks) (column_point params blocks)
              (row_point_byte uninit params blocks Hparams Hblocks Huninit)
              (column_point_byte uninit params blocks Hparams Hblocks Huninit)
              (row_column_neq uninit params blocks Hblocks Huninit)
              (row_point_inj uninit params blocks Hblocks Huninit)
              (column_point_inj uninit params blocks Hblocks)
              t _ G Ht) as [He _].
  split; [exact He|].
  unfold gauss_prefix at 1. rewrite seq_S, fold_left_app.
  cbn [fold_left]. simpl (0 + t)%nat.
  fold (gauss_prefix d t start). fold n.
  apply Decode_hunt_first;
    [fold d n; lia|exact (gi_wf _ _ _ _ _ G)|exact Ht|exact He].
Qed.

Lemma hunt_pivots (t : nat) :
  (t <= n)%nat ->
  Decoder.el_pivots (gauss_prefix d t start) = Decoder.el_pivots start.
Proof.
  destruct (valid_n uninit params blocks Hparams Huninit) as [Hnk Hk].
  fold d n in Hnk.
  induction t as [|t IH]; intro Ht; [reflexivity|].
  destruct (hunt_step t ltac:(lia)) as [_ ->].
  pose proof (hunt_invariant t ltac:(lia)) as G.
  destruct (Decode_pivot_spec d (valid_rp_NoDup uninit params blocks)
              ltac:(fold d n; lia) t _ (gi_wf _ _ _ _ _ G) ltac:(fold n; lia))
    as [_ [P _]].
  cbv zeta in P. rewrite P. apply IH. lia.
Qed.

End PivotHunt.

(** X10 — In [Decoder::Decode] on a valid input the hunt for a pivot ends at
    its first candidate in every column: when column [j] is reached,
    [pivots[j]] is still [j] and the element of row [j] in column [j] is
    not zero.  So the [continue] is not taken, no two rows are swapped,
    and [pivots] leaves the elimination as it entered it. *)
Theorem Decode_pivot_is_first_candidate {ctx : gf256_ctx} (uninit : list Z)
    (params : cm256_encoder_params) (blocks : list cm256_block) :
  valid_params params ->
  valid_blocks params blocks ->
  length uninit = 256%nat ->
  let d := Decoder.Initialize uninit params blocks in
  let n := length (Decoder.Recovery d) in
  let start := start_state uninit params blocks in
  Decoder.Decode d blocks =
    Decoder.Decode_back_substitute d (Decoder.Decode_gauss d start) /\
  (forall j, (j < n)%nat ->
     let st := gauss_prefix d j start in
     nth j (Decoder.el_pivots st) 0 = Z.of_nat j /\
     nth (Z.to_nat (nth j (Decoder.el_pivots st) 0) * n + j)
         (Decoder.el_matrix st) 0 <> 0) /\
  Decoder.el_pivots (Decoder.Decode_gauss d start) =
    Decoder.el_pivots start.
Proof.
  intros Hv Hb Hu d n start.
  split; [apply Decode_eq; exact Hv|]. split.
  - intros j Hj st.
    pose proof (hunt_invariant uninit params blocks Hv Hb Hu j
                  ltac:(fold d n; lia)) as G.
    fold d start st in G.
    pose proof (wf_pivots d st (gi_wf _ _ _ _ _ G) j Hj) as Hp.
    split; [exact Hp|]. rewrite Hp, Nat2Z.id.
    apply (hunt_step uninit params blocks Hv Hb Hu j Hj).
  - apply (hunt_pivots uninit params blocks Hv Hb Hu n). fold d. lia.
Qed.

(** ** The fast path and the general path *)

Section FastPath.
Context {ctx : gf256_ctx}.
Variable uninit : list Z.
Variable params : cm256_encoder_params.
Variable blocks : list cm256_block.

Hypothesis Hparams : valid_params params.
Hypothesis Hblocks : valid_blocks params blocks.
Hypothesis Huninit : length uninit = 256%nat.
Hypothesis Hm : RecoveryCount params = 1.
Hypothesis Hbuffers :
  Forall (fun b => length (Block b) = Z.to_nat (BlockBytes params) /\
                   Forall is_byte (Block b)) blocks.

Let d := Decoder.Initialize uninit params blocks.
Let K := OriginalCount params.
Let k := Z.to_nat K.
Let n := length (Decoder.Recovery d).
Let B := Z.to_nat (BlockBytes params).
Let r := Decoder.Recovery_at d 0.

Hypothesis Hn : (0 < n)%nat.

Lemma buffer_at pos p :
  (pos < k)%nat ->
  length (Block (block_at blocks pos)) = B /\
  is_byte (nth p (Block (block_at blocks pos)) 0).
Proof.
  intro Hpos. rewrite Forall_forall in Hbuffers.
  destruct (Hbuffers (block_at blocks pos)) as [HL Hb].
  { apply (block_at_In params blocks Hblocks), Hpos. }
  split; [exact HL|].
  destruct (Nat.lt_ge_cases p (length (Block (block_at blocks pos)))).
  - rewrite Forall_forall in Hb. apply Hb, nth_In. assumption.
  - rewrite nth_overflow by assumption. apply is_byte_0.
Qed.

(** Byte [p] of the XOR of all the buffers. *)
Definition parity_byte (p : nat) : Z :=
  gsum (fun o => nth p (Block (block_at blocks o)) 0)
       (r :: Decoder.Original d).

Lemma fast_path_facts :
  Decoder.Recovery d = [r] /\ n = 1%nat /\ (r < k)%nat /\
  row_point uninit params blocks 0 = K /\
  (forall o, In o (Decoder.Original d) ->
     (o < k)%nat /\ 0 <= Index (block_at blocks o) < K).
Proof.
  pose proof (single_recovery uninit params blocks Hblocks Huninit Hm Hn)
    as HR.
  fold d r in HR.
  assert (Hn1 : n = 1%nat) by (unfold n; rewrite HR; reflexivity).
  pose proof (valid_rp_In uninit params blocks 0%nat Hn) as Hin.
  fold d r in Hin.
  pose proof (valid_rp_range uninit params blocks Huninit r Hin) as Hrk.
  pose proof (row_point_range uninit params blocks Hblocks Huninit 0%nat Hn)
    as Hrow.
  split; [exact HR|]. split; [exact Hn1|]. split; [exact Hrk|].
  split; [fold K in Hrow; lia|].
  intros o Ho. unfold d in Ho. rewrite valid_Original in Ho.
  apply filter_In in Ho. destruct Ho as [Ho Hlt]. apply in_seq in Ho.
  apply Z.ltb_lt in Hlt.
  pose proof (block_index_range params blocks Hblocks o ltac:(lia)).
  fold K k in Ho, Hlt |- *. lia.
Qed.

Lemma parity_byte_is_byte p : is_byte (parity_byte p).
Proof.
  destruct fast_path_facts as [HR [Hn1 [Hrk [_ HO]]]].
  unfold parity_byte. apply gsum_byte. intros o [<-|Ho].
  - apply buffer_at, Hrk.
  - apply buffer_at, HO, Ho.
Qed.

Lemma fast_path_start :
  data_inv d (fun _ p => parity_byte p) 0 (start_state uninit params blocks).
Proof.
  destruct fast_path_facts as [HR [Hn1 [Hrk [Hrow HO]]]].
  destruct (valid_K params Hparams) as [HKb _]. fold K in HKb.
  destruct (eliminated_spec uninit params blocks Hblocks Huninit)
    as [_ [_ W]].
  fold d in W. specialize (W 0%nat Hn). fold r in W.
  destruct W as [_ [WL WB]].
  destruct (buffer_at r 0 Hrk) as [Lr _].
  assert (HP : Decoder.Params d = params) by apply valid_Params.
  constructor.
  - intros t Ht. fold n in Ht. replace t with 0%nat by lia.
    unfold start_state. cbn [Decoder.el_blocks]. fold r.
    rewrite WL, HP, Lr. fold B. lia.
  - intros t p Ht. lia.
  - intros t p Ht Hp. fold n in Ht. rewrite HP in Hp.
    replace t with 0%nat by lia. fold n. rewrite Hn1. cbn [seq Nat.sub].
    rewrite gsum_cons, gsum_nil, gf256_add_0_r.
    rewrite (start_matrix uninit params blocks Hparams Hblocks Huninit)
      by (fold d n; lia).
    rewrite Hrow.
    pose proof (column_point_range uninit params blocks Hblocks Huninit
                  0%nat Hn) as Hc.
    fold K in Hc.
    rewrite GetMatrixElement_first_row;
      [|exact HKb|unfold is_byte in *; lia|lia].
    rewrite gf256_mul_1_l by apply parity_byte_is_byte.
    unfold buffer_byte, start_state. cbn [Decoder.el_blocks]. fold r.
    rewrite WB by (rewrite ?Lr; exact Hp).
    unfold parity_byte. rewrite gsum_cons. f_equal.
    apply gsum_ext. intros o Ho. destruct (HO o Ho) as [Hok Hidx].
    rewrite Hrow.
    rewrite GetMatrixElement_first_row;
      [|exact HKb|unfold is_byte in *; lia|lia].
    apply gf256_mul_1_l, buffer_at, Hok.
Qed.

Lemma fast_path_agrees :
  Decoder.Decode d blocks = Decoder.DecodeM1 d blocks.
Proof.
  destruct fast_path_facts as [HR [Hn1 [Hrk [Hrow HO]]]].
  pose proof (valid_length params blocks Hblocks) as Hlen. fold K k in Hlen.
  destruct (buffer_at r 0 Hrk) as [Lr _].
  destruct (DecodeM1_spec d blocks r ltac:(lia) HR) as [buf [E [Lb Wb]]].
  { intro Ho.
    apply (valid_Original_not_Recovery uninit params blocks r Ho).
    fold d. rewrite HR. left. reflexivity. }
  assert (HP : Decoder.Params d = params) by apply valid_Params.
  rewrite HP in Wb. fold B in Wb.
  specialize (Wb ltac:(lia)).
  destruct (Decode_result uninit params blocks Hparams Hblocks Huninit
              (fun _ p => parity_byte p)
              ltac:(intros; apply parity_byte_is_byte))
    as [L [F [I [LB D]]]].
  fold d n B in L, F, I, LB, D. specialize (D fast_path_start).
  rewrite E. unfold r in *. apply (list_eq_nth _ _ null_block).
  - rewrite L, update_nth_length. reflexivity.
  - intros pos _. fold (block_at (Decoder.Decode d blocks) pos).
    match goal with
    | |- _ = nth pos ?l null_block => fold (block_at l pos)
    end.
    destruct (Nat.eq_dec pos (Decoder.Recovery_at d 0)) as [->|Hne].
    + rewrite block_at_update_same by lia.
      apply block_eta.
      * apply (list_eq_nth _ _ 0).
        -- rewrite (LB 0%nat Hn), Lb. reflexivity.
        -- intros p Hp. rewrite (LB 0%nat Hn), Lr in Hp.
           rewrite (D 0%nat p Hn Hp), Wb by exact Hp. reflexivity.
      * rewrite (I 0%nat Hn). symmetry.
        apply (valid_erasures uninit params blocks Hparams Hblocks Huninit).
        exact Hn.
    + rewrite block_at_update_other by exact Hne.
      apply F. rewrite HR. intros [H|[]]. apply Hne. symmetry. exact H.
Qed.

End FastPath.

(** X11 — For [recoveryCount = 1] the decoder does not call [Decode] but the
    XOR-only [DecodeM1].  On such an input, with buffers of [blockBytes]
    bytes, [Decode] would have given the same blocks: the fast path is
    an optimisation and nothing else. *)
Theorem DecodeM1_agrees_with_Decode {ctx : gf256_ctx} (uninit : list Z)
    (params : cm256_encoder_params) (blocks : list cm256_block) :
  valid_params params ->
  valid_blocks params blocks ->
  length uninit = 256%nat ->
  RecoveryCount params = 1 ->
  Forall (fun b => length (Block b) = Z.to_nat (BlockBytes params) /\
                   Forall is_byte (Block b)) blocks ->
  let d := Decoder.Initialize uninit params blocks in
  (0 < length (Decoder.Recovery d))%nat ->
  Decoder.DecodeM1 d blocks = Decoder.Decode d blocks.
Proof.
  intros Hv Hb Hu Hm Hbuf d Hn. symmetry.
  apply fast_path_agrees; assumption.
Qed.

(* ================================================================= *)
(** ** The further properties on concrete inputs *)

Definition originals_3' : list (list Z) := [[7; 7]; [0; 1]; [2; 3]].

(** [originals_3] with byte 1 of block 1 changed. *)
Definition originals_3_changed : list (list Z) := [[1; 2]; [3; 9]; [5; 6]].

Ltac concrete_originals :=
  unfold valid_originals, is_byte; simpl;
  repeat (first [ apply Forall_nil | apply Forall_cons | split
                | reflexivity | lia ]).

Lemma params_3_2_fit : copy_offsets_fit params_3_2.
Proof. intro H. discriminate H. Defined.

Lemma originals_3_valid : valid_originals params_3_2 originals_3.
Proof. concrete_originals. Defined.

Lemma originals_3'_valid : valid_originals params_3_2 originals_3'.
Proof. concrete_originals. Defined.

Lemma originals_3_changed_valid :
  valid_originals params_3_2 originals_3_changed.
Proof. concrete_originals. Defined.

Lemma blocks_one_recovery_buffers :
  Forall (fun b => length (Block b) = Z.to_nat (BlockBytes params_3_1) /\
                   Forall is_byte (Block b)) blocks_one_recovery.
Proof.
  unfold blocks_one_recovery, is_byte; simpl.
  repeat (first [ apply Forall_nil | apply Forall_cons | split
                | reflexivity | lia ]).
Defined.

Lemma encode_writes_only_recovery_rows_witness :
  exists out,
    cm256_encode params_3_2 (Some originals_3) (Some (repeat 9 6)) =
      (0, Some out) /\
    length out = 6%nat /\
    skipn 4 out = [9; 9].
Proof.
  apply (encode_writes_only_recovery_rows (ctx := GF256Ctx) params_3_2
           originals_3 (repeat 9 6)).
  - exact params_3_2_valid.
  - exact params_3_2_fit.
  - simpl; lia.
Defined.

Lemma encode_recovery_count_independent_witness :
  exists out out',
    cm256_encode params_3_1 (Some originals_3) (Some (repeat 0 2)) =
      (0, Some out) /\
    cm256_encode params_3_2 (Some originals_3) (Some (repeat 0 4)) =
      (0, Some out') /\
    forall i, (i < 1)%nat -> region_row 2 out' i = region_row 2 out i.
Proof.
  apply (encode_recovery_count_independent (ctx := GF256Ctx) params_3_1 2
           originals_3 (repeat 0 2) (repeat 0 4)).
  - exact params_3_1_valid.
  - exact params_3_2_valid.
  - exact params_3_2_fit.
  - simpl; lia.
  - exact originals_3_valid.
  - simpl; lia.
  - simpl; lia.
Defined.

Lemma encode_linear_witness :
  exists out_a out_b out,
    cm256_encode params_3_2 (Some originals_3) (Some (repeat 0 4)) =
      (0, Some out_a) /\
    cm256_encode params_3_2 (Some originals_3') (Some (repeat 0 4)) =
      (0, Some out_b) /\
    cm256_encode params_3_2 (Some (xor_originals originals_3 originals_3'))
      (Some (repeat 0 4)) = (0, Some out) /\
    forall i, (i < 2)%nat ->
      region_row 2 out i =
      xor_buffers (region_row 2 out_a i) (region_row 2 out_b i).
Proof.
  apply (encode_linear (ctx := GF256Ctx) params_3_2 originals_3 originals_3'
           (repeat 0 4) (repeat 0 4) (repeat 0 4)).
  - exact params_3_2_valid.
  - exact params_3_2_fit.
  - exact originals_3_valid.
  - exact originals_3'_valid.
  - simpl; lia.
  - simpl; lia.
  - simpl; lia.
Defined.

Lemma GetMatrixElement_nonzero_witness :
  is_byte (GetMatrixElement 4 3 1) /\ GetMatrixElement 4 3 1 <> 0.
Proof.
  apply (GetMatrixElement_nonzero (ctx := GF256Ctx) 4 3 1);
    unfold is_byte; lia.
Defined.

Lemma encode_covers_every_original_witness :
  exists out_a out_b,
    cm256_encode params_3_2 (Some originals_3) (Some (repeat 0 4)) =
      (0, Some out_a) /\
    cm256_encode params_3_2 (Some originals_3_changed) (Some (repeat 0 4)) =
      (0, Some out_b) /\
    forall i, (i < 2)%nat ->
      nth 1 (region_row 2 out_a i) 0 <> nth 1 (region_row 2 out_b i) 0.
Proof.
  apply (encode_covers_every_original (ctx := GF256Ctx) params_3_2
           originals_3 originals_3_changed (repeat 0 4) (repeat 0 4) 1 1).
  - exact params_3_2_valid.
  - exact params_3_2_fit.
  - exact originals_3_valid.
  - exact originals_3_changed_valid.
  - simpl; lia.
  - simpl; lia.
  - simpl; lia.
  - simpl; lia.
  - simpl; lia.
  - intros [|[|[|j']]] Hj'; try reflexivity. exfalso. apply Hj'. reflexivity.
Defined.

Lemma decode_labels_complete_witness :
  exists blocks',
    cm256_decode stale_erasures params_3_2 blocks_two_recoveries =
      (0, blocks') /\
    Permutation (map Index blocks') [0; 1; 2].
Proof.
  apply (decode_labels_complete (ctx := GF256Ctx) stale_erasures params_3_2
           blocks_two_recoveries).
  - exact params_3_2_valid.
  - exact blocks_two_recoveries_valid.
  - reflexivity.
Defined.

Lemma decode_idempotent_witness :
  exists blocks',
    cm256_decode stale_erasures params_3_2 blocks_two_recoveries =
      (0, blocks') /\
    cm256_decode [] params_3_2 blocks' = (0, blocks').
Proof.
  apply (decode_idempotent (ctx := GF256Ctx) stale_erasures [] params_3_2
           blocks_two_recoveries).
  - exact params_3_2_valid.
  - exact blocks_two_recoveries_valid.
  - reflexivity.
Defined.

Lemma decode_any_k_blocks_witness :
  exists out,
    cm256_encode params_3_2 (Some originals_3) (Some (repeat 0 4)) =
      (0, Some out) /\
    forall blocks,
      valid_blocks params_3_2 blocks ->
      Forall (fun b =>
                Block b =
                codeword_block params_3_2 originals_3 out (Index b))
             blocks ->
      exists blocks',
        cm256_decode stale_erasures params_3_2 blocks = (0, blocks') /\
        Permutation blocks' (map (original_block originals_3) (seq 0 3)).
Proof.
  apply (decode_any_k_blocks (ctx := GF256Ctx) stale_erasures params_3_2
           originals_3 (repeat 0 4)).
  - exact params_3_2_valid.
  - exact params_3_2_fit.
  - reflexivity.
  - exact originals_3_valid.
  - simpl; lia.
Defined.

Lemma decode_ignores_uninitialised_witness :
  cm256_decode stale_erasures params_3_2 blocks_two_recoveries =
  cm256_decode (repeat 0 256) params_3_2 blocks_two_recoveries.
Proof.
  apply (decode_ignores_uninitialised (ctx := GF256Ctx) stale_erasures
           (repeat 0 256) params_3_2 blocks_two_recoveries).
  - exact params_3_2_valid.
  - exact blocks_two_recoveries_valid.
  - reflexivity.
  - reflexivity.
Defined.

Lemma Decode_pivot_is_first_candidate_witness :
  let d := Decoder.Initialize stale_erasures params_3_2
             blocks_two_recoveries in
  let n := length (Decoder.Recovery d) in
  let start := start_state stale_erasures params_3_2 blocks_two_recoveries in
  Decoder.Decode d blocks_two_recoveries =
    Decoder.Decode_back_substitute d (Decoder.Decode_gauss d start) /\
  (forall j, (j < n)%nat ->
     let st := gauss_prefix d j start in
     nth j (Decoder.el_pivots st) 0 = Z.of_nat j /\
     nth (Z.to_nat (nth j (Decoder.el_pivots st) 0) * n + j)
         (Decoder.el_matrix st) 0 <> 0) /\
  Decoder.el_pivots (Decoder.Decode_gauss d start) =
    Decoder.el_pivots start.
Proof.
  apply (Decode_pivot_is_first_candidate (ctx := GF256Ctx) stale_erasures
           params_3_2 blocks_two_recoveries).
  - exact params_3_2_valid.
  - exact blocks_two_recoveries_valid.
  - reflexivity.
Defined.

Lemma DecodeM1_agrees_with_Decode_witness :
  Decoder.DecodeM1
    (Decoder.Initialize stale_erasures params_3_1 blocks_one_recovery)
    blocks_one_recovery =
  Decoder.Decode
    (Decoder.Initialize stale_erasures params_3_1 blocks_one_recovery)
    blocks_one_recovery.
Proof.
  apply (DecodeM1_agrees_with_Decode (ctx := GF256Ctx) stale_erasures
           params_3_1 blocks_one_recovery).
  - exact params_3_1_valid.
  - exact blocks_one_recovery_valid.
  - reflexivity.
  - reflexivity.
  - exact blocks_one_recovery_buffers.
  - rewrite valid_Recovery. simpl. lia.
Defined.
